(** * tvgCompressor: the LZW codec and the Base64 decoder of ThorVG

    A shallow embedding of [src/common/tvgCompressor.cpp] and the proofs of
    its specification.

    Conventions of the embedding.
    - A C++ [int], [uint32_t], [uint64_t] or [size_t] is a [Z]; every
      conversion between integer types is written out ([u8], [u32], [u64],
      [i32]).
    - A buffer is a [list Z] of byte values; the cells of an array that the
      program has not initialised yet are [None].
    - A computation returns [option]: [None] is a run the C++ standard
      leaves undefined (a load or a store outside an array, a load of an
      uninitialised cell, overflow of signed arithmetic, a shift by the
      width of the type or more).  [malloc] is taken to succeed wherever
      the source does not test its result.
    - Loops are structural recursions on the trip count where the source
      has one, and on a fuel that bounds it otherwise. *)

From stdpp Require Import base numbers list option.

Local Open Scope Z_scope.

(** ** Integer conversions and array access *)

Definition u8 (x : Z) : Z := x mod 2 ^ 8.
Definition u32 (x : Z) : Z := x mod 2 ^ 32.
Definition u64 (x : Z) : Z := x mod 2 ^ 64.

(** Conversion to [int] (two's complement, 32 bits). *)
Definition i32 (x : Z) : Z := (x + 2 ^ 31) mod 2 ^ 32 - 2 ^ 31.

Definition INT_MIN : Z := - 2 ^ 31.
Definition INT_MAX : Z := 2 ^ 31 - 1.

(** The result of an arithmetic operation on [int]: undefined when it does
    not fit. *)
Definition int_chk (x : Z) : option Z :=
  if (INT_MIN <=? x) && (x <=? INT_MAX) then Some x else None.

(** [uint64_t(1) << b]: undefined for [b] outside [0, 64). *)
Definition shl64_1 (b : Z) : option Z :=
  if (0 <=? b) && (b <? 64) then Some (Z.shiftl 1 b) else None.

(** [a[i]] as an rvalue: undefined outside the array. *)
Definition at_ {A} (a : list A) (i : Z) : option A :=
  if (0 <=? i) && (i <? Z.of_nat (length a)) then a !! Z.to_nat i else None.

(** [a[i] = x], for an index that the caller has shown to be inside. *)
Definition upd {A} (a : list A) (i : Z) (x : A) : list A :=
  <[Z.to_nat i := x]> a.

(** [!!x] *)
Definition truth (x : Z) : Z := if x =? 0 then 0 else 1.

(** ** LZW dictionary constants *)

Definition Nil : Z := -1.
Definition MaxDictBits : Z := 12.
Definition StartBits : Z := 9.
Definition FirstCode : Z := Z.shiftl 1 (StartBits - 1).
Definition MaxDictEntries : Z := Z.shiftl 1 MaxDictBits.

(** Round up to the next power of two.  [i] runs over 1, 2, 4, 8, 16. *)
Definition nextPowerOfTwo (num : Z) : option Z :=
  num ← int_chk (num - 1);
  let num := fold_left (λ n i, Z.lor n (Z.shiftr n i)) [1; 2; 4; 8; 16] num in
  int_chk (num + 1).

(** ** BitStreamWriter *)

Module BitStreamWriter.

Record t := mk {
  stream : list Z;        (* the heap buffer, [bytesAllocated] bytes; [[]] is nullptr *)
  bytesAllocated : Z;
  granularity : Z;
  currBytePos : Z;
  nextBitPos : Z;
  numBitsWritten : Z
}.

Definition internalInit : t := mk [] 0 2 0 0 0.

(** [malloc], [memset] to zero, [memcpy] of the old contents. *)
Definition allocBytes (bytesWanted : Z) (oldPtr : list Z) (oldSize : Z) : list Z :=
  take (Z.to_nat oldSize) oldPtr ++ replicate (Z.to_nat (bytesWanted - oldSize)) 0.

Definition allocate (w : t) (bitsWanted : Z) : option t :=
  let bitsWanted := if bitsWanted <=? 0 then 8 else bitsWanted in
  bitsWanted ← (if negb (Z.rem bitsWanted 8 =? 0) then nextPowerOfTwo bitsWanted
                else Some bitsWanted);
  let sizeInBytes := Z.quot bitsWanted 8 in
  if sizeInBytes <=? bytesAllocated w then Some w
  else Some (mk (allocBytes sizeInBytes (stream w) (bytesAllocated w)) sizeInBytes
                (granularity w) (currBytePos w) (nextBitPos w) (numBitsWritten w)).

Definition setGranularity (w : t) (growthGranularity : Z) : t :=
  mk (stream w) (bytesAllocated w)
     (if growthGranularity >=? 2 then growthGranularity else 2)
     (currBytePos w) (nextBitPos w) (numBitsWritten w).

(** [BitStreamWriter()] *)
Definition new : option t := allocate internalInit 8192.

(** [BitStreamWriter(initialSizeInBits, growthGranularity)] *)
Definition new_sized (initialSizeInBits growthGranularity : Z) : option t :=
  allocate (setGranularity internalInit growthGranularity) initialSizeInBits.

(** [nextBitPos] is from 0 to 7 wherever the writer sets it, so the shift
    that makes [mask] is inside [uint32_t]. *)
Definition appendBit (w : t) (bit : Z) : option t :=
  let mask := u32 (Z.shiftl 1 (nextBitPos w)) in
  old ← at_ (stream w) (currBytePos w);
  neg ← int_chk (- bit);
  let byte := u8 (Z.lor (Z.land old (u32 (Z.lnot mask))) (Z.land (u32 neg) mask)) in
  let stream' := upd (stream w) (currBytePos w) byte in
  written ← int_chk (numBitsWritten w + 1);
  if nextBitPos w + 1 =? 8 then
    pos ← int_chk (currBytePos w + 1);
    let w' := mk stream' (bytesAllocated w) (granularity w) pos 0 written in
    if pos =? bytesAllocated w then
      n ← int_chk (bytesAllocated w * granularity w);
      n ← int_chk (n * 8);
      allocate w' n
    else Some w'
  else
    Some (mk stream' (bytesAllocated w) (granularity w) (currBytePos w)
             (nextBitPos w + 1) written).

(** The loop of [appendBitsU64], [n] iterations left, at bit [b]. *)
Fixpoint appendBitsU64_loop (n : nat) (b : Z) (num : Z) (w : t) : option t :=
  match n with
  | O => Some w
  | S n' =>
      mask ← shl64_1 b;
      let bit := truth (Z.land num mask) in
      w' ← appendBit w bit;
      appendBitsU64_loop n' (b + 1) num w'
  end.

Definition appendBitsU64 (w : t) (num : Z) (bitCount : Z) : option t :=
  appendBitsU64_loop (Z.to_nat bitCount) 0 (u64 num) w.

Definition release (w : t) : list Z * t := (stream w, internalInit).

Definition getByteCount (w : t) : Z :=
  let usedBytes := Z.quot (numBitsWritten w) 8 in
  let leftovers := Z.rem (numBitsWritten w) 8 in
  if negb (leftovers =? 0) then usedBytes + 1 else usedBytes.

End BitStreamWriter.

(** ** BitStreamReader *)

Module BitStreamReader.

Record t := mk {
  stream : list Z;        (* the borrowed buffer *)
  sizeInBytes : Z;
  sizeInBits : Z;
  currBytePos : Z;
  nextBitPos : Z;
  numBitsRead : Z
}.

Definition new (bitStream : list Z) (byteCount bitCount : Z) : t :=
  mk bitStream byteCount bitCount 0 0 0.

(** [Some (None, r)]: the call returned [false]; [Some (Some bit, r')]: it
    returned [true] and stored [bit]. *)
Definition readNextBit (r : t) : option (option Z * t) :=
  if numBitsRead r >=? sizeInBits r then Some (None, r)
  else
    let mask := u32 (Z.shiftl 1 (nextBitPos r)) in
    byte ← at_ (stream r) (currBytePos r);
    let bitOut := truth (Z.land byte mask) in
    if nextBitPos r + 1 =? 8 then
      Some (Some bitOut,
            mk (stream r) (sizeInBytes r) (sizeInBits r) (currBytePos r + 1) 0
               (numBitsRead r + 1))
    else
      Some (Some bitOut,
            mk (stream r) (sizeInBytes r) (sizeInBits r) (currBytePos r)
               (nextBitPos r + 1) (numBitsRead r + 1)).

Fixpoint readBitsU64_loop (n : nat) (b : Z) (num : Z) (r : t) : option (Z * t) :=
  match n with
  | O => Some (num, r)
  | S n' =>
      '(bit, r') ← readNextBit r;
      match bit with
      | None => Some (num, r')
      | Some bit =>
          mask ← shl64_1 b;
          let num' := Z.lor (Z.land num (u64 (Z.lnot mask))) (Z.land (u64 (- bit)) mask) in
          readBitsU64_loop n' (b + 1) num' r'
      end
  end.

Definition readBitsU64 (r : t) (bitCount : Z) : option (Z * t) :=
  readBitsU64_loop (Z.to_nat bitCount) 0 0 r.

Definition isEndOfStream (r : t) : bool := numBitsRead r >=? sizeInBits r.

End BitStreamReader.

(** ** Dictionary *)

Module Dictionary.

Record Entry := mkEntry { code : Z; value : Z }.

Record t := mk {
  size : Z;
  entries : list (option Entry)   (* [MaxDictEntries] cells *)
}.

(** [Dictionary()]: the first 256 cells are initialised, the others are not. *)
Definition new : t :=
  mk FirstCode
     (((λ i, Some (mkEntry Nil i)) <$> seqZ 0 FirstCode)
        ++ replicate (Z.to_nat (MaxDictEntries - FirstCode)) None).

(** [entries[i]] as an rvalue. *)
Definition entry (d : t) (i : Z) : option Entry := mjoin (at_ (entries d) i).

(** The linear search of [findIndex], [n] iterations left, at index [i]. *)
Fixpoint findIndex_loop (d : t) (code value : Z) (n : nat) (i : Z) : option Z :=
  match n with
  | O => Some Nil
  | S n' =>
      e ← entry d i;
      if (Dictionary.code e =? code) && (Dictionary.value e =? value) then Some i
      else findIndex_loop d code value n' (i + 1)
  end.

Definition findIndex (d : t) (code value : Z) : option Z :=
  if code =? Nil then Some value
  else findIndex_loop d code value (Z.to_nat (size d)) 0.

(** [size] is from 256 to 4096 in every dictionary that the codec builds
    (see [dict_wf]), so the store of [add] is inside the array. *)
Definition add (d : t) (code value : Z) : bool * t :=
  if size d =? MaxDictEntries then (false, d)
  else (true, mk (size d + 1) (upd (entries d) (size d) (Some (mkEntry code value)))).

(** Returns the result, the dictionary and the new [codeBitsWidth], which
    is from 9 to 12 wherever the codec calls [flush]: the shift is inside
    [int]. *)
Definition flush (d : t) (codeBitsWidth : Z) : bool * t * Z :=
  if size d =? Z.shiftl 1 codeBitsWidth then
    let codeBitsWidth := codeBitsWidth + 1 in
    if codeBitsWidth >? MaxDictBits then (true, mk FirstCode (entries d), StartBits)
    else (false, d, codeBitsWidth)
  else (false, d, codeBitsWidth).

End Dictionary.

(** ** The decoder *)

(** The output is the list of the bytes stored through [output] so far;
    [*output++ = x] appends. *)
Definition outputByte (code : Z) (output : list Z) (outputSizeBytes : Z)
    (bytesDecodedSoFar : Z) : bool * list Z * Z :=
  if bytesDecodedSoFar >=? outputSizeBytes then (false, output, bytesDecodedSoFar)
  else (true, output ++ [u8 code], bytesDecodedSoFar + 1).

(** The do-while loop of [outputSequence]: [sequence] holds the cells
    [0 .. i) of the scratch array, which has [room] cells left. *)
Fixpoint outputSequence_walk (dict : Dictionary.t) (room : nat) (code : Z)
    (sequence : list Z) : option (list Z) :=
  match room with
  | O => None
  | S room' =>
      e ← Dictionary.entry dict code;
      let sequence := sequence ++ [u8 (Dictionary.value e)] in
      let code := Dictionary.code e in
      if code >=? 0 then outputSequence_walk dict room' code sequence
      else Some sequence
  end.

(** The for loop of [outputSequence], from index [n - 1] down to 0. *)
Fixpoint outputSequence_emit (sequence : list Z) (n : nat) (output : list Z)
    (outputSizeBytes bytesDecodedSoFar : Z) : option (bool * list Z * Z) :=
  match n with
  | O => Some (true, output, bytesDecodedSoFar)
  | S i =>
      x ← sequence !! i;
      let '(ok, output, bytesDecodedSoFar) :=
        outputByte x output outputSizeBytes bytesDecodedSoFar in
      if ok then outputSequence_emit sequence i output outputSizeBytes bytesDecodedSoFar
      else Some (false, output, bytesDecodedSoFar)
  end.

(** Returns the result, the output, [bytesDecodedSoFar] and [firstByte]. *)
Definition outputSequence (dict : Dictionary.t) (code : Z) (output : list Z)
    (outputSizeBytes bytesDecodedSoFar : Z) : option (bool * list Z * Z * Z) :=
  sequence ← outputSequence_walk dict (Z.to_nat MaxDictEntries) code [];
  firstByte ← list.last sequence;
  '(ok, output, bytesDecodedSoFar) ←
    outputSequence_emit sequence (length sequence) output outputSizeBytes bytesDecodedSoFar;
  Some (ok, output, bytesDecodedSoFar, firstByte).

Module LzwDecode.

(** The local variables of [lzwDecode].  [trace] is a ghost variable: the
    pair (dictionary size, code width) the decoder holds for each code once
    the code is mirrored into its dictionary, that is where [flush] is, or
    would be, consulted.  Nothing reads it. *)
Record locals := mk {
  code : Z;
  prevCode : Z;
  firstByte : Z;
  bytesDecoded : Z;
  codeBitsWidth : Z;
  uncompressed : list Z;          (* the bytes stored through [ptr] *)
  dictionary : Dictionary.t;
  bitStream : BitStreamReader.t;
  trace : list (Z * Z)
}.

Definition init (compressed : list Z)
    (compressedSizeBytes compressedSizeBits : Z) : locals :=
  mk Nil Nil 0 0 StartBits [] Dictionary.new
     (BitStreamReader.new compressed (i32 compressedSizeBytes) (i32 compressedSizeBits))
     [].

(** The if / else-if that writes the bytes of [code]; [false]: one of the
    calls returned [false] and the body leaves the loop. *)
Definition expand (dict : Dictionary.t) (code prevCode : Z) (output : list Z)
    (outputSizeBytes bytesDecoded : Z) : option (bool * list Z * Z * Z) :=
  if code >=? Dictionary.size dict then
    r ← outputSequence dict prevCode output outputSizeBytes bytesDecoded;
    let '(ok, out, n, firstByte) := r in
    if (ok : bool) then
      let '(ok, out, n) := outputByte firstByte out outputSizeBytes n in
      Some (ok, out, n, firstByte)
    else Some (false, out, n, firstByte)
  else outputSequence dict code output outputSizeBytes bytesDecoded.

(** One trip through the body of the while loop; [false]: the body left
    the loop with [break]. *)
Definition body (uncompressedSizeBytes : Z) (s : locals) : option (bool * locals) :=
  '(num, bitStream) ← BitStreamReader.readBitsU64 (bitStream s) (codeBitsWidth s);
  let code := i32 num in
  let dict := dictionary s in
  let cap := i32 uncompressedSizeBytes in
  if prevCode s =? Nil then
    let '(ok, out, n) := outputByte code (uncompressed s) cap (bytesDecoded s) in
    if ok then
      Some (true, mk code code code n (codeBitsWidth s) out dict bitStream
                     (trace s ++ [(Dictionary.size dict, codeBitsWidth s)]))
    else
      Some (false, mk code (prevCode s) (firstByte s) n (codeBitsWidth s) out dict
                      bitStream (trace s))
  else
    r ← expand dict code (prevCode s) (uncompressed s) cap (bytesDecoded s);
    let '(ok, out, n, firstByte) := r in
    if (ok : bool) then
      let dict := (Dictionary.add dict (prevCode s) firstByte).2 in
      let tr := trace s ++ [(Dictionary.size dict, codeBitsWidth s)] in
      let '(reset, dict, codeBitsWidth) := Dictionary.flush dict (codeBitsWidth s) in
      Some (true, mk code (if reset then Nil else code) firstByte n codeBitsWidth out
                     dict bitStream tr)
    else
      Some (false, mk code (prevCode s) firstByte n (codeBitsWidth s) out dict
                      bitStream (trace s)).

(** The while loop.  Every trip reads at least one bit, so the number of
    bits plus one bounds the trips. *)
Fixpoint loop (fuel : nat) (uncompressedSizeBytes : Z) (s : locals) : option locals :=
  match fuel with
  | O => None
  | S fuel' =>
      if BitStreamReader.isEndOfStream (bitStream s) then Some s
      else
        r ← body uncompressedSizeBytes s;
        if (r.1 : bool) then loop fuel' uncompressedSizeBytes r.2 else Some r.2
  end.

Definition run (compressed : list Z)
    (compressedSizeBytes compressedSizeBits uncompressedSizeBytes : Z) : option locals :=
  loop (S (Z.to_nat (i32 compressedSizeBits))) uncompressedSizeBytes
       (init compressed compressedSizeBytes compressedSizeBits).

End LzwDecode.

(** [lzwDecode]: the four arguments are a buffer and three [uint32_t].  The
    result is the sequence of the bytes that the call stored in the buffer
    it returns, which has [uncompressedSizeBytes] bytes. *)
Definition lzwDecode (compressed : list Z)
    (compressedSizeBytes compressedSizeBits uncompressedSizeBytes : Z) : option (list Z) :=
  LzwDecode.uncompressed <$>
    LzwDecode.run compressed compressedSizeBytes compressedSizeBits uncompressedSizeBytes.

(** ** The encoder *)

Module LzwEncode.

(** The local variables of [lzwEncode].  [trace] is a ghost variable: the
    triple (code, dictionary size, code width) at each [appendBitsU64]. *)
Record locals := mk {
  code : Z;
  codeBitsWidth : Z;
  dictionary : Dictionary.t;
  bitStream : BitStreamWriter.t;
  trace : list (Z * Z * Z)
}.

(** One trip through the body of the for loop, on the byte [value]. *)
Definition body (s : locals) (value : Z) : option locals :=
  index ← Dictionary.findIndex (dictionary s) (code s) value;
  if negb (index =? Nil) then
    Some (mk index (codeBitsWidth s) (dictionary s) (bitStream s) (trace s))
  else
    bitStream ← BitStreamWriter.appendBitsU64 (bitStream s) (code s) (codeBitsWidth s);
    let tr := trace s ++ [(code s, Dictionary.size (dictionary s), codeBitsWidth s)] in
    let '(reset, dict, codeBitsWidth) := Dictionary.flush (dictionary s) (codeBitsWidth s) in
    let dict := if negb reset then (Dictionary.add dict (code s) value).2 else dict in
    Some (mk value codeBitsWidth dict bitStream tr).

(** The for loop: [n] bytes are left at [uncompressed]. *)
Fixpoint loop (uncompressed : list Z) (n : nat) (s : locals) : option locals :=
  match n with
  | O => Some s
  | S n' =>
      match uncompressed with
      | [] => None
      | value :: uncompressed' => s' ← body s value; loop uncompressed' n' s'
      end
  end.

(** The residual code at the end. *)
Definition finish (s : locals) : option locals :=
  if negb (code s =? Nil) then
    bitStream ← BitStreamWriter.appendBitsU64 (bitStream s) (code s) (codeBitsWidth s);
    Some (mk (code s) (codeBitsWidth s) (dictionary s) bitStream
             (trace s ++ [(code s, Dictionary.size (dictionary s), codeBitsWidth s)]))
  else Some s.

Definition run (uncompressed : list Z) (uncompressedSizeBytes : Z) : option locals :=
  bitStream ← BitStreamWriter.new;
  s ← loop uncompressed (Z.to_nat uncompressedSizeBytes)
         (mk Nil StartBits Dictionary.new bitStream []);
  finish s.

End LzwEncode.

(** The result of [lzwEncode]. *)
Record Compressed := mkCompressed {
  buffer : list Z;            (* the returned buffer, as allocated *)
  compressedSizeBytes : Z;
  compressedSizeBits : Z
}.

(** [lzwEncode]: [uncompressed] holds byte values, [uncompressedSizeBytes]
    is a [uint32_t]. *)
Definition lzwEncode (uncompressed : list Z) (uncompressedSizeBytes : Z) : option Compressed :=
  s ← LzwEncode.run uncompressed uncompressedSizeBytes;
  let bitStream := LzwEncode.bitStream s in
  Some (mkCompressed (BitStreamWriter.release bitStream).1
                     (u32 (BitStreamWriter.getByteCount bitStream))
                     (u32 (BitStreamWriter.numBitsWritten bitStream))).

(** ** Base64 *)

(** Conversion to [size_t] (64 bits). *)
Definition size_t (x : Z) : Z := x mod 2 ^ 64.

Module B64.

(** [B64_INDEX]: the 123 initialisers; the rest of the 256 cells is zero. *)
Definition B64_INDEX : list Z :=
  [ 0;  0;  0;  0;  0;  0;  0;  0;  0;  0;  0;  0;  0;  0;  0;  0;  0;  0;
    0;  0;  0;  0;  0;  0;  0;  0;  0;  0;  0;  0;  0;  0;  0;  0;  0;  0;
    0;  0;  0;  0;  0;  0;  0;  62; 63; 62; 62; 63; 52; 53; 54; 55; 56; 57;
    58; 59; 60; 61; 0;  0;  0;  0;  0;  0;  0;  0;  1;  2;  3;  4;  5;  6;
    7;  8;  9;  10; 11; 12; 13; 14; 15; 16; 17; 18; 19; 20; 21; 22; 23; 24;
    25; 0;  0;  0;  0;  63; 0;  26; 27; 28; 29; 30; 31; 32; 33; 34; 35; 36;
    37; 38; 39; 40; 41; 42; 43; 44; 45; 46; 47; 48; 49; 50; 51 ]
  ++ replicate 133 0.

(** [encoded[i]]: the array holds the characters of the string and the
    terminating zero. *)
Definition char_at (encoded : list Z) (i : Z) : option Z := at_ (encoded ++ [0]) i.

(** [output[idx] = x]: the buffer holds [reserved] cells, [None] until
    they are written; a store outside is undefined. *)
Definition store (output : list (option Z)) (idx : Z) (x : Z) : option (list (option Z)) :=
  if (0 <=? idx) && (idx <? Z.of_nat (length output)) then Some (upd output idx (Some (u8 x)))
  else None.

(** The variables that the loop changes: [pos] is the offset of
    [encoded] from the start of the string. *)
Record state := mk {
  pos : Z;
  idx : Z;
  output : list (option Z)
}.

(** The while loop.  Every trip but the last moves [encoded] forward, so
    the length of the string plus one bounds the trips. *)
Fixpoint loop (fuel : nat) (encoded : list Z) (s : state) : option state :=
  match fuel with
  | O => None
  | S fuel' =>
      c0 ← char_at encoded (pos s);
      if c0 =? 0 then Some s else
      c1 ← char_at encoded (pos s + 1);
      if c1 =? 0 then Some s else
      if c0 <=? 32 then loop fuel' encoded (mk (pos s + 1) (idx s) (output s)) else
      value1 ← at_ B64_INDEX (size_t c0);
      value2 ← at_ B64_INDEX (size_t c1);
      output1 ← store (output s) (idx s)
                 (Z.shiftl value1 2 + Z.shiftr (Z.land value2 48) 4);
      c2 ← char_at encoded (pos s + 2);
      stop ← (if c2 =? 0 then Some true
              else c3 ← char_at encoded (pos s + 3);
                   Some ((c3 <? 0) || (c2 =? 61) || (c2 =? 46)));
      if (stop : bool) then Some (mk (pos s) (idx s + 1) output1) else
      value3 ← at_ B64_INDEX (size_t c2);
      output2 ← store output1 (idx s + 1)
                 (Z.shiftl (Z.land value2 15) 4 + Z.shiftr (Z.land value3 60) 2);
      c3 ← char_at encoded (pos s + 3);
      if (c3 =? 0) || (c3 <? 0) || (c3 =? 61) || (c3 =? 46)
      then Some (mk (pos s) (idx s + 2) output2) else
      value4 ← at_ B64_INDEX (size_t c3);
      output3 ← store output2 (idx s + 2) (Z.shiftl (Z.land value3 3) 6 + value4);
      loop fuel' encoded (mk (pos s + 4) (idx s + 3) output3)
  end.

Definition reserved (len : Z) : Z := size_t (3 * (1 + Z.shiftr len 2) + 1).

(** The part of [b64Decode] after the allocation: the final state. *)
Definition run (encoded : list Z) (len : Z) : option state :=
  let output := upd (replicate (Z.to_nat (reserved len)) None) (reserved len - 1) (Some 0) in
  loop (S (length encoded)) encoded (mk 0 0 output).

End B64.

(** [b64Decode].  [encoded] is [None] for a null pointer and the characters
    of the string otherwise, as values of [char]; [len] is a [size_t];
    [decoded] tells whether the out-pointer is non-null and [malloc_ok]
    whether the allocation succeeds.  The result is the returned size and
    the buffer stored in [*decoded], if one is. *)
Definition b64Decode (encoded : option (list Z)) (len : Z) (decoded : bool)
    (malloc_ok : bool) : option (Z * option (list (option Z))) :=
  match encoded with
  | None => Some (0, None)
  | Some encoded =>
      if negb decoded || (len =? 0) then Some (0, None)
      else if negb malloc_ok then Some (0, None)
      else
        s ← B64.run encoded len;
        Some (B64.reserved len, Some (B64.output s))
  end.

(** * Specification-level definitions *)

(** ** Bits *)

(** Bit [k] of a buffer: bit [k mod 8], counted from the least significant
    one, of byte [k / 8]; [false] outside the buffer. *)
Definition bit_at (buf : list Z) (k : Z) : bool :=
  match at_ buf (k / 8) with
  | Some x => Z.testbit x (k mod 8)
  | None => false
  end.

(** The value of a sequence of bits, least significant first. *)
Fixpoint Z_of_bits (bs : list bool) : Z :=
  match bs with
  | [] => 0
  | b :: bs => Z.b2z b + 2 * Z_of_bits bs
  end.

(** The [n] bits of [v] from bit [b] on, least significant first. *)
Fixpoint bits_from (n : nat) (b : Z) (v : Z) : list bool :=
  match n with
  | O => []
  | S n' => Z.testbit v b :: bits_from n' (b + 1) v
  end.

(** The writer [w] holds the bits [bs]: its cursor is at bit [length bs],
    the buffer holds [bs] packed least significant bit first, and every
    other bit of the buffer is zero. *)
Record Wrep (w : BitStreamWriter.t) (bs : list bool) : Prop := {
  wr_len : Z.of_nat (length (BitStreamWriter.stream w)) = BitStreamWriter.bytesAllocated w;
  wr_gran : 2 <= BitStreamWriter.granularity w;
  wr_bit : 0 <= BitStreamWriter.nextBitPos w < 8;
  wr_pos : 0 <= BitStreamWriter.currBytePos w < BitStreamWriter.bytesAllocated w;
  wr_num : BitStreamWriter.numBitsWritten w
           = 8 * BitStreamWriter.currBytePos w + BitStreamWriter.nextBitPos w;
  wr_cnt : Z.of_nat (length bs) = BitStreamWriter.numBitsWritten w;
  wr_bits : ∀ k, 0 <= k →
      bit_at (BitStreamWriter.stream w) k = default false (bs !! Z.to_nat k);
  wr_int : BitStreamWriter.numBitsWritten w < 2 ^ 31
}.

(** The reader [r] has the bits [bs] left to read. *)
Record Rrep (r : BitStreamReader.t) (bs : list bool) : Prop := {
  rr_bit : 0 <= BitStreamReader.nextBitPos r < 8;
  rr_pos : 0 <= BitStreamReader.currBytePos r;
  rr_num : BitStreamReader.numBitsRead r
           = 8 * BitStreamReader.currBytePos r + BitStreamReader.nextBitPos r;
  rr_cnt : Z.of_nat (length bs)
           = Z.max 0 (BitStreamReader.sizeInBits r - BitStreamReader.numBitsRead r);
  rr_in : BitStreamReader.sizeInBits r
          <= 8 * Z.of_nat (length (BitStreamReader.stream r))
          ∨ bs = [];
  rr_bits : ∀ k b, bs !! k = Some b →
      bit_at (BitStreamReader.stream r) (BitStreamReader.numBitsRead r + Z.of_nat k) = b
}.

(** ** Dictionaries *)

(** The bytes that the entry [c] stands for, first byte first: the bytes of
    its parent followed by its own value.  [fuel] bounds the length of the
    parent chain. *)
Fixpoint entry_bytes (fuel : nat) (d : Dictionary.t) (c : Z) : list Z :=
  match fuel with
  | O => []
  | S fuel' =>
      match Dictionary.entry d c with
      | None => []
      | Some e =>
          (if Dictionary.code e >=? 0 then entry_bytes fuel' d (Dictionary.code e) else [])
            ++ [u8 (Dictionary.value e)]
      end
  end.

Definition str (d : Dictionary.t) (c : Z) : list Z :=
  entry_bytes (Z.to_nat MaxDictEntries) d c.
Global Arguments str : simpl never.

(** A well-formed dictionary: the 256 roots, and above them entries whose
    parent is an entry below them. *)
Record dict_wf (d : Dictionary.t) : Prop := {
  dw_len : Z.of_nat (length (Dictionary.entries d)) = MaxDictEntries;
  dw_size : FirstCode <= Dictionary.size d <= MaxDictEntries;
  dw_root : ∀ i, 0 <= i < FirstCode →
      Dictionary.entry d i = Some (Dictionary.mkEntry Nil i);
  dw_node : ∀ i, FirstCode <= i < Dictionary.size d →
      ∃ p v, Dictionary.entry d i = Some (Dictionary.mkEntry p v)
             ∧ 0 <= p < i ∧ 0 <= v < 256
}.

(** The bits of a code of the given width, and of a sequence of codes as
    the encoder traces them. *)
Definition code_bits (c w : Z) : list bool := bits_from (Z.to_nat w) 0 (u64 c).

Definition trace_bits (tr : list (Z * Z * Z)) : list bool :=
  concat ((λ x, code_bits x.1.1 x.2) <$> tr).

(** The (dictionary size, code width) pairs of an encoder trace. *)
Definition trajectory (tr : list (Z * Z * Z)) : list (Z * Z) :=
  (λ x, (x.1.2, x.2)) <$> tr.

Definition is_byte (x : Z) : Prop := 0 <= x < 256.

(** The decoder states at the head of the loop that a run from [s] visits. *)
Inductive visits (uncompressedSizeBytes : Z) : LzwDecode.locals → LzwDecode.locals → Prop :=
  | visits_here s : visits uncompressedSizeBytes s s
  | visits_next s s1 s2 :
      BitStreamReader.isEndOfStream (LzwDecode.bitStream s) = false →
      LzwDecode.body uncompressedSizeBytes s = Some (true, s1) →
      visits uncompressedSizeBytes s1 s2 →
      visits uncompressedSizeBytes s s2.

(** Writing the bytes [xs] in order through [outputByte], up to the first
    call that returns [false]. *)
Fixpoint emit_list (xs : list Z) (output : list Z) (outputSizeBytes n : Z)
    : bool * list Z * Z :=
  match xs with
  | [] => (true, output, n)
  | x :: xs' =>
      if n >=? outputSizeBytes then (false, output, n)
      else emit_list xs' (output ++ [u8 x]) outputSizeBytes (n + 1)
  end.

(** ** The encoder and the decoder in step *)

(** The bytes of the match that the encoder is extending. *)
Definition pending (s : LzwEncode.locals) : list Z :=
  if LzwEncode.code s =? Nil then []
  else str (LzwEncode.dictionary s) (LzwEncode.code s).

(** The encoder [s], with [rest] still to read, and the decoder [d], which
    has read every code written so far.  Either both dictionaries hold the
    256 roots (at the start and after a reset), or the decoder is one entry
    behind: the entry it lacks is its [prevCode] followed by the first byte
    of the pending match. *)
Record Rel (S rest : list Z) (N : Z) (s : LzwEncode.locals) (d : LzwDecode.locals)
    : Prop := {
  rel_wf_e : dict_wf (LzwEncode.dictionary s);
  rel_wf_d : dict_wf (LzwDecode.dictionary d);
  rel_w : LzwDecode.codeBitsWidth d = LzwEncode.codeBitsWidth s;
  rel_w_range : 9 <= LzwEncode.codeBitsWidth s <= 12;
  rel_size : Dictionary.size (LzwEncode.dictionary s) <= 2 ^ LzwEncode.codeBitsWidth s;
  rel_agree : ∀ i, 0 <= i < Dictionary.size (LzwDecode.dictionary d) →
      Dictionary.entry (LzwEncode.dictionary s) i
      = Dictionary.entry (LzwDecode.dictionary d) i;
  rel_out : LzwDecode.uncompressed d ++ pending s ++ rest = S;
  rel_n : LzwDecode.bytesDecoded d = Z.of_nat (length (LzwDecode.uncompressed d));
  rel_cap : Z.of_nat (length S) <= i32 N;
  rel_trace : LzwDecode.trace d = trajectory (LzwEncode.trace s);
  rel_mode :
    (LzwDecode.prevCode d = Nil
     ∧ Dictionary.size (LzwEncode.dictionary s) = FirstCode
     ∧ Dictionary.size (LzwDecode.dictionary d) = FirstCode
     ∧ Nil <= LzwEncode.code s < FirstCode)
    ∨ (0 <= LzwDecode.prevCode d < Dictionary.size (LzwDecode.dictionary d)
       ∧ Dictionary.size (LzwEncode.dictionary s)
         = Dictionary.size (LzwDecode.dictionary d) + 1
       ∧ 0 <= LzwEncode.code s < Dictionary.size (LzwEncode.dictionary s)
       ∧ ∃ fb,
           Dictionary.entry (LzwEncode.dictionary s)
             (Dictionary.size (LzwDecode.dictionary d))
           = Some (Dictionary.mkEntry (LzwDecode.prevCode d) fb)
           ∧ head (str (LzwEncode.dictionary s) (LzwEncode.code s)) = Some fb)
}.

(** ** Base64 *)

(** The six bits of a character. *)
Definition b64_value (c : Z) : Z := default 0 (B64.B64_INDEX !! Z.to_nat c).

(** The three bytes of a group of four characters. *)
Definition b64_byte1 (c0 c1 : Z) : Z :=
  u8 (Z.shiftl (b64_value c0) 2 + Z.shiftr (Z.land (b64_value c1) 48) 4).
Definition b64_byte2 (c1 c2 : Z) : Z :=
  u8 (Z.shiftl (Z.land (b64_value c1) 15) 4 + Z.shiftr (Z.land (b64_value c2) 60) 2).
Definition b64_byte3 (c2 c3 : Z) : Z :=
  u8 (Z.shiftl (Z.land (b64_value c2) 3) 6 + b64_value c3).

(** ['='] or ['.'] *)
Definition b64_stop (c : Z) : bool := (c =? 61) || (c =? 46).

(** Decoding by groups: a character up to 0x20 where a group would start
    is skipped; a group of four characters gives three bytes; the string
    or a ['='] or ['.'] in the third or the fourth place of a group ends
    the decoding. *)
Fixpoint b64_groups (s : list Z) : list Z :=
  match s with
  | [] => []
  | c0 :: t =>
      match t with
      | [] => []
      | c1 :: r1 =>
          if c0 <=? 32 then b64_groups t
          else
            b64_byte1 c0 c1
            :: match r1 with
               | [] => []
               | c2 :: r2 =>
                   if b64_stop c2 then []
                   else
                     b64_byte2 c1 c2
                     :: match r2 with
                        | [] => []
                        | c3 :: r3 =>
                            if b64_stop c3 then []
                            else b64_byte3 c2 c3 :: b64_groups r3
                        end
               end
      end
  end.

(** A character of a string: not the terminator, and not negative. *)
Definition is_char (c : Z) : Prop := 0 < c < 256.

(** The buffer [out] with [bytes] stored from cell [idx] on. *)
Definition overwrite (out : list (option Z)) (idx : nat) (bytes : list Z)
    : list (option Z) :=
  take idx out ++ (Some <$> bytes) ++ drop (idx + length bytes) out.

(** * Definitions for the statements and the proofs *)

(** Case analysis on the head of a monadic computation in [H]. *)
Ltac bind_case H :=
  match type of H with
  | mbind _ ?x = Some _ =>
      let E := fresh "E" in destruct x eqn:E; simpl in H; [|discriminate H]
  end.

Ltac if_case H :=
  match type of H with
  | (if ?b then _ else _) = _ => let E := fresh "E" in destruct b eqn:E
  end.

(** The depth of entry [c] in a well-formed dictionary. *)
Definition depth_bound (c : Z) : Z := if c <? FirstCode then 1 else c - FirstCode + 2.

(** What the decoder keeps on any stream: a code width between 9 and 12
    and fewer than [2 ^ width] entries, so that [add] always has room. *)
Definition decode_inv (d : LzwDecode.locals) : Prop :=
  9 <= LzwDecode.codeBitsWidth d <= 12
  ∧ FirstCode <= Dictionary.size (LzwDecode.dictionary d)
    < 2 ^ LzwDecode.codeBitsWidth d.

(** Bits that are left to read. *)
Definition bits_left (d : LzwDecode.locals) : nat :=
  Z.to_nat (BitStreamReader.sizeInBits (LzwDecode.bitStream d)
            - BitStreamReader.numBitsRead (LzwDecode.bitStream d)).

(** What the encoder keeps: a well-formed dictionary with at most
    [2 ^ width] entries, the code of the match in it, and a writer that
    holds the codes written so far. *)
Record encode_inv (s : LzwEncode.locals) : Prop := {
  ei_wf : dict_wf (LzwEncode.dictionary s);
  ei_w : 9 <= LzwEncode.codeBitsWidth s <= 12;
  ei_size : Dictionary.size (LzwEncode.dictionary s) <= 2 ^ LzwEncode.codeBitsWidth s;
  ei_code : Nil <= LzwEncode.code s < Dictionary.size (LzwEncode.dictionary s);
  ei_bits : Wrep (LzwEncode.bitStream s) (trace_bits (LzwEncode.trace s));
  ei_gran : BitStreamWriter.granularity (LzwEncode.bitStream s) = 2;
  ei_widths : Forall (λ x, 9 <= x.2 <= 12 ∧ 0 <= x.1.1 < x.1.2
                           ∧ FirstCode <= x.1.2 <= 2 ^ x.2) (LzwEncode.trace s)
}.

(** The bits written so far, counting 12 for the match that is pending. *)
Definition bits_due (s : LzwEncode.locals) : Z :=
  BitStreamWriter.numBitsWritten (LzwEncode.bitStream s)
  + (if LzwEncode.code s =? Nil then 0 else 12).

(** The codes written so far, counting the one for the match that is
    pending. *)
Definition codes_due (s : LzwEncode.locals) : Z :=
  Z.of_nat (length (LzwEncode.trace s))
  + (if LzwEncode.code s =? Nil then 0 else 1).

(** The two constructors of [BitStreamWriter]. *)
Inductive writer_ctor :=
  | Default
  | Sized (initialSizeInBits growthGranularity : Z).

Definition construct (c : writer_ctor) : option BitStreamWriter.t :=
  match c with
  | Default => BitStreamWriter.new
  | Sized bits gran => BitStreamWriter.new_sized bits gran
  end.

(** A call that writes: [appendBit] of 0 or 1, or [appendBitsU64]. *)
Inductive write_op :=
  | AppendBit (bit : bool)
  | AppendBitsU64 (num bitCount : Z).

Definition write (w : BitStreamWriter.t) (o : write_op) : option BitStreamWriter.t :=
  match o with
  | AppendBit bit => BitStreamWriter.appendBit w (Z.b2z bit)
  | AppendBitsU64 num bitCount => BitStreamWriter.appendBitsU64 w num bitCount
  end.

Fixpoint writes (ops : list write_op) (w : BitStreamWriter.t) : option BitStreamWriter.t :=
  match ops with
  | [] => Some w
  | o :: ops => w' ← write w o; writes ops w'
  end.

(** The bits that a call is to write, in the order of writing. *)
Definition written (o : write_op) : list bool :=
  match o with
  | AppendBit bit => [bit]
  | AppendBitsU64 num bitCount => bits_from (Z.to_nat bitCount) 0 (u64 num)
  end.

Fixpoint written_bits (ops : list write_op) : list bool :=
  match ops with
  | [] => []
  | o :: ops => written o ++ written_bits ops
  end.

(** [n] calls of [readNextBit], the bits dropped. *)
Fixpoint skip (n : nat) (r : BitStreamReader.t) : option BitStreamReader.t :=
  match n with
  | O => Some r
  | S n' => r' ← BitStreamReader.readNextBit r; skip n' r'.2
  end.

(** A call that reads. *)
Inductive read_op :=
  | ReadNextBit
  | ReadBitsU64 (bitCount : Z).

(** What a call gives: [None] where [readNextBit] returns [false]. *)
Definition read (r : BitStreamReader.t) (o : read_op) : option (option Z * BitStreamReader.t) :=
  match o with
  | ReadNextBit => BitStreamReader.readNextBit r
  | ReadBitsU64 bitCount =>
      x ← BitStreamReader.readBitsU64 r bitCount; Some (Some x.1, x.2)
  end.

Fixpoint reads (ops : list read_op) (r : BitStreamReader.t)
    : option (list (option Z) * BitStreamReader.t) :=
  match ops with
  | [] => Some ([], r)
  | o :: ops =>
      x ← read r o;
      y ← reads ops x.2;
      Some (x.1 :: y.1, y.2)
  end.

(** The bits [lo], ..., [hi - 1] of a buffer. *)
Definition bits_of (buf : list Z) (lo hi : Z) : list bool :=
  (λ k : nat, bit_at buf (lo + Z.of_nat k)) <$> seq 0 (Z.to_nat (hi - lo)).

(** What a call is to give on the bits [bs] that are left, and the bits
    left after it. *)
Definition read_value (o : read_op) (bs : list bool) : option Z * list bool :=
  match o with
  | ReadNextBit =>
      match bs with
      | [] => (None, [])
      | b :: bs' => (Some (Z.b2z b), bs')
      end
  | ReadBitsU64 bitCount =>
      (Some (Z_of_bits (take (Z.to_nat bitCount) bs)), drop (Z.to_nat bitCount) bs)
  end.

Fixpoint read_values (ops : list read_op) (bs : list bool) : list (option Z) * list bool :=
  match ops with
  | [] => ([], bs)
  | o :: ops =>
      let x := read_value o bs in
      let y := read_values ops x.2 in
      (x.1 :: y.1, y.2)
  end.

Definition read_op_ok (o : read_op) : Prop :=
  match o with
  | ReadNextBit => True
  | ReadBitsU64 bitCount => bitCount <= 64
  end.

(** A writer holds the bits [bs], or it has no buffer and nothing was
    written: the second constructor allocates nothing when asked for 1 to
    4 bits. *)
Definition writer_inv (w : BitStreamWriter.t) (bs : list bool) : Prop :=
  Wrep w bs
  ∨ (BitStreamWriter.stream w = [] ∧ bs = [] ∧ BitStreamWriter.numBitsWritten w = 0).

(** The text TOBEORNOTTOBEORTOBEORNOT. *)
Definition sample_text : list Z :=
  [84; 79; 66; 69; 79; 82; 78; 79; 84; 84; 79; 66; 69; 79; 82; 84; 79; 66; 69; 79; 82;
   78; 79; 84].

(** What [lzwEncode] gives on it: 16 codes of 9 bits in a buffer of 1024
    bytes. *)
Definition sample_compressed : Compressed :=
  mkCompressed
    ([84; 158; 8; 41; 242; 68; 138; 147; 39; 84; 0; 10; 36; 152; 112; 96; 193; 131]
       ++ replicate 1006 0)
    18 144.

(** The decoder state after one trip of the loop, if the trip goes on. *)
Definition trip (uncompressedSizeBytes : Z) (d : LzwDecode.locals) : LzwDecode.locals :=
  match LzwDecode.body uncompressedSizeBytes d with
  | Some (true, d') => d'
  | _ => d
  end.


(** Bit [i] of [x] is set when one of the [k] bits of [m] from [i] on is. *)
Definition window (m x k : Z) : Prop :=
  ∀ i, 0 <= i → Z.testbit x i = true ↔ ∃ j, 0 <= j < k ∧ Z.testbit m (i + j) = true.

Ltac sub_list :=
  intros ?; cbn [app]; repeat rewrite ?elem_of_app, ?elem_of_cons, ?elem_of_nil; tauto.

(** * Bit streams *)

Lemma u8_range x : 0 <= u8 x < 256.
Proof. unfold u8. apply Z.mod_pos_bound. lia. Qed.

Lemma u8_small x : 0 <= x < 256 → u8 x = x.
Proof. intros. unfold u8. apply Z.mod_small. lia. Qed.

Lemma i32_small x : - 2 ^ 31 <= x < 2 ^ 31 → i32 x = x.
Proof. intros. unfold i32. rewrite Z.mod_small; lia. Qed.

Lemma u32_small x : 0 <= x < 2 ^ 32 → u32 x = x.
Proof. intros. unfold u32. apply Z.mod_small. lia. Qed.

Lemma u64_small x : 0 <= x < 2 ^ 64 → u64 x = x.
Proof. intros. unfold u64. apply Z.mod_small. lia. Qed.

Lemma int_chk_Some x y : int_chk x = Some y → y = x ∧ - 2 ^ 31 <= x < 2 ^ 31.
Proof.
  unfold int_chk, INT_MIN, INT_MAX. intros H.
  destruct (_ && _) eqn:E; [|done]. injection H as <-.
  apply andb_true_iff in E as [?%Z.leb_le ?%Z.leb_le]. lia.
Qed.

Lemma int_chk_ok x : - 2 ^ 31 <= x < 2 ^ 31 → int_chk x = Some x.
Proof.
  intros. unfold int_chk, INT_MIN, INT_MAX.
  destruct (_ && _) eqn:E; [done|].
  apply andb_false_iff in E as [?%Z.leb_gt | ?%Z.leb_gt]; lia.
Qed.

Lemma shl64_1_Some b m : shl64_1 b = Some m → m = 2 ^ b ∧ 0 <= b < 64.
Proof.
  unfold shl64_1. intros H. destruct (_ && _) eqn:E; [|done]. injection H as <-.
  apply andb_true_iff in E as [?%Z.leb_le ?%Z.ltb_lt].
  rewrite Z.shiftl_1_l. lia.
Qed.

Lemma shl64_1_ok b : 0 <= b < 64 → shl64_1 b = Some (2 ^ b).
Proof.
  intros. unfold shl64_1. rewrite Z.shiftl_1_l.
  destruct (_ && _) eqn:E; [done|].
  apply andb_false_iff in E as [?%Z.leb_gt | ?%Z.ltb_ge]; lia.
Qed.

Lemma at_lookup {A} (a : list A) i : 0 <= i → at_ a i = a !! Z.to_nat i.
Proof.
  intros. unfold at_. destruct (Z.leb_spec 0 i); [|lia].
  destruct (Z.ltb_spec i (Z.of_nat (length a))); [done|].
  symmetry. apply lookup_ge_None. lia.
Qed.

Lemma at_neg {A} (a : list A) i : i < 0 → at_ a i = None.
Proof. intros. unfold at_. destruct (Z.leb_spec 0 i); [lia|done]. Qed.

Lemma at_Some {A} (a : list A) i x :
  at_ a i = Some x ↔ 0 <= i ∧ a !! Z.to_nat i = Some x.
Proof.
  destruct (Z.lt_ge_cases i 0).
  - rewrite at_neg by done. split; [done|lia].
  - rewrite at_lookup by done. split; [done|tauto].
Qed.

Lemma at_upd_eq {A} (a : list A) i x :
  0 <= i < Z.of_nat (length a) → at_ (upd a i x) i = Some x.
Proof.
  intros. rewrite at_lookup by lia. unfold upd.
  apply list_lookup_insert_eq. lia.
Qed.

Lemma at_upd_ne {A} (a : list A) i j x :
  0 <= i → 0 <= j → i ≠ j → at_ (upd a i x) j = at_ a j.
Proof.
  intros. rewrite !at_lookup by lia. unfold upd.
  apply list_lookup_insert_ne. lia.
Qed.

Lemma truth_land_pow2 x p : 0 <= p → truth (Z.land x (2 ^ p)) = Z.b2z (Z.testbit x p).
Proof.
  intros Hp. unfold truth.
  destruct (Z.testbit x p) eqn:E.
  - destruct (Z.eqb_spec (Z.land x (2 ^ p)) 0) as [H0|]; [|done].
    apply (f_equal (λ z, Z.testbit z p)) in H0.
    rewrite Z.land_spec, E, Z.pow2_bits_true, Z.bits_0 in H0 by lia. done.
  - destruct (Z.eqb_spec (Z.land x (2 ^ p)) 0) as [|Hn]; [done|].
    exfalso. apply Hn. apply Z.bits_inj'. intros n Hn'.
    rewrite Z.land_spec, Z.bits_0.
    destruct (Z.eq_dec n p) as [->|]; [by rewrite E|].
    rewrite Z.pow2_bits_false by lia. apply andb_false_r.
Qed.

(** The store of [appendBit] changes one bit of the byte. *)
Lemma appendBit_byte old p bit j :
  0 <= p < 8 → 0 <= j →
  Z.testbit
    (u8 (Z.lor (Z.land old (u32 (Z.lnot (u32 (Z.shiftl 1 p)))))
               (Z.land (u32 (- bit)) (u32 (Z.shiftl 1 p))))) j
  = if j =? p then Z.testbit (- bit) p
    else if j <? 8 then Z.testbit old j else false.
Proof.
  intros Hp Hj. rewrite Z.shiftl_1_l.
  assert (Hm : u32 (2 ^ p) = 2 ^ p).
  { apply u32_small. split; [lia|]. apply Z.pow_lt_mono_r; lia. }
  rewrite Hm. unfold u8.
  destruct (Z.ltb_spec j 8) as [Hj8|Hj8].
  - rewrite Z.mod_pow2_bits_low by lia.
    rewrite Z.lor_spec, !Z.land_spec. unfold u32.
    rewrite !Z.mod_pow2_bits_low by lia.
    rewrite Z.lnot_spec by lia.
    destruct (Z.eqb_spec j p) as [->|Hne].
    + rewrite Z.pow2_bits_true by lia. simpl.
      rewrite andb_false_r, andb_true_r. done.
    + rewrite Z.pow2_bits_false by lia. simpl.
      rewrite andb_true_r, andb_false_r, orb_false_r. done.
  - rewrite Z.mod_pow2_bits_high by lia.
    destruct (Z.eqb_spec j p); [lia|done].
Qed.

Lemma bit_at_app_zeros l n k :
  0 <= k → bit_at (l ++ replicate n 0) k = bit_at l k.
Proof.
  intros Hk. unfold bit_at.
  assert (0 <= k / 8) by (apply Z.div_pos; lia).
  rewrite !at_lookup by done.
  destruct (decide (Z.to_nat (k / 8) < length l)%nat) as [Hlt|Hge].
  - by rewrite lookup_app_l.
  - rewrite lookup_app_r by lia.
    rewrite (lookup_ge_None_2 l) by lia.
    destruct (replicate n 0 !! _) as [x|] eqn:E; [|done].
    apply lookup_replicate in E as [-> _]. apply Z.bits_0.
Qed.

Lemma bit_at_upd l i x k :
  0 <= i < Z.of_nat (length l) → 0 <= k →
  bit_at (upd l i x) k = if k / 8 =? i then Z.testbit x (k mod 8) else bit_at l k.
Proof.
  intros Hi Hk. unfold bit_at.
  assert (0 <= k / 8) by (apply Z.div_pos; lia).
  destruct (Z.eqb_spec (k / 8) i) as [->|Hne].
  - by rewrite at_upd_eq.
  - by rewrite at_upd_ne by lia.
Qed.

Lemma lookup_snoc_default (bs : list bool) b k :
  default false ((bs ++ [b]) !! k)
  = if decide (k = length bs) then b else default false (bs !! k).
Proof.
  destruct (decide (k = length bs)) as [->|Hne].
  - by rewrite list_lookup_middle.
  - destruct (decide (k < length bs)%nat).
    + by rewrite lookup_app_l.
    + rewrite lookup_app_r by lia.
      rewrite (lookup_ge_None_2 bs) by lia.
      destruct (k - length bs)%nat as [|m] eqn:E; [lia|done].
Qed.

(** What [allocate] does when [appendBit] calls it. *)
Lemma allocate_grow w n :
  Z.of_nat (length (BitStreamWriter.stream w)) = BitStreamWriter.bytesAllocated w →
  1 <= BitStreamWriter.bytesAllocated w → 2 <= BitStreamWriter.granularity w →
  n = BitStreamWriter.bytesAllocated w * BitStreamWriter.granularity w * 8 →
  BitStreamWriter.allocate w n
  = Some (BitStreamWriter.mk
            (BitStreamWriter.stream w
               ++ replicate (Z.to_nat (BitStreamWriter.bytesAllocated w
                                       * BitStreamWriter.granularity w
                                       - BitStreamWriter.bytesAllocated w)) 0)
            (BitStreamWriter.bytesAllocated w * BitStreamWriter.granularity w)
            (BitStreamWriter.granularity w) (BitStreamWriter.currBytePos w)
            (BitStreamWriter.nextBitPos w) (BitStreamWriter.numBitsWritten w)).
Proof.
  intros Hlen HA Hg ->. unfold BitStreamWriter.allocate.
  set (A := BitStreamWriter.bytesAllocated w) in *.
  set (g := BitStreamWriter.granularity w) in *.
  assert (A * g >= 2 * A) by nia.
  destruct (Z.leb_spec (A * g * 8) 0); [lia|].
  rewrite Z.rem_mul by lia. simpl.
  rewrite Z.quot_mul by lia.
  destruct (Z.leb_spec (A * g) A); [lia|].
  unfold BitStreamWriter.allocBytes.
  rewrite firstn_all2 by lia. done.
Qed.

(** [appendBit] appends one bit: bit [nextBitPos] of [- bit], which is
    [bit] itself when [bit] is 0 or 1. *)
Lemma appendBit_Wrep w bs bit w' :
  Wrep w bs → BitStreamWriter.appendBit w bit = Some w' →
  Wrep w' (bs ++ [Z.testbit (- bit) (BitStreamWriter.nextBitPos w)]).
Proof.
  intros [Hlen Hg Hbit Hpos Hnum Hcnt Hbits Hint] H.
  unfold BitStreamWriter.appendBit in H.
  destruct (at_ (BitStreamWriter.stream w) (BitStreamWriter.currBytePos w))
    as [old|] eqn:Hold; [|done].
  simpl in H.
  destruct (int_chk (- bit)) as [neg|] eqn:Hneg; [|done].
  apply int_chk_Some in Hneg as [-> _]. simpl in H.
  destruct (int_chk (BitStreamWriter.numBitsWritten w + 1)) as [written|] eqn:Hw; [|done].
  apply int_chk_Some in Hw as [-> Hwr]. simpl in H.
  set (byte := u8 _) in H.
  set (p := BitStreamWriter.nextBitPos w) in *.
  set (c := BitStreamWriter.currBytePos w) in *.
  assert (Hnew : ∀ k, 0 <= k →
    bit_at (upd (BitStreamWriter.stream w) c byte) k
    = default false ((bs ++ [Z.testbit (- bit) p]) !! Z.to_nat k)).
  { intros k Hk. rewrite bit_at_upd by lia.
    rewrite lookup_snoc_default.
    assert (0 <= k mod 8 < 8) by (apply Z.mod_pos_bound; lia).
    pose proof (Z.div_mod k 8 ltac:(lia)) as Hdm.
    destruct (Z.eqb_spec (k / 8) c) as [Hkc|Hkc].
    - unfold byte. rewrite appendBit_byte by lia.
      destruct (Z.eqb_spec (k mod 8) p) as [Hkp|Hkp].
      + rewrite decide_True by lia. done.
      + rewrite decide_False by lia.
        destruct (Z.ltb_spec (k mod 8) 8); [|lia].
        rewrite <- Hbits by lia. unfold bit_at. rewrite Hkc, Hold. done.
    - rewrite decide_False by lia. by apply Hbits. }
  destruct (Z.eqb_spec (p + 1) 8) as [Hp8|Hp8].
  - destruct (int_chk (c + 1)) as [pos|] eqn:Hc; [|done].
    apply int_chk_Some in Hc as [-> Hcr]. simpl in H.
    destruct (Z.eqb_spec (c + 1) (BitStreamWriter.bytesAllocated w)) as [Hfull|Hfull].
    + destruct (int_chk (_ * _)) as [n1|] eqn:Hn1; [|done].
      apply int_chk_Some in Hn1 as [-> Hn1r]. simpl in H.
      destruct (int_chk (_ * 8)) as [n2|] eqn:Hn2; [|done].
      apply int_chk_Some in Hn2 as [-> Hn2r]. simpl in H.
      erewrite allocate_grow in H; simpl; [| | | |reflexivity];
        [|unfold upd; rewrite length_insert; lia|lia|lia].
      injection H as <-. simpl.
      assert (BitStreamWriter.bytesAllocated w * BitStreamWriter.granularity w
              >= 2 * BitStreamWriter.bytesAllocated w) by nia.
      constructor; simpl; try lia.
      * rewrite length_app, length_replicate. unfold upd. rewrite length_insert. lia.
      * rewrite length_app. simpl. lia.
      * intros k Hk. rewrite bit_at_app_zeros by lia. by apply Hnew.
    + injection H as <-.
      constructor; simpl; try lia.
      * unfold upd. rewrite length_insert. lia.
      * rewrite length_app. simpl. lia.
      * done.
  - injection H as <-.
    constructor; simpl; try lia.
    + unfold upd. rewrite length_insert. lia.
    + rewrite length_app. simpl. lia.
    + done.
Qed.

Lemma appendBit_defined w bs bit :
  Wrep w bs → - 2 ^ 31 < bit <= 2 ^ 31 →
  (BitStreamWriter.numBitsWritten w + 1) * BitStreamWriter.granularity w < 2 ^ 31 →
  is_Some (BitStreamWriter.appendBit w bit).
Proof.
  intros [Hlen Hg Hbit Hpos Hnum Hcnt Hbits Hint] Hrange Hsmall.
  unfold BitStreamWriter.appendBit.
  set (p := BitStreamWriter.nextBitPos w) in *.
  set (c := BitStreamWriter.currBytePos w) in *.
  set (A := BitStreamWriter.bytesAllocated w) in *.
  set (g := BitStreamWriter.granularity w) in *.
  set (m := BitStreamWriter.numBitsWritten w) in *.
  assert (0 <= m) by lia.
  assert (2 * (m + 1) <= (m + 1) * g) by nia.
  destruct (at_ (BitStreamWriter.stream w) c) as [old|] eqn:Hold.
  2:{ rewrite at_lookup in Hold by lia. apply lookup_ge_None in Hold. lia. }
  simpl. rewrite (int_chk_ok (- bit)) by lia. simpl.
  rewrite (int_chk_ok (m + 1)) by lia. simpl.
  destruct (Z.eqb_spec (p + 1) 8) as [Hp8|Hp8]; [|done].
  rewrite (int_chk_ok (c + 1)) by lia. simpl.
  destruct (Z.eqb_spec (c + 1) A) as [Hfull|Hfull]; [|done].
  assert (8 * A = m + 1) by lia.
  assert (A * g * 8 = (m + 1) * g) by lia.
  assert (0 <= A * g <= A * g * 8) by nia.
  rewrite (int_chk_ok (A * g)) by lia. simpl.
  rewrite (int_chk_ok (A * g * 8)) by lia. simpl.
  erewrite allocate_grow; simpl; [done| | | |reflexivity].
  - unfold upd. rewrite length_insert. lia.
  - lia.
  - lia.
Qed.

Lemma testbit_neg_b2z t p : 0 <= p → Z.testbit (- Z.b2z t) p = t.
Proof.
  intros. destruct t; simpl.
  - by apply Z.bits_m1.
  - apply Z.bits_0.
Qed.

Lemma appendBitsU64_loop_Wrep n : ∀ b num w bs w',
  Wrep w bs → BitStreamWriter.appendBitsU64_loop n b num w = Some w' →
  Wrep w' (bs ++ bits_from n b num).
Proof.
  induction n as [|n IH]; intros b num w bs w' Hw H; simpl in *.
  - injection H as <-. by rewrite app_nil_r.
  - destruct (shl64_1 b) as [mask|] eqn:Hm; [|done].
    apply shl64_1_Some in Hm as [-> Hb]. simpl in H.
    rewrite truth_land_pow2 in H by lia.
    destruct (BitStreamWriter.appendBit w _) as [w1|] eqn:H1; [|done]. simpl in H.
    eapply appendBit_Wrep in H1; [|done].
    rewrite testbit_neg_b2z in H1 by (destruct Hw; lia).
    eapply IH in H; [|done]. by rewrite <- app_assoc in H.
Qed.

Lemma appendBitsU64_Wrep w bs num bitCount w' :
  Wrep w bs → BitStreamWriter.appendBitsU64 w num bitCount = Some w' →
  Wrep w' (bs ++ bits_from (Z.to_nat bitCount) 0 (u64 num)).
Proof. apply appendBitsU64_loop_Wrep. Qed.

Lemma length_bits_from n b v : length (bits_from n b v) = n.
Proof. revert b; induction n; intros; simpl; auto. Qed.

Lemma allocate_granularity w n w' :
  BitStreamWriter.allocate w n = Some w' →
  BitStreamWriter.granularity w' = BitStreamWriter.granularity w.
Proof.
  unfold BitStreamWriter.allocate. intros H.
  bind_case H. if_case H; by injection H as <-.
Qed.

Lemma appendBit_granularity w bit w' :
  BitStreamWriter.appendBit w bit = Some w' →
  BitStreamWriter.granularity w' = BitStreamWriter.granularity w.
Proof.
  unfold BitStreamWriter.appendBit. intros H.
  bind_case H. bind_case H. bind_case H. if_case H.
  - bind_case H. if_case H.
    + bind_case H. bind_case H. by apply allocate_granularity in H.
    + by injection H as <-.
  - by injection H as <-.
Qed.

Lemma appendBitsU64_loop_defined n : ∀ b num w bs,
  Wrep w bs → 0 <= b → b + Z.of_nat n <= 64 →
  (BitStreamWriter.numBitsWritten w + Z.of_nat n) * BitStreamWriter.granularity w < 2 ^ 31 →
  is_Some (BitStreamWriter.appendBitsU64_loop n b num w).
Proof.
  induction n as [|n IH]; intros b num w bs Hw Hb Hbn Hsmall; simpl.
  - done.
  - rewrite shl64_1_ok by lia. simpl.
    pose proof (wr_gran _ _ Hw). pose proof (wr_cnt _ _ Hw).
    destruct (appendBit_defined w bs (truth (Z.land num (2 ^ b))) Hw) as [w1 H1];
      [unfold truth; case_match; lia|nia|].
    rewrite H1. simpl.
    pose proof (appendBit_Wrep _ _ _ _ Hw H1) as Hw1.
    pose proof (appendBit_granularity _ _ _ H1) as Hg1.
    eapply IH; [done|lia|lia|].
    rewrite Hg1. pose proof (wr_cnt _ _ Hw1) as Hc1.
    rewrite length_app in Hc1. simpl in Hc1. nia.
Qed.

Lemma appendBitsU64_defined w bs num bitCount :
  Wrep w bs → bitCount <= 64 →
  (BitStreamWriter.numBitsWritten w + Z.max 0 bitCount) * BitStreamWriter.granularity w
    < 2 ^ 31 →
  is_Some (BitStreamWriter.appendBitsU64 w num bitCount).
Proof.
  intros. eapply appendBitsU64_loop_defined; [done|lia|lia|].
  replace (Z.of_nat (Z.to_nat bitCount)) with (Z.max 0 bitCount) by lia. done.
Qed.

Lemma Z_of_bits_range bs : 0 <= Z_of_bits bs < 2 ^ Z.of_nat (length bs).
Proof.
  induction bs as [|b bs IH]; simpl length; [simpl; lia|].
  rewrite Nat2Z.inj_succ, Z.pow_succ_r by lia. simpl Z_of_bits.
  destruct b; simpl; lia.
Qed.

Lemma Z_of_bits_from n : ∀ b v,
  0 <= b → Z_of_bits (bits_from n b v) = (v / 2 ^ b) mod 2 ^ Z.of_nat n.
Proof.
  induction n as [|n IH]; intros b v Hb.
  - simpl. by rewrite Z.mod_1_r.
  - cbn [bits_from Z_of_bits]. rewrite IH by lia.
    rewrite Nat2Z.inj_succ, Z.pow_succ_r by lia.
    rewrite Z.rem_mul_r by lia.
    rewrite Z.testbit_spec' by lia.
    rewrite Z.pow_add_r, Z.pow_1_r by lia.
    rewrite Z.div_div by lia. done.
Qed.

Lemma Z_of_bits_from_0 n v : Z_of_bits (bits_from n 0 v) = v mod 2 ^ Z.of_nat n.
Proof. rewrite Z_of_bits_from by lia. by rewrite Z.pow_0_r, Z.div_1_r. Qed.

(** ** The reader *)

Lemma Rrep_nil_end r : Rrep r [] → BitStreamReader.isEndOfStream r = true.
Proof.
  intros H. unfold BitStreamReader.isEndOfStream.
  pose proof (rr_cnt _ _ H) as Hc. simpl in Hc.
  destruct (Z.geb_spec (BitStreamReader.numBitsRead r) (BitStreamReader.sizeInBits r));
    [done|lia].
Qed.

Lemma Rrep_cons_not_end r b bs : Rrep r (b :: bs) → BitStreamReader.isEndOfStream r = false.
Proof.
  intros H. unfold BitStreamReader.isEndOfStream.
  pose proof (rr_cnt _ _ H) as Hc. simpl length in Hc.
  destruct (Z.geb_spec (BitStreamReader.numBitsRead r) (BitStreamReader.sizeInBits r));
    [lia|done].
Qed.

Lemma readNextBit_nil r : Rrep r [] → BitStreamReader.readNextBit r = Some (None, r).
Proof.
  intros H. apply Rrep_nil_end in H. unfold BitStreamReader.isEndOfStream in H.
  unfold BitStreamReader.readNextBit. by rewrite H.
Qed.

Lemma readNextBit_cons r b bs :
  Rrep r (b :: bs) →
  ∃ r', BitStreamReader.readNextBit r = Some (Some (Z.b2z b), r') ∧ Rrep r' bs
        ∧ BitStreamReader.stream r' = BitStreamReader.stream r
        ∧ BitStreamReader.sizeInBits r' = BitStreamReader.sizeInBits r
        ∧ BitStreamReader.sizeInBytes r' = BitStreamReader.sizeInBytes r
        ∧ BitStreamReader.numBitsRead r' = BitStreamReader.numBitsRead r + 1.
Proof.
  intros H. pose proof (Rrep_cons_not_end _ _ _ H) as He.
  destruct H as [Hbit Hpos Hnum Hcnt Hin Hbits].
  unfold BitStreamReader.isEndOfStream in He.
  unfold BitStreamReader.readNextBit. rewrite He.
  simpl length in Hcnt. destruct Hin as [Hin|]; [|done].
  set (p := BitStreamReader.nextBitPos r) in *.
  set (c := BitStreamReader.currBytePos r) in *.
  destruct (at_ (BitStreamReader.stream r) c) as [byte|] eqn:Hbyte.
  2:{ rewrite at_lookup in Hbyte by lia. apply lookup_ge_None in Hbyte. lia. }
  simpl.
  assert (Hm : u32 (Z.shiftl 1 p) = 2 ^ p).
  { rewrite Z.shiftl_1_l. apply u32_small. split; [lia|]. apply Z.pow_lt_mono_r; lia. }
  rewrite Hm, truth_land_pow2 by lia.
  assert (Hb : Z.testbit byte p = b).
  { rewrite <- (Hbits 0%nat b) by done. unfold bit_at.
    replace (BitStreamReader.numBitsRead r + Z.of_nat 0) with (p + c * 8) by lia.
    rewrite Z.div_add, Z.mod_add by lia.
    rewrite Z.div_small, Z.mod_small by lia. rewrite Z.add_0_l. by rewrite Hbyte. }
  rewrite Hb.
  assert (Hrest : ∀ k b', bs !! k = Some b' →
    bit_at (BitStreamReader.stream r) (BitStreamReader.numBitsRead r + 1 + Z.of_nat k) = b').
  { intros k b' Hk. rewrite <- (Hbits (S k) b') by done. f_equal. lia. }
  destruct (Z.eqb_spec (p + 1) 8) as [Hp8|Hp8].
  - eexists. split; [done|]. simpl. split; [|done].
    constructor; simpl; try lia. done.
  - eexists. split; [done|]. simpl. split; [|done].
    constructor; simpl; try lia. done.
Qed.

(** The update of [num] in [readBitsU64] sets bit [b], which is still clear. *)
Lemma readBits_num num b t :
  0 <= b < 64 → 0 <= num < 2 ^ b →
  Z.lor (Z.land num (u64 (Z.lnot (2 ^ b)))) (Z.land (u64 (- Z.b2z t)) (2 ^ b))
  = num + Z.b2z t * 2 ^ b.
Proof.
  intros Hb Hnum.
  assert (Hhigh : ∀ j, b <= j → Z.testbit num j = false).
  { intros j Hj. rewrite <- (Z.mod_small num (2 ^ b)) by lia.
    apply Z.mod_pow2_bits_high. lia. }
  rewrite Z.add_nocarry_lor.
  - apply Z.bits_inj'. intros j Hj.
    rewrite !Z.lor_spec, !Z.land_spec. unfold u64.
    destruct (Z.ltb_spec j 64) as [Hj64|Hj64].
    + rewrite !Z.mod_pow2_bits_low by lia. rewrite Z.lnot_spec by lia.
      destruct (Z.eq_dec j b) as [->|Hne].
      * rewrite Z.pow2_bits_true, Hhigh by lia.
        rewrite testbit_neg_b2z by lia. simpl.
        destruct t; simpl; [|by rewrite Z.bits_0].
        rewrite Z.mul_1_l. by rewrite Z.pow2_bits_true by lia.
      * rewrite Z.pow2_bits_false by lia. simpl. rewrite andb_true_r, andb_false_r.
        destruct t; simpl; [|by rewrite Z.bits_0].
        rewrite Z.mul_1_l. by rewrite Z.pow2_bits_false by lia.
    + rewrite Hhigh by lia. simpl.
      rewrite Z.pow2_bits_false by lia. rewrite andb_false_r.
      destruct t; simpl; [|by rewrite Z.bits_0].
      rewrite Z.mul_1_l. by rewrite Z.pow2_bits_false by lia.
  - apply Z.bits_inj'. intros j Hj. rewrite Z.land_spec, Z.bits_0.
    destruct (Z.ltb_spec j b).
    + destruct t; simpl; [|by rewrite Z.bits_0, andb_false_r].
      rewrite Z.mul_1_l, Z.pow2_bits_false by lia. apply andb_false_r.
    + by rewrite Hhigh by lia.
Qed.

Lemma readBitsU64_loop_spec n : ∀ b num r bs,
  Rrep r bs → 0 <= b → b + Z.of_nat (min n (length bs)) <= 64 → 0 <= num < 2 ^ b →
  ∃ r', BitStreamReader.readBitsU64_loop n b num r
        = Some (num + 2 ^ b * Z_of_bits (take n bs), r')
        ∧ Rrep r' (drop n bs)
        ∧ BitStreamReader.stream r' = BitStreamReader.stream r
        ∧ BitStreamReader.sizeInBits r' = BitStreamReader.sizeInBits r
        ∧ BitStreamReader.sizeInBytes r' = BitStreamReader.sizeInBytes r
        ∧ BitStreamReader.numBitsRead r'
          = BitStreamReader.numBitsRead r + Z.of_nat (min n (length bs)).
Proof.
  induction n as [|n IH]; intros b num r bs Hr Hb Hbn Hnum.
  - exists r. simpl.
    split_and!; [f_equal; f_equal; lia|done..|lia].
  - destruct bs as [|b0 bs].
    + exists r. simpl. rewrite (readNextBit_nil _ Hr). simpl.
      split_and!; [f_equal; f_equal; lia|done..|lia].
    + destruct (readNextBit_cons _ _ _ Hr) as (r1 & H1 & Hr1 & Hs1 & Hz1 & Hy1 & Hn1).
      simpl min in Hbn. simpl length in Hbn.
      cbn [BitStreamReader.readBitsU64_loop]. rewrite H1. simpl.
      rewrite shl64_1_ok by lia. simpl.
      rewrite readBits_num by lia.
      destruct (IH (b + 1) (num + Z.b2z b0 * 2 ^ b) r1 bs Hr1) as (r' & H' & Hr' & Hs' & Hz' & Hy' & Hn').
      * lia.
      * lia.
      * rewrite Z.pow_add_r, Z.pow_1_r by lia. destruct b0; simpl; lia.
      * exists r'. rewrite H'. split_and!; try congruence.
        -- f_equal. f_equal. simpl. rewrite Z.pow_add_r, Z.pow_1_r by lia. lia.
        -- rewrite Hn', Hn1. simpl length. lia.
Qed.

(** [readBitsU64] returns the value of the next [bitCount] bits, or of the
    bits that are left when they are fewer. *)
Lemma readBitsU64_spec r bs bitCount :
  Rrep r bs → Z.of_nat (min (Z.to_nat bitCount) (length bs)) <= 64 →
  ∃ r', BitStreamReader.readBitsU64 r bitCount
        = Some (Z_of_bits (take (Z.to_nat bitCount) bs), r')
        ∧ Rrep r' (drop (Z.to_nat bitCount) bs)
        ∧ BitStreamReader.stream r' = BitStreamReader.stream r
        ∧ BitStreamReader.sizeInBits r' = BitStreamReader.sizeInBits r
        ∧ BitStreamReader.sizeInBytes r' = BitStreamReader.sizeInBytes r
        ∧ BitStreamReader.numBitsRead r'
          = BitStreamReader.numBitsRead r
            + Z.of_nat (min (Z.to_nat bitCount) (length bs)).
Proof.
  intros Hr Hn.
  destruct (readBitsU64_loop_spec (Z.to_nat bitCount) 0 0 r bs Hr) as (r' & H & Hrest);
    [lia|lia|simpl; lia|].
  exists r'. split; [|done]. unfold BitStreamReader.readBitsU64. rewrite H.
  f_equal. f_equal. rewrite Z.pow_0_r. lia.
Qed.

(** * The dictionary *)

Lemma consts : FirstCode = 256 ∧ MaxDictEntries = 4096 ∧ Nil = -1
               ∧ StartBits = 9 ∧ MaxDictBits = 12.
Proof. done. Qed.

Lemma entry_Some d i e :
  Dictionary.entry d i = Some e ↔ at_ (Dictionary.entries d) i = Some (Some e).
Proof.
  unfold Dictionary.entry. destruct (at_ _ _) as [[?|]|]; simpl; split; congruence.
Qed.

Lemma new_wf : dict_wf Dictionary.new.
Proof.
  constructor.
  - done.
  - done.
  - intros i Hi. change FirstCode with 256 in Hi.
    apply entry_Some. rewrite at_lookup by lia.
    unfold Dictionary.new. cbn [Dictionary.entries].
    rewrite lookup_app_l by (rewrite length_fmap, length_seqZ; change FirstCode with 256; lia).
    rewrite list_lookup_fmap.
    rewrite (lookup_seqZ_lt) by (change FirstCode with 256; lia). simpl.
    do 3 f_equal. lia.
  - intros i Hi. simpl in Hi. lia.
Qed.

(** The walk of [outputSequence] collects the bytes of the entry, last
    byte first. *)
Lemma walk_entry_bytes d room : ∀ c sequence sequence',
  outputSequence_walk d room c sequence = Some sequence' →
  sequence' = sequence ++ rev (entry_bytes room d c).
Proof.
  induction room as [|room IH]; intros c sq sq' H; simpl in H; [done|].
  simpl. destruct (Dictionary.entry d c) as [e|]; simpl in H; [|done].
  rewrite rev_app_distr. simpl.
  destruct (Dictionary.code e >=? 0).
  - apply IH in H. rewrite H. by rewrite <- app_assoc.
  - injection H as <-. done.
Qed.

Lemma entry_bytes_length d fuel c : (length (entry_bytes fuel d c) <= fuel)%nat.
Proof.
  revert c. induction fuel as [|fuel IH]; intros c; simpl; [lia|].
  destruct (Dictionary.entry d c) as [e|]; simpl; [|lia].
  rewrite length_app. simpl.
  destruct (Dictionary.code e >=? 0); [specialize (IH (Dictionary.code e))|simpl]; lia.
Qed.

Lemma depth_bound_parent p c :
  0 <= p < c → FirstCode <= c → depth_bound p + 1 <= depth_bound c.
Proof.
  unfold depth_bound. change FirstCode with 256. intros.
  destruct (Z.ltb_spec p 256), (Z.ltb_spec c 256); lia.
Qed.

Lemma wf_entry_cases d c :
  dict_wf d → 0 <= c < Dictionary.size d →
  (c < FirstCode ∧ Dictionary.entry d c = Some (Dictionary.mkEntry Nil c))
  ∨ (FirstCode <= c ∧ ∃ p v, Dictionary.entry d c = Some (Dictionary.mkEntry p v)
                            ∧ 0 <= p < c ∧ 0 <= v < 256).
Proof.
  intros Hwf Hc. destruct (Z.lt_ge_cases c FirstCode).
  - left. split; [done|]. apply (dw_root _ Hwf). lia.
  - right. split; [done|]. apply (dw_node _ Hwf). lia.
Qed.

(** With enough fuel the bytes of an entry do not depend on the fuel, and
    they are the bytes of the parent followed by the value. *)
Lemma entry_bytes_fuel d : dict_wf d → ∀ n c fuel,
  0 <= c < Dictionary.size d → c <= Z.of_nat n → depth_bound c <= Z.of_nat fuel →
  entry_bytes fuel d c = entry_bytes (Z.to_nat (depth_bound c)) d c
  ∧ Z.of_nat (length (entry_bytes fuel d c)) <= depth_bound c
  ∧ entry_bytes fuel d c ≠ [].
Proof.
  intros Hwf. induction n as [|n IH]; intros c fuel Hc Hn Hfuel.
  - assert (c = 0) as -> by lia.
    destruct (wf_entry_cases d 0 Hwf Hc) as [[_ He]|[? _]]; [|change FirstCode with 256 in *; lia].
    change (Z.to_nat (depth_bound 0)) with 1%nat.
    destruct fuel as [|fuel]; [simpl in Hfuel; unfold depth_bound in Hfuel; simpl in Hfuel; lia|].
    simpl. rewrite He. simpl. done.
  - destruct (wf_entry_cases d c Hwf Hc) as [[Hlt He]|[Hge (p & v & He & Hp & Hv)]].
    + assert (depth_bound c = 1) as Hd.
      { unfold depth_bound. destruct (Z.ltb_spec c FirstCode); lia. }
      rewrite Hd in *. change (Z.to_nat 1) with 1%nat.
      destruct fuel as [|fuel]; [lia|].
      simpl. rewrite He. simpl. done.
    + pose proof (depth_bound_parent p c Hp Hge) as Hdp.
      assert (0 <= depth_bound p).
      { unfold depth_bound. change FirstCode with 256 in *.
        destruct (Z.ltb_spec p 256); lia. }
      destruct fuel as [|fuel]; [lia|].
      destruct (Z.to_nat (depth_bound c)) as [|fc] eqn:Hfc; [lia|].
      simpl. rewrite He. simpl.
      destruct (Z.geb_spec p 0); [|lia].
      assert (0 <= p < Dictionary.size d) as Hps by lia.
      destruct (IH p fuel Hps ltac:(lia) ltac:(lia)) as (E1 & L1 & N1).
      destruct (IH p fc Hps ltac:(lia) ltac:(lia)) as (E2 & L2 & N2).
      split_and!.
      * by rewrite E1, E2.
      * rewrite length_app. simpl. lia.
      * intros Hnil. by apply app_eq_nil in Hnil as [_ ?].
Qed.

Lemma depth_bound_max c : 0 <= c < MaxDictEntries → 1 <= depth_bound c <= MaxDictEntries.
Proof.
  unfold depth_bound. change FirstCode with 256. change MaxDictEntries with 4096.
  destruct (Z.ltb_spec c 256); lia.
Qed.

Lemma entry_bytes_S fuel d c :
  entry_bytes (S fuel) d c
  = match Dictionary.entry d c with
    | None => []
    | Some e =>
        (if Dictionary.code e >=? 0 then entry_bytes fuel d (Dictionary.code e) else [])
          ++ [u8 (Dictionary.value e)]
    end.
Proof. done. Qed.

Lemma fuel_S : Z.to_nat MaxDictEntries = S (Z.to_nat (MaxDictEntries - 1)).
Proof. change MaxDictEntries with 4096. lia. Qed.

Lemma str_root d c : dict_wf d → 0 <= c < FirstCode → str d c = [c].
Proof.
  intros Hwf Hc. unfold str. rewrite fuel_S, entry_bytes_S.
  rewrite (dw_root _ Hwf) by done. cbn [Dictionary.code Dictionary.value].
  change (Nil >=? 0) with false. cbn [app].
  rewrite u8_small; [done|]. change FirstCode with 256 in Hc. lia.
Qed.

Lemma str_node d c p v :
  dict_wf d → FirstCode <= c < Dictionary.size d →
  Dictionary.entry d c = Some (Dictionary.mkEntry p v) →
  0 <= p < c → 0 <= v < 256 →
  str d c = str d p ++ [v].
Proof.
  intros Hwf Hc He Hp Hv. unfold str.
  rewrite fuel_S at 1. rewrite entry_bytes_S, He.
  cbn [Dictionary.code Dictionary.value].
  destruct (Z.geb_spec p 0); [|lia].
  rewrite u8_small by done.
  pose proof (dw_size _ Hwf).
  assert (0 <= p < Dictionary.size d) as Hps by lia.
  pose proof (depth_bound_max p ltac:(lia)).
  pose proof (depth_bound_parent p c Hp ltac:(lia)).
  pose proof (depth_bound_max c ltac:(lia)).
  destruct (entry_bytes_fuel d Hwf (Z.to_nat p) p (Z.to_nat (MaxDictEntries - 1)) Hps
              ltac:(lia) ltac:(lia)) as (E1 & _).
  destruct (entry_bytes_fuel d Hwf (Z.to_nat p) p (Z.to_nat MaxDictEntries) Hps
              ltac:(lia) ltac:(lia)) as (E2 & _).
  by rewrite E1, E2.
Qed.

Lemma str_nonempty d c : dict_wf d → 0 <= c < Dictionary.size d → str d c ≠ [].
Proof.
  intros Hwf Hc. pose proof (dw_size _ Hwf).
  pose proof (depth_bound_max c ltac:(lia)).
  by destruct (entry_bytes_fuel d Hwf (Z.to_nat c) c (Z.to_nat MaxDictEntries) Hc
                 ltac:(lia) ltac:(lia)) as (_ & _ & ?).
Qed.

Lemma str_bytes d c : Forall is_byte (str d c).
Proof.
  unfold str. generalize (Z.to_nat MaxDictEntries). intros fuel. revert c.
  induction fuel as [|fuel IH]; intros c; simpl; [done|].
  destruct (Dictionary.entry d c) as [e|]; [|done].
  apply Forall_app. split.
  - destruct (_ >=? _); [apply IH|done].
  - apply Forall_singleton. apply u8_range.
Qed.

Lemma entry_bytes_agree d1 d2 m :
  dict_wf d1 → m <= Dictionary.size d1 →
  (∀ i, 0 <= i < m → Dictionary.entry d1 i = Dictionary.entry d2 i) →
  ∀ fuel c, 0 <= c < m → entry_bytes fuel d1 c = entry_bytes fuel d2 c.
Proof.
  intros Hwf Hm Hag. induction fuel as [|fuel IH]; intros c Hc; [done|].
  rewrite !entry_bytes_S, <- Hag by done.
  destruct (wf_entry_cases d1 c Hwf ltac:(lia)) as [[_ He]|[_ (p & v & He & Hp & Hv)]];
    rewrite He; cbn [Dictionary.code Dictionary.value].
  - done.
  - destruct (Z.geb_spec p 0); [|done]. rewrite IH by lia. done.
Qed.

Lemma str_agree d1 d2 m c :
  dict_wf d1 → m <= Dictionary.size d1 →
  (∀ i, 0 <= i < m → Dictionary.entry d1 i = Dictionary.entry d2 i) →
  0 <= c < m → str d1 c = str d2 c.
Proof. intros. unfold str. by eapply entry_bytes_agree. Qed.

(** ** [add] and [flush] *)

Lemma entry_upd_eq d i e :
  0 <= i < Z.of_nat (length (Dictionary.entries d)) →
  Dictionary.entry (Dictionary.mk (Dictionary.size d + 1)
                      (upd (Dictionary.entries d) i (Some e))) i = Some e.
Proof. intros. unfold Dictionary.entry. cbn [Dictionary.entries]. by rewrite at_upd_eq. Qed.

Lemma entry_upd_ne d sz i j e :
  0 <= i → i ≠ j →
  Dictionary.entry (Dictionary.mk sz (upd (Dictionary.entries d) i e)) j
  = Dictionary.entry d j.
Proof.
  intros. unfold Dictionary.entry. cbn [Dictionary.entries].
  destruct (Z.lt_ge_cases j 0); [by rewrite !at_neg|].
  by rewrite at_upd_ne.
Qed.

Lemma add_spec d p v :
  dict_wf d → Dictionary.size d < MaxDictEntries →
  0 <= p < Dictionary.size d → 0 <= v < 256 →
  let d' := (Dictionary.add d p v).2 in
  dict_wf d'
  ∧ Dictionary.size d' = Dictionary.size d + 1
  ∧ Dictionary.entry d' (Dictionary.size d) = Some (Dictionary.mkEntry p v)
  ∧ (∀ i, i ≠ Dictionary.size d → Dictionary.entry d' i = Dictionary.entry d i).
Proof.
  intros Hwf Hsz Hp Hv d'. subst d'. unfold Dictionary.add.
  destruct (Z.eqb_spec (Dictionary.size d) MaxDictEntries); [lia|].
  cbn [snd]. set (d' := Dictionary.mk _ _).
  pose proof (dw_size _ Hwf) as Hs. pose proof (dw_len _ Hwf) as Hl.
  change FirstCode with 256 in *. change MaxDictEntries with 4096 in *.
  assert (He : Dictionary.entry d' (Dictionary.size d) = Some (Dictionary.mkEntry p v)).
  { apply entry_upd_eq. lia. }
  assert (Hne : ∀ i, i ≠ Dictionary.size d → Dictionary.entry d' i = Dictionary.entry d i).
  { intros i Hi. apply entry_upd_ne; lia. }
  split_and!; [|done..].
  constructor.
  - unfold d', upd. cbn [Dictionary.entries]. rewrite length_insert. done.
  - unfold d'. cbn [Dictionary.size]. change FirstCode with 256.
    change MaxDictEntries with 4096. lia.
  - intros i Hi. change FirstCode with 256 in Hi. rewrite Hne by lia.
    apply (dw_root _ Hwf). change FirstCode with 256. lia.
  - intros i Hi. unfold d' in Hi. cbn [Dictionary.size] in Hi.
    change FirstCode with 256 in Hi.
    destruct (Z.eq_dec i (Dictionary.size d)) as [->|Hi'].
    + exists p, v. split_and!; [done|lia..].
    + rewrite Hne by done. apply (dw_node _ Hwf). change FirstCode with 256. lia.
Qed.

Lemma pow2_width w : 9 <= w <= 12 → Z.shiftl 1 w = 2 ^ w ∧ 512 <= 2 ^ w <= 4096.
Proof.
  intros. rewrite Z.shiftl_1_l. split; [done|].
  assert (w = 9 ∨ w = 10 ∨ w = 11 ∨ w = 12) as [->|[->|[->| ->]]] by lia; simpl; lia.
Qed.

(** [flush] on a well-formed dictionary whose size is at most [2 ^ w]. *)
Lemma flush_spec d w :
  dict_wf d → 9 <= w <= 12 → Dictionary.size d <= 2 ^ w →
  let '(reset, d', w') := Dictionary.flush d w in
  dict_wf d' ∧ 9 <= w' <= 12
  ∧ (∀ i, Dictionary.entry d' i = Dictionary.entry d i)
  ∧ (if reset then Dictionary.size d = MaxDictEntries
                   ∧ Dictionary.size d' = FirstCode ∧ w' = StartBits
     else Dictionary.size d' = Dictionary.size d
          ∧ Dictionary.size d < 2 ^ w' ∧ Dictionary.size d < MaxDictEntries).
Proof.
  intros Hwf Hw Hsz. unfold Dictionary.flush.
  destruct (pow2_width w Hw) as [-> Hpw].
  pose proof (dw_size _ Hwf) as Hs.
  change FirstCode with 256 in *. change MaxDictEntries with 4096 in *.
  change MaxDictBits with 12. change StartBits with 9.
  destruct (Z.eqb_spec (Dictionary.size d) (2 ^ w)) as [Heq|Hne].
  - destruct (Z.gtb_spec (w + 1) 12) as [Hgt|Hle].
    + assert (w = 12) as -> by lia. change (2 ^ 12) with 4096 in *.
      refine (conj _ (conj _ (conj _ _))); [|lia|done|done].
      constructor; cbn [Dictionary.size Dictionary.entries].
      * apply (dw_len _ Hwf).
      * change FirstCode with 256. change MaxDictEntries with 4096. lia.
      * apply (dw_root _ Hwf).
      * change FirstCode with 256. lia.
    + refine (conj _ (conj _ (conj _ _))); [done|lia|done|].
      split; [done|]. rewrite Z.pow_add_r, Z.pow_1_r by lia.
      assert (2 ^ w <= 2 ^ 11) by (apply Z.pow_le_mono_r; lia).
      change (2 ^ 11) with 2048 in *. lia.
  - refine (conj _ (conj _ (conj _ _))); [done|lia|done|]. split; [done|]. lia.
Qed.

(** ** [findIndex] *)

Lemma findIndex_loop_spec d code value : dict_wf d → ∀ n i,
  0 <= i → i + Z.of_nat n <= Dictionary.size d →
  ∃ r, Dictionary.findIndex_loop d code value n i = Some r
       ∧ (r = Nil ∨ (i <= r < i + Z.of_nat n
                    ∧ Dictionary.entry d r = Some (Dictionary.mkEntry code value))).
Proof.
  intros Hwf. induction n as [|n IH]; intros i Hi Hn; simpl.
  - eexists. split; [done|]. by left.
  - assert (∃ e, Dictionary.entry d i = Some e) as [e He].
    { destruct (wf_entry_cases d i Hwf ltac:(lia)) as [[_ He]|[_ (p & v & He & _)]];
        eauto. }
    rewrite He. simpl.
    destruct (_ && _) eqn:E.
    + apply andb_true_iff in E as [E1%Z.eqb_eq E2%Z.eqb_eq].
      eexists. split; [done|]. right. split; [lia|].
      rewrite He. destruct e. simpl in *. by subst.
    + destruct (IH (i + 1)) as (r & Hr & Hcase); [lia|lia|].
      exists r. split; [done|]. destruct Hcase as [?|[? ?]]; [by left|].
      right. split; [lia|done].
Qed.

(** [findIndex] on a well-formed dictionary returns [value] for the empty
    prefix, and otherwise [Nil] or a dynamic entry that holds the pair. *)
Lemma findIndex_spec d code value :
  dict_wf d → 0 <= value < 256 → Nil <= code →
  ∃ r, Dictionary.findIndex d code value = Some r
       ∧ (if code =? Nil then r = value
          else r = Nil
               ∨ (FirstCode <= r < Dictionary.size d
                  ∧ Dictionary.entry d r = Some (Dictionary.mkEntry code value))).
Proof.
  intros Hwf Hv Hc. unfold Dictionary.findIndex.
  destruct (Z.eqb_spec code Nil) as [->|Hne].
  - eexists. done.
  - pose proof (dw_size _ Hwf) as Hs. change FirstCode with 256 in *.
    destruct (findIndex_loop_spec d code value Hwf (Z.to_nat (Dictionary.size d)) 0)
      as (r & Hr & Hcase); [lia|lia|].
    exists r. split; [done|].
    destruct Hcase as [?|[Hrange He]]; [by left|]. right. split; [|done].
    destruct (Z.lt_ge_cases r 256) as [Hlt|]; [|lia].
    rewrite (dw_root _ Hwf) in He by (change FirstCode with 256; lia).
    injection He as Hnil _. change Nil with (-1) in *. lia.
Qed.

(** * [outputSequence] *)

Lemma last_rev {A} (l : list A) : list.last (rev l) = head l.
Proof. rewrite rev_alt. apply last_reverse. Qed.

Lemma emit_loop_spec sequence cap : ∀ m out n,
  (m <= length sequence)%nat →
  outputSequence_emit sequence m out cap n
  = Some (emit_list (rev (take m sequence)) out cap n).
Proof.
  induction m as [|m IH]; intros out n Hm.
  - done.
  - cbn [outputSequence_emit].
    destruct (sequence !! m) as [x|] eqn:Hx.
    2:{ apply lookup_ge_None in Hx. lia. }
    rewrite (take_S_r _ _ _ Hx), rev_app_distr. simpl.
    unfold outputByte. destruct (n >=? cap); [done|].
    apply IH. lia.
Qed.

Lemma emit_list_full xs : ∀ out cap n,
  n + Z.of_nat (length xs) <= cap →
  emit_list xs out cap n = (true, out ++ (u8 <$> xs), n + Z.of_nat (length xs)).
Proof.
  induction xs as [|x xs IH]; intros out cap n Hn; simpl.
  - rewrite app_nil_r. f_equal. lia.
  - simpl length in Hn. destruct (Z.geb_spec n cap); [lia|].
    rewrite IH by lia. rewrite <- app_assoc. simpl. f_equal. lia.
Qed.

Lemma fmap_u8_bytes xs : Forall is_byte xs → u8 <$> xs = xs.
Proof.
  induction 1 as [|x xs Hx _ IH]; [done|]. rewrite fmap_cons, IH.
  by rewrite u8_small.
Qed.

(** What [emit_list] writes: the first [k] bytes, where [k] is what the
    capacity leaves room for. *)
Lemma emit_list_spec xs : ∀ out cap n,
  let k := Z.to_nat (Z.min (Z.of_nat (length xs)) (Z.max 0 (cap - n))) in
  emit_list xs out cap n
  = (bool_decide (k = length xs), out ++ (u8 <$> take k xs), n + Z.of_nat k).
Proof.
  induction xs as [|x xs IH]; intros out cap n k.
  - assert (k = 0%nat) as -> by (subst k; simpl; lia).
    simpl. rewrite app_nil_r. f_equal. lia.
  - simpl emit_list. destruct (Z.geb_spec n cap) as [Hge|Hlt].
    + assert (k = 0%nat) as -> by (subst k; lia).
      simpl. rewrite app_nil_r. f_equal. lia.
    + rewrite IH. subst k. simpl length.
      set (k' := Z.to_nat (Z.min (Z.of_nat (length xs)) (Z.max 0 (cap - (n + 1))))).
      replace (Z.to_nat (Z.min (Z.of_nat (S (length xs))) (Z.max 0 (cap - n))))
        with (S k') by (subst k'; lia).
      simpl. rewrite <- app_assoc. simpl. f_equal; [f_equal|lia].
      apply bool_decide_ext. lia.
Qed.

Lemma walk_defined d : dict_wf d → ∀ n c room sequence,
  0 <= c < Dictionary.size d → c <= Z.of_nat n → depth_bound c <= Z.of_nat room →
  is_Some (outputSequence_walk d room c sequence).
Proof.
  intros Hwf. induction n as [|n IH]; intros c room sq Hc Hn Hroom.
  - assert (c = 0) as -> by lia.
    destruct room as [|room]; [unfold depth_bound in Hroom; simpl in Hroom; lia|].
    simpl. rewrite (dw_root _ Hwf) by done. simpl. done.
  - destruct (wf_entry_cases d c Hwf Hc) as [[Hlt He]|[Hge (p & v & He & Hp & Hv)]].
    + destruct room as [|room].
      { unfold depth_bound in Hroom. destruct (Z.ltb_spec c FirstCode); lia. }
      simpl. rewrite He. simpl. done.
    + pose proof (depth_bound_parent p c Hp Hge) as Hdp.
      destruct room as [|room].
      { unfold depth_bound in Hroom. change FirstCode with 256 in *.
        destruct (Z.ltb_spec c 256); lia. }
      simpl. rewrite He. simpl. destruct (Z.geb_spec p 0); [|lia].
      apply IH; lia.
Qed.

(** Whenever [outputSequence] is defined it writes the bytes of the entry,
    first byte first, as far as the capacity allows, and returns the first
    byte. *)
Lemma outputSequence_Some d c out cap n r :
  outputSequence d c out cap n = Some r →
  ∃ fb, head (str d c) = Some fb
        ∧ r = (let '(b, o, m) := emit_list (str d c) out cap n in (b, o, m, fb)).
Proof.
  unfold outputSequence. intros H.
  destruct (outputSequence_walk _ _ _ _) as [sq|] eqn:Hw;
    cbn [mbind option_bind] in H; [|done].
  apply walk_entry_bytes in Hw. rewrite app_nil_l in Hw. fold (str d c) in Hw.
  destruct (list.last sq) as [fb|] eqn:Hl; cbn [mbind option_bind] in H; [|done].
  rewrite emit_loop_spec in H by done. cbn [mbind option_bind] in H.
  rewrite firstn_all in H. rewrite Hw, rev_involutive in H.
  exists fb. split.
  - rewrite Hw in Hl. by rewrite last_rev in Hl.
  - destruct (emit_list _ _ _ _) as [[b o] m]. by injection H as <-.
Qed.

Lemma outputSequence_wf d c out cap n :
  dict_wf d → 0 <= c < Dictionary.size d →
  ∃ fb, head (str d c) = Some fb
        ∧ outputSequence d c out cap n
          = Some (let '(b, o, m) := emit_list (str d c) out cap n in (b, o, m, fb)).
Proof.
  intros Hwf Hc.
  assert (is_Some (outputSequence d c out cap n)) as [r Hr].
  { unfold outputSequence.
    pose proof (dw_size _ Hwf) as Hs.
    pose proof (depth_bound_max c ltac:(lia)).
    destruct (walk_defined d Hwf (Z.to_nat c) c (Z.to_nat MaxDictEntries) [] Hc
                ltac:(lia) ltac:(lia)) as [sq Hsq].
    rewrite Hsq. cbn [mbind option_bind].
    pose proof (walk_entry_bytes _ _ _ _ _ Hsq) as Hw.
    rewrite app_nil_l in Hw. fold (str d c) in Hw.
    assert (sq ≠ []) as Hne.
    { rewrite Hw. intros E. apply (f_equal (@rev Z)) in E.
      rewrite rev_involutive in E. by apply (str_nonempty d c Hwf Hc). }
    destruct (list.last sq) as [fb|] eqn:Hl; [|by apply last_None in Hl].
    cbn [mbind option_bind]. rewrite emit_loop_spec by done.
    cbn [mbind option_bind]. by destruct (emit_list _ _ _ _) as [[b o] m]. }
  destruct (outputSequence_Some _ _ _ _ _ _ Hr) as (fb & Hfb & ->).
  by exists fb.
Qed.

(** * The encoder *)

Lemma trace_bits_app tr1 tr2 : trace_bits (tr1 ++ tr2) = trace_bits tr1 ++ trace_bits tr2.
Proof. unfold trace_bits. by rewrite fmap_app, concat_app. Qed.

Lemma trace_bits_cons x tr : trace_bits (x :: tr) = code_bits x.1.1 x.2 ++ trace_bits tr.
Proof. done. Qed.

Lemma trajectory_app tr1 tr2 : trajectory (tr1 ++ tr2) = trajectory tr1 ++ trajectory tr2.
Proof. unfold trajectory. by rewrite fmap_app. Qed.

Lemma length_code_bits c w : length (code_bits c w) = Z.to_nat w.
Proof. apply length_bits_from. Qed.

(** What one trip of the encoder does: it extends the match, or it writes
    the code of the match and starts a new one. *)
Lemma encode_body_cases s value s' :
  LzwEncode.body s value = Some s' →
  (∃ index, Dictionary.findIndex (LzwEncode.dictionary s) (LzwEncode.code s) value
            = Some index
            ∧ index ≠ Nil
            ∧ s' = LzwEncode.mk index (LzwEncode.codeBitsWidth s) (LzwEncode.dictionary s)
                     (LzwEncode.bitStream s) (LzwEncode.trace s))
  ∨ (Dictionary.findIndex (LzwEncode.dictionary s) (LzwEncode.code s) value = Some Nil
     ∧ ∃ bitStream,
         BitStreamWriter.appendBitsU64 (LzwEncode.bitStream s) (LzwEncode.code s)
           (LzwEncode.codeBitsWidth s) = Some bitStream
         ∧ let r := Dictionary.flush (LzwEncode.dictionary s) (LzwEncode.codeBitsWidth s) in
           s' = LzwEncode.mk value r.2
                  (if negb r.1.1 then (Dictionary.add r.1.2 (LzwEncode.code s) value).2
                   else r.1.2)
                  bitStream
                  (LzwEncode.trace s
                     ++ [(LzwEncode.code s, Dictionary.size (LzwEncode.dictionary s),
                          LzwEncode.codeBitsWidth s)])).
Proof.
  unfold LzwEncode.body. intros H.
  destruct (Dictionary.findIndex _ _ _) as [index|]; cbn [mbind option_bind] in H; [|done].
  destruct (Z.eqb_spec index Nil) as [E|Hne]; cbn [negb] in H.
  - right. split; [by rewrite E|].
    destruct (BitStreamWriter.appendBitsU64 _ _ _) as [bs|];
      cbn [mbind option_bind] in H; [|done].
    exists bs. split; [done|].
    destruct (Dictionary.flush _ _) as [[reset dict] w]. cbn [fst snd].
    by injection H as <-.
  - left. exists index. split; [done|]. split; [done|]. by injection H as <-.
Qed.

Lemma encode_body_trace s value s' :
  LzwEncode.body s value = Some s' →
  ∃ new, LzwEncode.trace s' = LzwEncode.trace s ++ new.
Proof.
  intros H. apply encode_body_cases in H as [(index & _ & _ & ->)|(_ & bs & _ & ->)].
  - exists []. by rewrite app_nil_r.
  - by eexists.
Qed.

Lemma encode_loop_trace rest : ∀ n s s',
  LzwEncode.loop rest n s = Some s' →
  ∃ new, LzwEncode.trace s' = LzwEncode.trace s ++ new.
Proof.
  induction rest as [|v rest IH]; intros [|n] s s' H; simpl in H; try done.
  - injection H as <-. exists []. by rewrite app_nil_r.
  - injection H as <-. exists []. by rewrite app_nil_r.
  - destruct (LzwEncode.body s v) as [s1|] eqn:H1; cbn [mbind option_bind] in H; [|done].
    apply encode_body_trace in H1 as [n1 E1]. apply IH in H as [n2 E2].
    exists (n1 ++ n2). by rewrite E2, E1, app_assoc.
Qed.

Lemma encode_finish_cases s sf :
  LzwEncode.finish s = Some sf →
  (LzwEncode.code s = Nil ∧ sf = s)
  ∨ (LzwEncode.code s ≠ Nil
     ∧ ∃ bitStream,
         BitStreamWriter.appendBitsU64 (LzwEncode.bitStream s) (LzwEncode.code s)
           (LzwEncode.codeBitsWidth s) = Some bitStream
         ∧ sf = LzwEncode.mk (LzwEncode.code s) (LzwEncode.codeBitsWidth s)
                  (LzwEncode.dictionary s) bitStream
                  (LzwEncode.trace s
                     ++ [(LzwEncode.code s, Dictionary.size (LzwEncode.dictionary s),
                          LzwEncode.codeBitsWidth s)])).
Proof.
  unfold LzwEncode.finish. intros H.
  destruct (Z.eqb_spec (LzwEncode.code s) Nil) as [E|E]; cbn [negb] in H.
  - left. split; [done|]. by injection H as <-.
  - right. split; [done|].
    destruct (BitStreamWriter.appendBitsU64 _ _ _) as [bs|];
      cbn [mbind option_bind] in H; [|done].
    exists bs. split; [done|]. by injection H as <-.
Qed.

(** The writer of the encoder holds the bits of the codes of the trace. *)
Lemma encode_body_Wrep s value s' :
  Wrep (LzwEncode.bitStream s) (trace_bits (LzwEncode.trace s)) →
  LzwEncode.body s value = Some s' →
  Wrep (LzwEncode.bitStream s') (trace_bits (LzwEncode.trace s')).
Proof.
  intros Hw H. apply encode_body_cases in H as [(index & _ & _ & ->)|(_ & bs & Hbs & ->)].
  - done.
  - cbn [LzwEncode.bitStream LzwEncode.trace].
    rewrite trace_bits_app. unfold trace_bits at 2. simpl. rewrite app_nil_r.
    by eapply appendBitsU64_Wrep.
Qed.

Lemma encode_loop_Wrep rest : ∀ n s s',
  Wrep (LzwEncode.bitStream s) (trace_bits (LzwEncode.trace s)) →
  LzwEncode.loop rest n s = Some s' →
  Wrep (LzwEncode.bitStream s') (trace_bits (LzwEncode.trace s')).
Proof.
  induction rest as [|v rest IH]; intros [|n] s s' Hw H; simpl in H; try done.
  - by injection H as <-.
  - by injection H as <-.
  - destruct (LzwEncode.body s v) as [s1|] eqn:H1; cbn [mbind option_bind] in H; [|done].
    eapply IH; [|done]. by eapply encode_body_Wrep.
Qed.

Lemma encode_finish_Wrep s sf :
  Wrep (LzwEncode.bitStream s) (trace_bits (LzwEncode.trace s)) →
  LzwEncode.finish s = Some sf →
  Wrep (LzwEncode.bitStream sf) (trace_bits (LzwEncode.trace sf)).
Proof.
  intros Hw H. apply encode_finish_cases in H as [[_ ->]|(_ & bs & Hbs & ->)]; [done|].
  cbn [LzwEncode.bitStream LzwEncode.trace].
  rewrite trace_bits_app. unfold trace_bits at 2. simpl. rewrite app_nil_r.
  by eapply appendBitsU64_Wrep.
Qed.

(** Reading back a code of width [w]. *)
Lemma read_code r c w bs :
  Rrep r (code_bits c w ++ bs) → 9 <= w <= 12 → 0 <= c < 2 ^ w →
  ∃ r', BitStreamReader.readBitsU64 r w = Some (c, r') ∧ Rrep r' bs
        ∧ BitStreamReader.isEndOfStream r = false.
Proof.
  intros Hr Hw Hc.
  destruct (readBitsU64_spec r _ w Hr) as (r' & H & Hr' & _); [lia|].
  assert (Hlen : length (code_bits c w) = Z.to_nat w) by apply length_code_bits.
  rewrite take_app_length' in H by done.
  rewrite drop_app_length' in Hr' by done.
  exists r'. split_and!; [|done|].
  - rewrite H. do 2 f_equal. unfold code_bits. rewrite Z_of_bits_from_0.
    rewrite Z2Nat.id by lia.
    assert (2 ^ w <= 2 ^ 12) by (apply Z.pow_le_mono_r; lia).
    rewrite u64_small by (change (2 ^ 12) with 4096 in *; lia).
    apply Z.mod_small. lia.
  - destruct (code_bits c w) as [|b0 cb] eqn:E; [simpl in Hlen; lia|].
    by eapply Rrep_cons_not_end.
Qed.

(** * The decoder *)

Lemma flush_congr d1 d2 w :
  Dictionary.size d1 = Dictionary.size d2 →
  (Dictionary.flush d1 w).1.1 = (Dictionary.flush d2 w).1.1
  ∧ (Dictionary.flush d1 w).2 = (Dictionary.flush d2 w).2
  ∧ Dictionary.size (Dictionary.flush d1 w).1.2 = Dictionary.size (Dictionary.flush d2 w).1.2.
Proof.
  intros E. unfold Dictionary.flush. rewrite E.
  destruct (_ =? _); [|done]. by destruct (_ >? _).
Qed.

Lemma flush_entries d w i :
  Dictionary.entry (Dictionary.flush d w).1.2 i = Dictionary.entry d i.
Proof.
  unfold Dictionary.flush. destruct (_ =? _); [|done]. by destruct (_ >? _).
Qed.

Lemma flush_facts d w :
  dict_wf d → 9 <= w <= 12 → Dictionary.size d <= 2 ^ w →
  let r := Dictionary.flush d w in
  dict_wf r.1.2 ∧ 9 <= r.2 <= 12
  ∧ (if r.1.1 then Dictionary.size d = MaxDictEntries
                   ∧ Dictionary.size r.1.2 = FirstCode ∧ r.2 = StartBits
     else Dictionary.size r.1.2 = Dictionary.size d
          ∧ Dictionary.size d < 2 ^ r.2 ∧ Dictionary.size d < MaxDictEntries).
Proof.
  intros Hwf Hw Hs. pose proof (flush_spec d w Hwf Hw Hs) as H.
  destruct (Dictionary.flush d w) as [[reset d'] w']. simpl. tauto.
Qed.

Lemma head_app_nonempty {A} (l1 l2 : list A) : l1 ≠ [] → head (l1 ++ l2) = head l1.
Proof. by destruct l1. Qed.

(** In the one-behind state the if / else-if of the decoder writes the
    bytes of the code that the encoder wrote, and finds the first byte of
    the entry that it lacks. *)
Lemma expand_lag De Dd c prev fb out cap n :
  dict_wf De → dict_wf Dd →
  (∀ i, 0 <= i < Dictionary.size Dd → Dictionary.entry De i = Dictionary.entry Dd i) →
  0 <= prev < Dictionary.size Dd →
  Dictionary.size De = Dictionary.size Dd + 1 →
  0 <= c < Dictionary.size De →
  Dictionary.entry De (Dictionary.size Dd) = Some (Dictionary.mkEntry prev fb) →
  head (str De c) = Some fb →
  n + Z.of_nat (length (str De c)) <= cap →
  LzwDecode.expand Dd c prev out cap n
  = Some (true, out ++ str De c, n + Z.of_nat (length (str De c)), fb)
  ∧ 0 <= fb < 256.
Proof.
  intros HwE HwD Hag Hprev Hsz Hc He Hhd Hcap.
  pose proof (dw_size _ HwD) as HsD.
  assert (Hfb : 0 <= fb < 256).
  { destruct (dw_node _ HwE (Dictionary.size Dd) ltac:(lia)) as (p & v & E & _ & Hv).
    rewrite He in E. by injection E as _ ->. }
  split; [|done].
  assert (Hagree : ∀ x, 0 <= x < Dictionary.size Dd → str Dd x = str De x).
  { intros x Hx. eapply (str_agree Dd De (Dictionary.size Dd)); [done|lia| |done].
    intros i Hi. symmetry. by apply Hag. }
  unfold LzwDecode.expand.
  destruct (Z.geb_spec c (Dictionary.size Dd)) as [Hge|Hlt].
  - assert (c = Dictionary.size Dd) as -> by lia.
    assert (Hstr : str De (Dictionary.size Dd) = str De prev ++ [fb]).
    { apply str_node; [done|lia|done|lia|done]. }
    rewrite Hstr in *.
    assert (Hne : str De prev ≠ []) by (apply str_nonempty; [done|lia]).
    rewrite head_app_nonempty in Hhd by done.
    destruct (outputSequence_wf Dd prev out cap n HwD Hprev) as (fb' & Hfb' & ->).
    rewrite Hagree in * by done.
    assert (fb' = fb) as -> by congruence.
    rewrite length_app in Hcap. simpl in Hcap.
    rewrite emit_list_full by lia.
    cbn [mbind option_bind]. unfold outputByte.
    destruct (Z.geb_spec (n + Z.of_nat (length (str De prev))) cap); [lia|].
    rewrite fmap_u8_bytes by apply str_bytes.
    rewrite u8_small by done. rewrite <- app_assoc.
    do 3 f_equal. rewrite length_app. simpl. lia.
  - destruct (outputSequence_wf Dd c out cap n HwD ltac:(lia)) as (fb' & Hfb' & ->).
    rewrite Hagree in * by lia.
    assert (fb' = fb) as -> by congruence.
    rewrite emit_list_full by lia.
    rewrite fmap_u8_bytes by apply str_bytes. done.
Qed.

(** One trip of the decoder on the code that the encoder wrote from the
    state [s]: the decoder writes the pending match, and its dictionary and
    code width become those of the encoder after its call of [flush]. *)
Lemma dec_step S rest N s d bs :
  Rel S rest N s d → LzwEncode.code s ≠ Nil →
  Rrep (LzwDecode.bitStream d)
       (code_bits (LzwEncode.code s) (LzwEncode.codeBitsWidth s) ++ bs) →
  let r := Dictionary.flush (LzwEncode.dictionary s) (LzwEncode.codeBitsWidth s) in
  ∃ d1,
    BitStreamReader.isEndOfStream (LzwDecode.bitStream d) = false
    ∧ LzwDecode.body N d = Some (true, d1)
    ∧ Rrep (LzwDecode.bitStream d1) bs
    ∧ LzwDecode.uncompressed d1 = LzwDecode.uncompressed d ++ pending s
    ∧ LzwDecode.bytesDecoded d1 = Z.of_nat (length (LzwDecode.uncompressed d1))
    ∧ LzwDecode.trace d1
      = LzwDecode.trace d
        ++ [(Dictionary.size (LzwEncode.dictionary s), LzwEncode.codeBitsWidth s)]
    ∧ LzwDecode.codeBitsWidth d1 = r.2
    ∧ dict_wf (LzwDecode.dictionary d1)
    ∧ Dictionary.size (LzwDecode.dictionary d1) = Dictionary.size r.1.2
    ∧ (∀ i, 0 <= i < Dictionary.size r.1.2 →
         Dictionary.entry (LzwEncode.dictionary s) i
         = Dictionary.entry (LzwDecode.dictionary d1) i)
    ∧ LzwDecode.prevCode d1 = (if r.1.1 then Nil else LzwEncode.code s).
Proof.
  intros [HwE HwD Hw Hwr Hsz Hag Hout Hn Hcap Htr Hmode] Hc Hr r.
  set (De := LzwEncode.dictionary s) in *. set (Dd := LzwDecode.dictionary d) in *.
  set (c := LzwEncode.code s) in *. set (w := LzwEncode.codeBitsWidth s) in *.
  pose proof (dw_size _ HwE) as HsE. pose proof (dw_size _ HwD) as HsD.
  change FirstCode with 256 in *. change MaxDictEntries with 4096 in *.
  change Nil with (-1) in *.
  assert (Hcr : 0 <= c < Dictionary.size De) by (destruct Hmode as [?|?]; lia).
  assert (Hpend : pending s = str De c).
  { unfold pending. fold c. destruct (Z.eqb_spec c Nil); [done|done]. }
  assert (Hlen : Z.of_nat (length (LzwDecode.uncompressed d))
                 + Z.of_nat (length (str De c)) <= Z.of_nat (length S)).
  { rewrite <- Hout, Hpend, !length_app. lia. }
  destruct (read_code _ c w bs Hr Hwr ltac:(lia)) as (r' & Hread & Hr' & Hend).
  pose proof (flush_facts De w HwE Hwr Hsz) as (HwE1 & Hw1 & Hfl). fold r in HwE1, Hw1, Hfl.
  unfold LzwDecode.body. rewrite Hw, Hread. cbn [mbind option_bind].
  rewrite (i32_small c) by lia. rewrite Hn. fold Dd.
  destruct Hmode as [(Hp & HE & HD & Hcn)|(Hp & HE & _ & fb & Hent & Hhd)].
  - (* both dictionaries hold the roots: the code is a literal *)
    rewrite Hp. change (-1 =? Nil) with true. cbn [andb].
    assert (Hstr : str De c = [c]) by (apply str_root; [done|change FirstCode with 256; lia]).
    rewrite Hstr in *. simpl in Hlen.
    unfold outputByte.
    destruct (Z.geb_spec (Z.of_nat (length (LzwDecode.uncompressed d))) (i32 N)); [lia|].
    assert (Hnf : r = (false, De, w)).
    { unfold r, Dictionary.flush. rewrite HE.
      destruct (pow2_width w Hwr) as [-> ?].
      destruct (Z.eqb_spec 256 (2 ^ w)); [lia|done]. }
    eexists. split; [done|]. split; [done|]. cbn.
    rewrite Hnf. cbn. rewrite u8_small by lia. rewrite Hpend.
    split_and!; try done.
    + rewrite length_app. simpl. lia.
    + by rewrite HD, HE.
    + congruence.
    + intros i Hi. apply Hag. lia.
  - (* the decoder is one entry behind *)
    destruct (Z.eqb_spec (LzwDecode.prevCode d) Nil) as [E|_];
      [change Nil with (-1) in E; lia|].
    destruct (expand_lag De Dd c (LzwDecode.prevCode d) fb (LzwDecode.uncompressed d)
                (i32 N) (Z.of_nat (length (LzwDecode.uncompressed d))))
      as [Hexp Hfb]; try done; try lia.
    rewrite Hexp. cbn [mbind option_bind].
    destruct (add_spec Dd (LzwDecode.prevCode d) fb HwD ltac:(change MaxDictEntries with 4096; lia)
                Hp Hfb) as (HwA & HsA & HeA & HoA).
    set (Da := (Dictionary.add Dd (LzwDecode.prevCode d) fb).2) in *.
    destruct (flush_congr Da De w ltac:(lia)) as (F1 & F2 & F3).
    pose proof (flush_facts Da w HwA Hwr ltac:(lia)) as (HwA1 & _ & _).
    pose proof (flush_entries Da w) as HeF.
    fold r in F1, F2, F3.
    destruct (Dictionary.flush Da w) as [[reset Df] wf] eqn:EF.
    cbn [fst snd] in *.
    eexists. split; [done|]. split; [done|]. cbn.
    rewrite Hpend.
    split_and!; try done.
    + rewrite length_app. lia.
    + by rewrite HsA, HE.
    + intros i Hi. rewrite HeF.
      assert (Dictionary.size r.1.2 <= Dictionary.size De).
      { destruct (r.1.1); change FirstCode with 256 in *; lia. }
      destruct (Z.eq_dec i (Dictionary.size Dd)) as [->|Hne].
      * by rewrite HeA.
      * rewrite HoA by done. apply Hag. lia.
    + by rewrite F1.
Qed.

(** * The encoder and the decoder in step *)

(** The encoder extends its match: the decoder has nothing to do. *)
Lemma rel_extend S v rest N s d index :
  Rel S (v :: rest) N s d → is_byte v →
  Dictionary.findIndex (LzwEncode.dictionary s) (LzwEncode.code s) v = Some index →
  index ≠ Nil →
  Rel S rest N
      (LzwEncode.mk index (LzwEncode.codeBitsWidth s) (LzwEncode.dictionary s)
         (LzwEncode.bitStream s) (LzwEncode.trace s)) d.
Proof.
  intros [HwE HwD Hw Hwr Hsz Hag Hout Hn Hcap Htr Hmode] Hv Hfind Hne.
  set (De := LzwEncode.dictionary s) in *. set (c := LzwEncode.code s) in *.
  pose proof (dw_size _ HwE) as HsE.
  assert (Hcn : Nil <= c) by (change Nil with (-1) in *; destruct Hmode as [?|?]; lia).
  destruct (findIndex_spec De c v HwE Hv Hcn) as (r & Hr & Hcase).
  rewrite Hfind in Hr. injection Hr as <-.
  unfold pending in Hout. fold c De in Hout.
  destruct (Z.eqb_spec c Nil) as [Hnil|Hnn].
  - (* the first byte *)
    subst index.
    assert (Hstr : str De v = [v]).
    { apply str_root; [done|]. change FirstCode with 256. apply Hv. }
    constructor; cbn; try done.
    + unfold pending. cbn. destruct (Z.eqb_spec v Nil) as [E|_]; [done|].
      fold De. rewrite Hstr. done.
    + left. destruct Hmode as [(? & ? & ? & ?)|(_ & _ & ? & _)].
      * split_and!; try done. { change Nil with (-1). unfold is_byte in Hv. lia. }
        change FirstCode with 256. apply Hv.
      * fold c in H. rewrite Hnil in H. change Nil with (-1) in H. lia.
  - destruct Hcase as [?|[Hrange Hent]]; [done|].
    destruct (dw_node _ HwE index Hrange) as (p & v' & E & Hp & Hv').
    rewrite Hent in E. injection E as <- <-.
    assert (Hstr : str De index = str De c ++ [v]) by (by apply str_node).
    assert (Hnemp : str De c ≠ []) by (apply str_nonempty; [done|lia]).
    constructor; cbn; try done.
    + unfold pending. cbn. destruct (Z.eqb_spec index Nil) as [E|_]; [done|].
      fold De. rewrite Hstr, <- Hout, <- !app_assoc. done.
    + destruct Hmode as [(_ & HE & _ & _)|(Hp' & HE & Hc' & fb & He & Hhd)].
      * fold De in HE. lia.
      * right. split_and!; try done; try lia.
        exists fb. split; [done|]. fold De. rewrite Hstr.
        by rewrite head_app_nonempty.
Qed.

(** The encoder writes a code and the decoder reads it. *)
Lemma rel_emit S v rest N s d d1 bitStream :
  Rel S (v :: rest) N s d → is_byte v → LzwEncode.code s ≠ Nil →
  let r := Dictionary.flush (LzwEncode.dictionary s) (LzwEncode.codeBitsWidth s) in
  LzwDecode.uncompressed d1 = LzwDecode.uncompressed d ++ pending s →
  LzwDecode.bytesDecoded d1 = Z.of_nat (length (LzwDecode.uncompressed d1)) →
  LzwDecode.trace d1
    = LzwDecode.trace d
      ++ [(Dictionary.size (LzwEncode.dictionary s), LzwEncode.codeBitsWidth s)] →
  LzwDecode.codeBitsWidth d1 = r.2 →
  dict_wf (LzwDecode.dictionary d1) →
  Dictionary.size (LzwDecode.dictionary d1) = Dictionary.size r.1.2 →
  (∀ i, 0 <= i < Dictionary.size r.1.2 →
     Dictionary.entry (LzwEncode.dictionary s) i
     = Dictionary.entry (LzwDecode.dictionary d1) i) →
  LzwDecode.prevCode d1 = (if r.1.1 then Nil else LzwEncode.code s) →
  Rel S rest N
      (LzwEncode.mk v r.2
         (if negb r.1.1 then (Dictionary.add r.1.2 (LzwEncode.code s) v).2 else r.1.2)
         bitStream
         (LzwEncode.trace s
            ++ [(LzwEncode.code s, Dictionary.size (LzwEncode.dictionary s),
                 LzwEncode.codeBitsWidth s)]))
      d1.
Proof.
  intros [HwE HwD Hw Hwr Hsz Hag Hout Hn Hcap Htr Hmode] Hv Hc r
    Hout1 Hn1 Htr1 Hw1 HwD1 Hsz1 Hag1 Hprev1.
  set (De := LzwEncode.dictionary s) in *. set (c := LzwEncode.code s) in *.
  set (w := LzwEncode.codeBitsWidth s) in *.
  pose proof (dw_size _ HwE) as HsE.
  change FirstCode with 256 in *. change MaxDictEntries with 4096 in *.
  change Nil with (-1) in *.
  assert (Hcr : 0 <= c < Dictionary.size De) by (destruct Hmode as [?|?]; lia).
  pose proof (flush_facts De w HwE Hwr Hsz) as (HwE1 & Hwr1 & Hfl). fold r in HwE1, Hwr1, Hfl.
  pose proof (flush_entries De w) as HeF. fold r in HeF.
  unfold is_byte in Hv.
  assert (Hvn : (v =? -1) = false) by (apply Z.eqb_neq; lia).
  destruct (r.1.1) eqn:Hreset; cbn [negb].
  - (* the dictionary was full: both start again from the roots *)
    destruct Hfl as (_ & HszR & HwR).
    change FirstCode with 256 in HszR. change StartBits with 9 in HwR.
    assert (Hstr : str r.1.2 v = [v]) by (apply str_root; [done|change FirstCode with 256; lia]).
    constructor; cbn; try done.
    + rewrite HwR. simpl. lia.
    + intros i Hi. rewrite HeF. apply Hag1. lia.
    + unfold pending. cbn. change Nil with (-1). rewrite Hvn, Hstr, Hout1.
      rewrite <- Hout, <- !app_assoc. done.
    + rewrite Htr1, Htr, trajectory_app. done.
    + left. change FirstCode with 256. change Nil with (-1). split_and!; try done; lia.
  - destruct Hfl as (HszR & Hlt & Hmax).
    assert (Hmax' : Dictionary.size r.1.2 < MaxDictEntries) by lia.
    assert (Hcr' : 0 <= c < Dictionary.size r.1.2) by lia.
    destruct (add_spec r.1.2 c v HwE1 Hmax' Hcr' Hv) as (HwA & HsA & HeA & HoA).
    set (Da := (Dictionary.add r.1.2 c v).2) in *.
    assert (Hstr : str Da v = [v]) by (apply str_root; [done|change FirstCode with 256; lia]).
    constructor; cbn; try done.
    + lia.
    + intros i Hi. rewrite HoA by lia. rewrite HeF. apply Hag1. lia.
    + unfold pending. cbn. change Nil with (-1). rewrite Hvn. fold Da. rewrite Hstr, Hout1.
      rewrite <- Hout, <- !app_assoc. done.
    + rewrite Htr1, Htr, trajectory_app. done.
    + right. fold Da. rewrite Hprev1, Hsz1, HsA. split_and!; try lia.
      exists v. split; [done|]. by rewrite Hstr.
Qed.

Lemma loop_end fuel N d :
  BitStreamReader.isEndOfStream (LzwDecode.bitStream d) = true →
  LzwDecode.loop (S fuel) N d = Some d.
Proof. intros H. simpl. by rewrite H. Qed.

Lemma loop_step fuel N d d1 :
  BitStreamReader.isEndOfStream (LzwDecode.bitStream d) = false →
  LzwDecode.body N d = Some (true, d1) →
  LzwDecode.loop (S fuel) N d = LzwDecode.loop fuel N d1.
Proof. intros H1 H2. simpl. rewrite H1, H2. done. Qed.

Lemma visits_end N d d2 :
  BitStreamReader.isEndOfStream (LzwDecode.bitStream d) = true →
  visits N d d2 → d2 = d.
Proof. intros H Hv. destruct Hv; [done|congruence]. Qed.

Lemma visits_step N d d1 d2 :
  LzwDecode.body N d = Some (true, d1) →
  visits N d d2 → d2 = d ∨ visits N d1 d2.
Proof.
  intros H Hv. destruct Hv as [|d d1' d2 _ H' Hv]; [by left|].
  right. rewrite H in H'. by injection H' as <-.
Qed.

(** The decoder, run on the first [j] codes that the encoder writes from
    the state [s] on, writes a prefix of the input: all of it when [j]
    counts every code, less otherwise.  It adds the encoder's (size, width)
    pairs to its trace, and every dictionary it goes through is
    well-formed. *)
Lemma sim rest : ∀ s s1 sf d S N new j fuel,
  Forall is_byte rest → Rel S rest N s d →
  LzwEncode.loop rest (length rest) s = Some s1 →
  LzwEncode.finish s1 = Some sf →
  LzwEncode.trace sf = LzwEncode.trace s ++ new →
  (j <= length new)%nat →
  Rrep (LzwDecode.bitStream d) (trace_bits (take j new)) →
  (length (trace_bits (take j new)) < fuel)%nat →
  ∃ d', LzwDecode.loop fuel N d = Some d'
        ∧ LzwDecode.trace d' = LzwDecode.trace d ++ trajectory (take j new)
        ∧ LzwDecode.uncompressed d' `prefix_of` S
        ∧ (j = length new → LzwDecode.uncompressed d' = S)
        ∧ (j < length new → length (LzwDecode.uncompressed d') < length S)%nat
        ∧ (∀ d2, visits N d d2 → dict_wf (LzwDecode.dictionary d2)).
Proof.
  induction rest as [|v rest IH];
    intros s s1 sf d S N new j fuel Hbytes HR Hloop Hfin Hnew Hj Hrd Hfuel.
  - (* the end of the input: the residual code *)
    simpl in Hloop. injection Hloop as <-.
    pose proof (rel_out _ _ _ _ _ HR) as Hout. rewrite app_nil_r in Hout.
    apply encode_finish_cases in Hfin as [[Hc ->]|(Hc & bs & _ & ->)].
    + (* no byte was read *)
      assert (new = []) as ->.
      { apply (f_equal length) in Hnew. rewrite length_app in Hnew.
        destruct new; [done|simpl in Hnew; lia]. }
      assert (j = 0%nat) as -> by (simpl in Hj; lia).
      simpl in Hrd. destruct fuel as [|fuel]; [lia|].
      exists d. rewrite loop_end by by apply Rrep_nil_end.
      unfold pending in Hout. rewrite Hc in Hout. change (Nil =? Nil) with true in Hout.
      rewrite app_nil_r in Hout.
      split_and!; try done.
      * simpl. by rewrite app_nil_r.
      * by rewrite Hout.
      * simpl. lia.
      * intros d2 Hv. apply visits_end in Hv as ->; [|by apply Rrep_nil_end].
        apply (rel_wf_d _ _ _ _ _ HR).
    + cbn [LzwEncode.trace] in Hnew. apply app_inv_head in Hnew. subst new.
      assert (Hne : pending s ≠ []).
      { unfold pending. destruct (Z.eqb_spec (LzwEncode.code s) Nil); [done|].
        apply str_nonempty; [apply (rel_wf_e _ _ _ _ _ HR)|].
        destruct (rel_mode _ _ _ _ _ HR) as [?|?]; change Nil with (-1) in *; lia. }
      destruct j as [|[|j]]; [| |simpl in Hj; lia].
      * simpl in Hrd. destruct fuel as [|fuel]; [lia|].
        exists d. rewrite loop_end by by apply Rrep_nil_end.
        split_and!; try done.
        -- simpl. by rewrite app_nil_r.
        -- rewrite <- Hout. by apply prefix_app_r.
        -- intros _. rewrite <- Hout, length_app.
           destruct (pending s); [done|simpl; lia].
        -- intros d2 Hv. apply visits_end in Hv as ->; [|by apply Rrep_nil_end].
           apply (rel_wf_d _ _ _ _ _ HR).
      * cbn [take] in Hrd, Hfuel |- *. rewrite trace_bits_cons in Hrd, Hfuel.
        cbn [fst snd] in Hrd, Hfuel. change (trace_bits []) with (@nil bool) in Hrd, Hfuel.
        destruct (dec_step _ _ _ _ _ _ HR Hc Hrd)
          as (d1 & He & Hb & Hr1 & Ho1 & Hn1 & Ht1 & _ & Hw1 & _).
        rewrite length_app, length_code_bits in Hfuel.
        pose proof (rel_w_range _ _ _ _ _ HR).
        destruct fuel as [|[|fuel]]; [lia|simpl in Hfuel; lia|].
        exists d1. rewrite (loop_step _ _ _ _ He Hb).
        rewrite loop_end by by apply Rrep_nil_end.
        split_and!; try done.
        -- by rewrite Ho1, Hout.
        -- by rewrite Ho1, Hout.
        -- simpl. lia.
        -- intros d2 Hv. apply (visits_step _ _ _ _ Hb) in Hv as [->|Hv].
           ++ apply (rel_wf_d _ _ _ _ _ HR).
           ++ apply visits_end in Hv as ->; [done|by apply Rrep_nil_end].
  - (* one more byte *)
    inversion Hbytes as [|? ? Hv Hbytes']; subst. clear Hbytes. rename Hbytes' into Hbytes.
    simpl in Hloop.
    destruct (LzwEncode.body s v) as [s'|] eqn:Hbody;
      cbn [mbind option_bind] in Hloop; [|done].
    pose proof (rel_out _ _ _ _ _ HR) as Hout.
    apply encode_body_cases in Hbody as [(index & Hfind & Hne & ->)|(Hfind & bs & _ & Hs')].
    + (* the match goes on *)
      eapply (IH _ _ _ d); [done| |done..].
      by eapply rel_extend.
    + assert (Hc : LzwEncode.code s ≠ Nil).
      { intros E. unfold Dictionary.findIndex in Hfind. rewrite E in Hfind.
        change (Nil =? Nil) with true in Hfind. injection Hfind as E'.
        unfold is_byte in Hv. change Nil with (-1) in E'. lia. }
      cbv zeta in Hs'.
      destruct (encode_loop_trace _ _ _ _ Hloop) as [n1 E1].
      assert (∃ n2, LzwEncode.trace sf = LzwEncode.trace s1 ++ n2) as [n2 E2].
      { apply encode_finish_cases in Hfin as [[_ ->]|(_ & ? & _ & ->)].
        - exists []. by rewrite app_nil_r.
        - by eexists. }
      assert (Hnew' : new = (LzwEncode.code s, Dictionary.size (LzwEncode.dictionary s),
                             LzwEncode.codeBitsWidth s) :: (n1 ++ n2)).
      { rewrite E2, E1, Hs' in Hnew. cbn [LzwEncode.trace] in Hnew.
        rewrite <- !app_assoc in Hnew. by apply app_inv_head in Hnew. }
      assert (Hsf : LzwEncode.trace sf = LzwEncode.trace s' ++ (n1 ++ n2)).
      { by rewrite E2, E1, app_assoc. }
      subst new.
      assert (Hne : pending s ≠ []).
      { unfold pending. destruct (Z.eqb_spec (LzwEncode.code s) Nil); [done|].
        apply str_nonempty; [apply (rel_wf_e _ _ _ _ _ HR)|].
        destruct (rel_mode _ _ _ _ _ HR) as [?|?]; change Nil with (-1) in *; lia. }
      destruct j as [|j].
      * simpl in Hrd. destruct fuel as [|fuel]; [lia|].
        exists d. rewrite loop_end by by apply Rrep_nil_end.
        split_and!; try done.
        -- simpl. by rewrite app_nil_r.
        -- rewrite <- Hout. by apply prefix_app_r.
        -- intros _. rewrite <- Hout, !length_app.
           destruct (pending s); [done|simpl; lia].
        -- intros d2 Hvis. apply visits_end in Hvis as ->; [|by apply Rrep_nil_end].
           apply (rel_wf_d _ _ _ _ _ HR).
      * cbn [take] in Hrd, Hfuel |- *. rewrite trace_bits_cons in Hrd, Hfuel.
        cbn [fst snd] in Hrd, Hfuel.
        destruct (dec_step _ _ _ _ _ _ HR Hc Hrd)
          as (d1 & He & Hb & Hr1 & Ho1 & Hn1 & Ht1 & Hcw1 & Hw1 & Hsz1 & Hag1 & Hp1).
        rewrite length_app, length_code_bits in Hfuel.
        pose proof (rel_w_range _ _ _ _ _ HR).
        destruct fuel as [|fuel]; [lia|].
        assert (HR' : Rel S rest N s' d1).
        { rewrite Hs'. by eapply rel_emit. }
        simpl in Hj.
        destruct (IH s' s1 sf d1 S N (n1 ++ n2) j fuel Hbytes HR' Hloop Hfin Hsf
                    ltac:(lia) Hr1 ltac:(lia))
          as (d' & Hl & Ht & Hpre & Hall & Hless & Hvis).
        exists d'. rewrite (loop_step _ _ _ _ He Hb).
        split_and!; try done.
        -- rewrite Ht, Ht1, <- app_assoc. done.
        -- intros E. apply Hall. simpl in E. lia.
        -- intros E. apply Hless. simpl in E. lia.
        -- intros d2 Hv2. apply (visits_step _ _ _ _ Hb) in Hv2 as [->|Hv2].
           ++ apply (rel_wf_d _ _ _ _ _ HR).
           ++ by apply Hvis.
Qed.

(** * Encoding, then decoding *)

Lemma bit_at_zeros n k : 0 <= k → bit_at (replicate n 0) k = false.
Proof.
  intros. change (replicate n 0) with ([] ++ replicate n 0).
  rewrite bit_at_app_zeros by done. unfold bit_at.
  assert (0 <= k / 8) by (apply Z.div_pos; lia).
  by rewrite at_lookup.
Qed.

Lemma new_Wrep :
  ∃ w, BitStreamWriter.new = Some w ∧ Wrep w [] ∧ BitStreamWriter.granularity w = 2.
Proof.
  exists (BitStreamWriter.mk (replicate (Z.to_nat 1024) 0) 1024 2 0 0 0).
  split; [reflexivity|]. split; [|done].
  constructor; cbn [BitStreamWriter.stream BitStreamWriter.bytesAllocated
                    BitStreamWriter.granularity BitStreamWriter.currBytePos
                    BitStreamWriter.nextBitPos BitStreamWriter.numBitsWritten length];
    try lia; try done.
  intros k Hk. rewrite bit_at_zeros by done. by destruct (Z.to_nat k).
Qed.

(** A reader over a buffer that holds the bits [bs], at bit [off]. *)
Lemma Rrep_at buf bs nbytes nbits off :
  (∀ k, 0 <= k → bit_at buf k = default false (bs !! Z.to_nat k)) →
  0 <= off → nbits <= Z.of_nat (length bs) → nbits <= 8 * Z.of_nat (length buf) →
  Rrep (BitStreamReader.mk buf nbytes nbits (off / 8) (off mod 8) off)
       (take (Z.to_nat (nbits - off)) (drop (Z.to_nat off) bs)).
Proof.
  intros Hbits Hoff Hn Hbuf.
  pose proof (Z.mod_pos_bound off 8 ltac:(lia)).
  pose proof (Z.div_mod off 8 ltac:(lia)).
  assert (0 <= off / 8) by (apply Z.div_pos; lia).
  constructor; cbn; try lia.
  - rewrite length_take, length_drop. lia.
  - intros k b Hk. apply lookup_take_Some in Hk as [Hk _].
    rewrite lookup_drop in Hk. rewrite Hbits by lia.
    replace (Z.to_nat (off + Z.of_nat k)) with (Z.to_nat off + k)%nat by lia.
    by rewrite Hk.
Qed.

Lemma Rrep_new buf bs nbytes nbits :
  (∀ k, 0 <= k → bit_at buf k = default false (bs !! Z.to_nat k)) →
  0 <= nbits <= Z.of_nat (length bs) → nbits <= 8 * Z.of_nat (length buf) →
  Rrep (BitStreamReader.new buf nbytes nbits) (take (Z.to_nat nbits) bs).
Proof.
  intros Hbits Hn Hbuf.
  pose proof (Rrep_at buf bs nbytes nbits 0 Hbits ltac:(lia) ltac:(lia) Hbuf) as H.
  rewrite Z.sub_0_r in H. exact H.
Qed.

Lemma Wrep_covers w bs :
  Wrep w bs → Z.of_nat (length bs) <= 8 * Z.of_nat (length (BitStreamWriter.stream w)).
Proof. intros [Hlen Hg Hbit Hpos Hnum Hcnt Hbits Hint]. lia. Qed.

(** Where the encoder starts, with the decoder in step. *)
Lemma Rel_init S N compressed nbytes nbits w :
  Z.of_nat (length S) <= i32 N →
  Rel S S N (LzwEncode.mk Nil StartBits Dictionary.new w [])
      (LzwDecode.init compressed nbytes nbits).
Proof.
  intros HN. constructor; cbn; try done.
  - apply new_wf.
  - apply new_wf.
  - left. split_and!; try done; change Nil with (-1); change FirstCode with 256; lia.
Qed.

Lemma encode_run_cases uncompressed n sf :
  LzwEncode.run uncompressed n = Some sf →
  ∃ w s1, BitStreamWriter.new = Some w
          ∧ LzwEncode.loop uncompressed (Z.to_nat n)
              (LzwEncode.mk Nil StartBits Dictionary.new w []) = Some s1
          ∧ LzwEncode.finish s1 = Some sf.
Proof.
  unfold LzwEncode.run. intros H.
  destruct BitStreamWriter.new as [w|] eqn:Ew; cbn [mbind option_bind] in H; [|done].
  destruct (LzwEncode.loop _ _ _) as [s1|] eqn:El; cbn [mbind option_bind] in H; [|done].
  exists w, s1. split; [done|]. split; [exact El|exact H].
Qed.

Lemma encode_run_Wrep uncompressed n sf :
  LzwEncode.run uncompressed n = Some sf →
  Wrep (LzwEncode.bitStream sf) (trace_bits (LzwEncode.trace sf)).
Proof.
  intros (w & s1 & Hw & Hl & Hf)%encode_run_cases.
  destruct new_Wrep as (w' & Hw' & Hrep & _). rewrite Hw in Hw'. injection Hw' as <-.
  eapply encode_finish_Wrep; [|done]. eapply encode_loop_Wrep; [|done]. done.
Qed.

Lemma trace_bits_take j tr :
  trace_bits (take j tr) = take (length (trace_bits (take j tr))) (trace_bits tr).
Proof.
  rewrite <- (take_drop j tr) at 3. rewrite trace_bits_app.
  by rewrite take_app_length.
Qed.

Lemma trace_bits_take_le j tr :
  (length (trace_bits (take j tr)) <= length (trace_bits tr))%nat.
Proof.
  rewrite <- (take_drop j tr) at 2. rewrite trace_bits_app, length_app. lia.
Qed.

(** The decoder on the stream of the encoder, cut after [j] codes. *)
Lemma decode_of_encode S N sf j nbytes :
  Forall is_byte S → Z.of_nat (length S) <= i32 N →
  LzwEncode.run S (Z.of_nat (length S)) = Some sf →
  (j <= length (LzwEncode.trace sf))%nat →
  let compressed := BitStreamWriter.stream (LzwEncode.bitStream sf) in
  let nbits := Z.of_nat (length (trace_bits (take j (LzwEncode.trace sf)))) in
  ∃ d', LzwDecode.run compressed nbytes nbits N = Some d'
        ∧ LzwDecode.trace d' = trajectory (take j (LzwEncode.trace sf))
        ∧ LzwDecode.uncompressed d' `prefix_of` S
        ∧ (j = length (LzwEncode.trace sf) → LzwDecode.uncompressed d' = S)
        ∧ (j < length (LzwEncode.trace sf) →
           length (LzwDecode.uncompressed d') < length S)%nat
        ∧ (∀ d2, visits N (LzwDecode.init compressed nbytes nbits) d2 →
                 dict_wf (LzwDecode.dictionary d2)).
Proof.
  intros Hbytes HN Hrun Hj compressed nbits.
  pose proof (encode_run_Wrep _ _ _ Hrun) as HW.
  apply encode_run_cases in Hrun as (w & s1 & Hw & Hl & Hf).
  rewrite Nat2Z.id in Hl.
  pose proof (trace_bits_take_le j (LzwEncode.trace sf)) as Hle.
  pose proof (wr_cnt _ _ HW) as Hcnt. pose proof (wr_int _ _ HW) as Hint.
  pose proof (Wrep_covers _ _ HW) as Hcov.
  assert (Hi : i32 nbits = nbits) by (apply i32_small; subst nbits; lia).
  assert (Hr : Rrep (LzwDecode.bitStream (LzwDecode.init compressed nbytes nbits))
                    (trace_bits (take j (LzwEncode.trace sf)))).
  { cbn. rewrite Hi. rewrite trace_bits_take.
    replace (length (trace_bits (take j (LzwEncode.trace sf)))) with (Z.to_nat nbits)
      by (subst nbits; lia).
    apply Rrep_new; [apply (wr_bits _ _ HW)|subst nbits; lia|subst nbits compressed; lia]. }
  unfold LzwDecode.run. rewrite Hi.
  destruct (sim S _ s1 sf _ S N (LzwEncode.trace sf) j (Datatypes.S (Z.to_nat nbits)) Hbytes
              (Rel_init S N compressed nbytes nbits w HN) Hl Hf ltac:(done) Hj Hr
              ltac:(subst nbits; lia))
    as (d' & Hloop & Ht & Hrest).
  exists d'. split; [done|]. split; [|done]. by rewrite Ht.
Qed.

(** * The decoder on any stream *)

(** ** The reader never passes the declared number of bits *)

Lemma readNextBit_progress r bit r' :
  BitStreamReader.readNextBit r = Some (bit, r') →
  BitStreamReader.sizeInBits r' = BitStreamReader.sizeInBits r
  ∧ BitStreamReader.stream r' = BitStreamReader.stream r
  ∧ match bit with
    | None => r' = r
              ∧ BitStreamReader.sizeInBits r <= BitStreamReader.numBitsRead r
    | Some _ => BitStreamReader.numBitsRead r' = BitStreamReader.numBitsRead r + 1
                ∧ BitStreamReader.numBitsRead r < BitStreamReader.sizeInBits r
    end.
Proof.
  unfold BitStreamReader.readNextBit. intros H.
  destruct (Z.geb_spec (BitStreamReader.numBitsRead r) (BitStreamReader.sizeInBits r)).
  - injection H as <- <-. split_and!; try done; lia.
  - destruct (at_ _ _) as [byte|]; cbn [mbind option_bind] in H; [|done].
    destruct (_ =? 8); injection H as <- <-; cbn; split_and!; try done; lia.
Qed.

Lemma readBitsU64_loop_progress n : ∀ b num r v r',
  BitStreamReader.readBitsU64_loop n b num r = Some (v, r') →
  BitStreamReader.sizeInBits r' = BitStreamReader.sizeInBits r
  ∧ BitStreamReader.stream r' = BitStreamReader.stream r
  ∧ BitStreamReader.numBitsRead r <= BitStreamReader.numBitsRead r'
  ∧ BitStreamReader.numBitsRead r'
    <= Z.max (BitStreamReader.numBitsRead r) (BitStreamReader.sizeInBits r)
  ∧ (BitStreamReader.numBitsRead r < BitStreamReader.sizeInBits r → (0 < n)%nat →
     BitStreamReader.numBitsRead r < BitStreamReader.numBitsRead r').
Proof.
  induction n as [|n IH]; intros b num r v r' H; simpl in H.
  - injection H as <- <-. split_and!; try done; lia.
  - destruct (BitStreamReader.readNextBit r) as [[bit r1]|] eqn:H1;
      cbn [mbind option_bind] in H; [|done].
    apply readNextBit_progress in H1 as (Hs & Hst & Hb).
    destruct bit as [bit|].
    + destruct (shl64_1 b) as [mask|]; cbn [mbind option_bind] in H; [|done].
      apply IH in H as (Hs' & Hst' & Hle & Hmax & _).
      destruct Hb as [Hn Hlt]. split_and!; try congruence; lia.
    + destruct Hb as [-> Hge]. injection H as <- <-. split_and!; try done; lia.
Qed.

Lemma readBitsU64_progress r bitCount v r' :
  BitStreamReader.readBitsU64 r bitCount = Some (v, r') →
  BitStreamReader.sizeInBits r' = BitStreamReader.sizeInBits r
  ∧ BitStreamReader.stream r' = BitStreamReader.stream r
  ∧ BitStreamReader.numBitsRead r <= BitStreamReader.numBitsRead r'
  ∧ BitStreamReader.numBitsRead r'
    <= Z.max (BitStreamReader.numBitsRead r) (BitStreamReader.sizeInBits r)
  ∧ (BitStreamReader.numBitsRead r < BitStreamReader.sizeInBits r → 0 < bitCount →
     BitStreamReader.numBitsRead r < BitStreamReader.numBitsRead r').
Proof.
  intros H. apply readBitsU64_loop_progress in H as (? & ? & ? & ? & Hp).
  split_and!; try done. intros ? ?. apply Hp; [done|lia].
Qed.

(** ** What a trip of the loop writes does not depend on the capacity *)

Lemma emit_list_app xs ys out cap n :
  emit_list (xs ++ ys) out cap n
  = let '(b, o, m) := emit_list xs out cap n in
    if (b : bool) then emit_list ys o cap m else (false, o, m).
Proof.
  revert out n. induction xs as [|x xs IH]; intros out n; simpl.
  - by destruct (emit_list ys out cap n) as [[? ?] ?].
  - destruct (n >=? cap); [done|]. apply IH.
Qed.

Lemma outputSequence_shape d c out cap n r :
  outputSequence d c out cap n = Some r →
  ∃ fb, head (str d c) = Some fb
        ∧ ∀ out' cap' n',
            outputSequence d c out' cap' n'
            = Some (let '(b, o, m) := emit_list (str d c) out' cap' n' in (b, o, m, fb)).
Proof.
  intros H. destruct (outputSequence_Some _ _ _ _ _ _ H) as (fb & Hfb & _).
  exists fb. split; [done|]. intros out' cap' n'.
  unfold outputSequence in *.
  destruct (outputSequence_walk _ _ _ _) as [sq|] eqn:Hw;
    cbn [mbind option_bind] in *; [|done].
  pose proof (walk_entry_bytes _ _ _ _ _ Hw) as Hsq. rewrite app_nil_l in Hsq.
  fold (str d c) in Hsq.
  destruct (list.last sq) as [fb'|] eqn:Hl; cbn [mbind option_bind] in *; [|done].
  assert (fb' = fb) as ->.
  { rewrite Hsq, last_rev in Hl. congruence. }
  rewrite emit_loop_spec by done. cbn [mbind option_bind].
  rewrite firstn_all, Hsq, rev_involutive.
  by destruct (emit_list _ _ _ _) as [[? ?] ?].
Qed.

(** The bytes that the if / else-if of the decoder writes. *)
Lemma expand_shape dict c prev out cap n r :
  LzwDecode.expand dict c prev out cap n = Some r →
  ∃ xs fb, ∀ out' cap' n',
    LzwDecode.expand dict c prev out' cap' n'
    = Some (let '(b, o, m) := emit_list xs out' cap' n' in (b, o, m, fb)).
Proof.
  unfold LzwDecode.expand. intros H.
  destruct (c >=? Dictionary.size dict).
  - destruct (outputSequence dict prev out cap n) as [r1|] eqn:H1;
      cbn [mbind option_bind] in H; [|done].
    apply outputSequence_shape in H1 as (fb & _ & Hall).
    exists (str dict prev ++ [fb]), fb. intros out' cap' n'.
    rewrite Hall. cbn [mbind option_bind]. rewrite emit_list_app.
    destruct (emit_list (str dict prev) out' cap' n') as [[b o] m].
    destruct b; [|done]. simpl. unfold outputByte.
    by destruct (m >=? cap').
  - apply outputSequence_shape in H as (fb & _ & Hall).
    by exists (str dict c), fb.
Qed.

(** One trip of the loop: the bytes [xs] it tries to write and the states
    [yes o m] and [no o m] it ends in, after writing all of them or not,
    do not depend on the capacity. *)
Lemma body_shape N d r :
  LzwDecode.body N d = Some r →
  ∃ xs yes no,
    (∀ o m, LzwDecode.uncompressed (yes o m) = o ∧ LzwDecode.bytesDecoded (yes o m) = m
            ∧ LzwDecode.uncompressed (no o m) = o ∧ LzwDecode.bytesDecoded (no o m) = m)
    ∧ xs ≠ []
    ∧ ∀ N', LzwDecode.body N' d
            = Some (let '(b, o, m) := emit_list xs (LzwDecode.uncompressed d) (i32 N')
                                        (LzwDecode.bytesDecoded d) in
                    (b, if (b : bool) then yes o m else no o m)).
Proof.
  unfold LzwDecode.body. intros H.
  destruct (BitStreamReader.readBitsU64 _ _) as [[num bs]|];
    cbn [mbind option_bind] in *; [|done].
  destruct (LzwDecode.prevCode d =? Nil).
  - exists [i32 num]. eexists (λ o m, LzwDecode.mk _ _ _ m _ o _ _ _).
    eexists (λ o m, LzwDecode.mk _ _ _ m _ o _ _ _).
    split; [done|]. split; [done|]. intros N'. simpl. unfold outputByte.
    destruct (_ >=? _); reflexivity.
  - destruct (LzwDecode.expand _ _ _ _ _ _) as [r1|] eqn:H1;
      cbn [mbind option_bind] in H; [|done].
    destruct (expand_shape _ _ _ _ _ _ _ H1) as (xs & fb & Hall).
    assert (xs ≠ []) as Hne.
    { intros ->. clear H. unfold LzwDecode.expand in H1, Hall.
      destruct (_ >=? _).
      - destruct (outputSequence _ _ _ _ _) as [r2|] eqn:H2;
          cbn [mbind option_bind] in H1; [|done].
        apply outputSequence_shape in H2 as (fb' & _ & Hall').
        specialize (Hall [] (-1) 0). rewrite Hall' in Hall. cbn [mbind option_bind] in Hall.
        destruct (str _ _) as [|x l]; cbn in Hall; discriminate Hall.
      - apply outputSequence_shape in H1 as (fb' & Hhd & Hall').
        specialize (Hall [] (-1) 0). rewrite Hall' in Hall.
        destruct (str _ _) as [|x l]; [done|]. cbn in Hall. discriminate Hall. }
    exists xs.
    eexists (λ o m,
      let dict := (Dictionary.add (LzwDecode.dictionary d) (LzwDecode.prevCode d) fb).2 in
      let r := Dictionary.flush dict (LzwDecode.codeBitsWidth d) in
      LzwDecode.mk (i32 num) (if r.1.1 then Nil else i32 num) fb m r.2 o r.1.2 bs
        (LzwDecode.trace d ++ [(Dictionary.size dict, LzwDecode.codeBitsWidth d)])).
    eexists (λ o m, LzwDecode.mk _ _ _ m _ o _ _ _).
    split; [done|]. split; [done|]. intros N'. rewrite Hall. cbn [mbind option_bind].
    destruct (emit_list _ _ _ _) as [[b o] m]. destruct b; [|reflexivity].
    cbv zeta. by destruct (Dictionary.flush _ _) as [[? ?] ?].
Qed.

(** ** Two capacities *)

Lemma body_caps N1 N2 d k2 d2 :
  i32 N1 <= Z.max 0 (i32 N2) →
  LzwDecode.bytesDecoded d = Z.of_nat (length (LzwDecode.uncompressed d)) →
  Z.of_nat (length (LzwDecode.uncompressed d)) <= Z.max 0 (i32 N1) →
  LzwDecode.body N2 d = Some (k2, d2) →
  ∃ k1 d1,
    LzwDecode.body N1 d = Some (k1, d1)
    ∧ LzwDecode.bytesDecoded d2 = Z.of_nat (length (LzwDecode.uncompressed d2))
    ∧ LzwDecode.uncompressed d `prefix_of` LzwDecode.uncompressed d2
    ∧ Z.of_nat (length (LzwDecode.uncompressed d2)) <= Z.max 0 (i32 N2)
    ∧ ((k1 = true ∧ k2 = true ∧ d1 = d2
        ∧ Z.of_nat (length (LzwDecode.uncompressed d2)) <= Z.max 0 (i32 N1))
       ∨ (k1 = false
          ∧ (Z.to_nat (i32 N1) <= length (LzwDecode.uncompressed d2))%nat
          ∧ LzwDecode.uncompressed d1
            = take (Z.to_nat (i32 N1)) (LzwDecode.uncompressed d2))).
Proof.
  intros Hc Hn Hle H.
  destruct (body_shape _ _ _ H) as (xs & yes & no & Hproj & Hne & Hall).
  rewrite (Hall N2) in H. rewrite (Hall N1). clear Hall.
  rewrite !emit_list_spec in *. rewrite Hn in *.
  set (n := Z.of_nat (length (LzwDecode.uncompressed d))) in *.
  set (L := length xs) in *.
  set (k1 := Z.to_nat (Z.min (Z.of_nat L) (Z.max 0 (i32 N1 - n)))) in *.
  set (k2' := Z.to_nat (Z.min (Z.of_nat L) (Z.max 0 (i32 N2 - n)))) in *.
  assert (0 < L)%nat by (subst L; destruct xs; [done|simpl; lia]).
  assert (Hk : (k1 <= k2')%nat) by (subst k1 k2' n; lia).
  assert (Hk2 : (k2' <= L)%nat) by (subst k2'; lia).
  assert (Hout2 : LzwDecode.uncompressed d2
                  = LzwDecode.uncompressed d ++ (u8 <$> take k2' xs)
                  ∧ LzwDecode.bytesDecoded d2 = n + Z.of_nat k2').
  { injection H as _ <-.
    destruct (Hproj (LzwDecode.uncompressed d ++ (u8 <$> take k2' xs))
                (n + Z.of_nat k2')) as (E1 & E2 & E3 & E4).
    destruct (bool_decide _); split; assumption. }
  destruct Hout2 as [Ho2 Hn2].
  assert (Hlen2 : length (LzwDecode.uncompressed d2)
                  = (length (LzwDecode.uncompressed d) + k2')%nat).
  { rewrite Ho2, length_app, length_fmap, length_take. lia. }
  do 2 eexists. split; [reflexivity|].
  split; [rewrite Hn2, Hlen2; subst n; lia|].
  split; [rewrite Ho2; by apply prefix_app_r|].
  split; [rewrite Hlen2; subst k2' n; lia|].
  destruct (decide (k1 = L)) as [E1|E1].
  - left. rewrite (bool_decide_eq_true_2 _ E1).
    assert (E2 : k2' = L) by lia.
    rewrite (bool_decide_eq_true_2 _ E2) in H. injection H as <- <-.
    split_and!; try done.
    + by rewrite E1, E2.
    + rewrite Hlen2. subst k1 k2' n. lia.
  - right. rewrite (bool_decide_eq_false_2 _ E1). split; [done|].
    split; [rewrite Hlen2; subst k1 k2' n; lia|].
    destruct (Hproj (LzwDecode.uncompressed d ++ (u8 <$> take k1 xs)) (n + Z.of_nat k1))
      as (_ & _ & -> & _).
    rewrite Ho2.
    replace (Z.to_nat (i32 N1)) with (length (LzwDecode.uncompressed d) + k1)%nat
      by (subst k1 n; lia).
    rewrite take_app_add'; [|done].
    rewrite <- fmap_take, take_take. do 3 f_equal. lia.
Qed.

Lemma body_out N d k d' :
  LzwDecode.bytesDecoded d = Z.of_nat (length (LzwDecode.uncompressed d)) →
  Z.of_nat (length (LzwDecode.uncompressed d)) <= Z.max 0 (i32 N) →
  LzwDecode.body N d = Some (k, d') →
  LzwDecode.bytesDecoded d' = Z.of_nat (length (LzwDecode.uncompressed d'))
  ∧ LzwDecode.uncompressed d `prefix_of` LzwDecode.uncompressed d'
  ∧ Z.of_nat (length (LzwDecode.uncompressed d')) <= Z.max 0 (i32 N).
Proof.
  intros Hn Hle H.
  destruct (body_caps N N d k d' ltac:(lia) Hn Hle H) as (k1 & d1 & _ & ? & ? & ? & _).
  done.
Qed.

(** The loop only appends to the output, and stays within the capacity. *)
Lemma loop_out N fuel : ∀ d d',
  LzwDecode.bytesDecoded d = Z.of_nat (length (LzwDecode.uncompressed d)) →
  Z.of_nat (length (LzwDecode.uncompressed d)) <= Z.max 0 (i32 N) →
  LzwDecode.loop fuel N d = Some d' →
  LzwDecode.bytesDecoded d' = Z.of_nat (length (LzwDecode.uncompressed d'))
  ∧ LzwDecode.uncompressed d `prefix_of` LzwDecode.uncompressed d'
  ∧ Z.of_nat (length (LzwDecode.uncompressed d')) <= Z.max 0 (i32 N).
Proof.
  induction fuel as [|fuel IH]; intros d d' Hn Hle H; simpl in H; [done|].
  destruct (BitStreamReader.isEndOfStream _).
  - by injection H as <-.
  - destruct (LzwDecode.body N d) as [[k t]|] eqn:Hb; cbn [mbind option_bind] in H; [|done].
    destruct (body_out _ _ _ _ Hn Hle Hb) as (Hn' & Hp' & Hle'). cbn [fst snd] in H.
    destruct k.
    + destruct (IH _ _ Hn' Hle' H) as (? & ? & ?). split_and!; try done.
      by etrans.
    + by injection H as <-.
Qed.

(** The decoder with the smaller capacity writes the first bytes of what
    it writes with the larger one. *)
Lemma loop_caps N1 N2 fuel : ∀ d d2,
  i32 N1 <= Z.max 0 (i32 N2) →
  LzwDecode.bytesDecoded d = Z.of_nat (length (LzwDecode.uncompressed d)) →
  Z.of_nat (length (LzwDecode.uncompressed d)) <= Z.max 0 (i32 N1) →
  LzwDecode.loop fuel N2 d = Some d2 →
  ∃ d1, LzwDecode.loop fuel N1 d = Some d1
        ∧ LzwDecode.uncompressed d1
          = take (Z.to_nat (i32 N1)) (LzwDecode.uncompressed d2).
Proof.
  induction fuel as [|fuel IH]; intros d d2 Hc Hn Hle H; simpl in H |- *; [done|].
  destruct (BitStreamReader.isEndOfStream _).
  - injection H as <-. exists d. split; [done|]. rewrite take_ge; [done|lia].
  - destruct (LzwDecode.body N2 d) as [[k2 t2]|] eqn:Hb; cbn [mbind option_bind] in H; [|done].
    cbn [fst snd] in H.
    destruct (body_caps _ _ _ _ _ Hc Hn Hle Hb)
      as (k1 & t1 & Hb1 & Hn2 & Hp2 & Hle2 & [(-> & -> & -> & Hle1)|(-> & Hlen & Ho1)]).
    + rewrite Hb1. cbn [mbind option_bind fst snd]. by apply IH.
    + rewrite Hb1. cbn [mbind option_bind fst snd]. exists t1. split; [done|].
      rewrite Ho1.
      assert (LzwDecode.uncompressed t2 `prefix_of` LzwDecode.uncompressed d2) as [rest Hr].
      { destruct k2; [|by injection H as <-].
        by destruct (loop_out _ _ _ _ Hn2 Hle2 H) as (_ & ? & _). }
      rewrite Hr. by rewrite take_app_le.
Qed.

(** ** Termination *)

Lemma flush_sizes d w :
  9 <= w <= 12 → FirstCode <= Dictionary.size d <= 2 ^ w →
  let r := Dictionary.flush d w in
  9 <= r.2 <= 12 ∧ FirstCode <= Dictionary.size r.1.2 < 2 ^ r.2.
Proof.
  intros Hw Hs. unfold Dictionary.flush.
  destruct (pow2_width w Hw) as [-> Hp].
  change FirstCode with 256 in *. change MaxDictBits with 12. change StartBits with 9.
  destruct (Z.eqb_spec (Dictionary.size d) (2 ^ w)) as [E|E]; cbn.
  - destruct (Z.gtb_spec (w + 1) 12); cbn.
    + change FirstCode with 256. lia.
    + rewrite Z.pow_add_r, Z.pow_1_r by lia. lia.
  - lia.
Qed.

Lemma add_size d c v :
  Dictionary.size d < MaxDictEntries →
  Dictionary.size (Dictionary.add d c v).2 = Dictionary.size d + 1.
Proof.
  intros H. unfold Dictionary.add.
  destruct (Z.eqb_spec (Dictionary.size d) MaxDictEntries); [lia|done].
Qed.

(** One trip of the loop reads through [readBitsU64] and nothing else, and
    keeps [decode_inv]. *)
Lemma body_reads N d k d' :
  decode_inv d → LzwDecode.body N d = Some (k, d') →
  decode_inv d'
  ∧ ∃ num, BitStreamReader.readBitsU64 (LzwDecode.bitStream d) (LzwDecode.codeBitsWidth d)
           = Some (num, LzwDecode.bitStream d').
Proof.
  intros [Hw Hs] H. unfold LzwDecode.body in H.
  destruct (BitStreamReader.readBitsU64 _ _) as [[num bs]|];
    cbn [mbind option_bind] in H; [|done].
  assert (Hgoal : decode_inv d' ∧ LzwDecode.bitStream d' = bs);
    [|destruct Hgoal as [? <-]; eauto].
  destruct (LzwDecode.prevCode d =? Nil).
  - unfold outputByte in H. destruct (_ >=? _); injection H as <- <-; by split.
  - destruct (LzwDecode.expand _ _ _ _ _ _) as [[[[ok out] n] fb]|];
      cbn [mbind option_bind] in H; [|done].
    destruct ok; [|injection H as <- <-; by split].
    cbv zeta in H.
    assert (2 ^ LzwDecode.codeBitsWidth d <= 2 ^ 12) by (apply Z.pow_le_mono_r; lia).
    change (2 ^ 12) with 4096 in *.
    pose proof (add_size (LzwDecode.dictionary d) (LzwDecode.prevCode d) fb
                  ltac:(change MaxDictEntries with 4096; lia)) as Ha.
    pose proof (flush_sizes (Dictionary.add (LzwDecode.dictionary d)
                               (LzwDecode.prevCode d) fb).2 (LzwDecode.codeBitsWidth d)
                  Hw ltac:(lia)) as Hf.
    destruct (Dictionary.flush _ _) as [[reset dict] w']. cbn [fst snd] in Hf.
    injection H as <- <-. by split.
Qed.

Lemma body_progress N d k d' :
  decode_inv d → BitStreamReader.isEndOfStream (LzwDecode.bitStream d) = false →
  LzwDecode.body N d = Some (k, d') →
  decode_inv d' ∧ (bits_left d' < bits_left d)%nat
  ∧ BitStreamReader.sizeInBits (LzwDecode.bitStream d')
    = BitStreamReader.sizeInBits (LzwDecode.bitStream d)
  ∧ BitStreamReader.numBitsRead (LzwDecode.bitStream d')
    <= BitStreamReader.sizeInBits (LzwDecode.bitStream d).
Proof.
  intros Hinv He H. destruct (body_reads _ _ _ _ Hinv H) as (Hinv' & num & Hr).
  apply readBitsU64_progress in Hr as (Hs & _ & Hle & Hmax & Hlt).
  unfold BitStreamReader.isEndOfStream in He. rewrite Z.geb_leb in He.
  apply Z.leb_gt in He.
  destruct Hinv as [Hw _]. specialize (Hlt He ltac:(lia)).
  unfold bits_left. split_and!; [done|lia|done|lia].
Qed.

(** The fuel of [lzwDecode] is enough: more fuel changes nothing. *)
Lemma loop_fuel N fuel1 : ∀ fuel2 d,
  decode_inv d → (bits_left d < fuel1)%nat → (bits_left d < fuel2)%nat →
  LzwDecode.loop fuel1 N d = LzwDecode.loop fuel2 N d.
Proof.
  induction fuel1 as [|fuel1 IH]; intros [|fuel2] d Hinv H1 H2; try lia.
  simpl. destruct (BitStreamReader.isEndOfStream _) eqn:He; [done|].
  destruct (LzwDecode.body N d) as [[k t]|] eqn:Hb; cbn [mbind option_bind]; [|done].
  cbn [fst snd]. destruct k; [|done].
  destruct (body_progress _ _ _ _ Hinv He Hb) as (Hinv' & Hlt & _).
  apply IH; [done|lia|lia].
Qed.

(** * Base64 *)

Lemma char_at_in pre rest k c :
  rest !! k = Some c → B64.char_at (pre ++ rest) (Z.of_nat (length pre) + Z.of_nat k) = Some c.
Proof.
  intros H. unfold B64.char_at. rewrite at_lookup by lia.
  replace (Z.to_nat (Z.of_nat (length pre) + Z.of_nat k)) with (length pre + k)%nat by lia.
  rewrite <- app_assoc, lookup_app_r by lia.
  replace (length pre + k - length pre)%nat with k by lia.
  by rewrite lookup_app_l by (by eapply lookup_lt_Some).
Qed.

Lemma char_at_end pre rest :
  B64.char_at (pre ++ rest) (Z.of_nat (length pre) + Z.of_nat (length rest)) = Some 0.
Proof.
  unfold B64.char_at. rewrite at_lookup by lia.
  replace (Z.to_nat (Z.of_nat (length pre) + Z.of_nat (length rest)))
    with (length (pre ++ rest) + 0)%nat by (rewrite length_app; lia).
  by rewrite lookup_app_r, Nat.add_0_r, Nat.sub_diag by lia.
Qed.

Lemma index_char c :
  is_char c → at_ B64.B64_INDEX (size_t c) = Some (b64_value c).
Proof.
  intros Hc. unfold is_char in Hc. unfold size_t. rewrite Z.mod_small by lia.
  rewrite at_lookup by lia. unfold b64_value.
  destruct (B64.B64_INDEX !! Z.to_nat c) eqn:E; [done|].
  apply lookup_ge_None in E. exfalso.
  assert (length B64.B64_INDEX = 256%nat) as Hl by reflexivity. lia.
Qed.

Lemma store_overwrite out idx x :
  (idx < length out)%nat →
  B64.store out (Z.of_nat idx) x = Some (overwrite out idx [u8 x]).
Proof.
  intros H. unfold B64.store.
  destruct (Z.leb_spec 0 (Z.of_nat idx)); [|lia].
  destruct (Z.ltb_spec (Z.of_nat idx) (Z.of_nat (length out))); [|lia].
  cbn [andb]. unfold upd, overwrite. rewrite Nat2Z.id.
  rewrite insert_take_drop by done. simpl. by rewrite Nat.add_1_r.
Qed.

Lemma length_overwrite out idx bytes :
  (idx + length bytes <= length out)%nat →
  length (overwrite out idx bytes) = length out.
Proof.
  intros. unfold overwrite.
  rewrite !length_app, length_take, length_fmap, length_drop. lia.
Qed.

Lemma overwrite_nil out idx : overwrite out idx [] = out.
Proof. unfold overwrite. simpl. rewrite Nat.add_0_r. apply take_drop. Qed.

Lemma overwrite_cons out idx x bytes :
  (idx + S (length bytes) <= length out)%nat →
  overwrite (overwrite out idx [x]) (S idx) bytes = overwrite out idx (x :: bytes).
Proof.
  intros H. unfold overwrite at 2. simpl length.
  change (take idx out ++ (Some <$> [x]) ++ drop (idx + 1) out)
    with (take idx out ++ [Some x] ++ drop (idx + 1) out).
  rewrite app_assoc.
  assert (Hl : length (take idx out ++ [Some x]) = S idx).
  { rewrite length_app, length_take. simpl. lia. }
  unfold overwrite.
  rewrite take_app_length' by done.
  rewrite drop_app_add' by done.
  rewrite drop_drop. simpl length. rewrite <- !app_assoc. simpl.
  do 3 f_equal. f_equal. lia.
Qed.

Lemma b64_groups_bound s : (4 * length (b64_groups s) <= 3 * length s + 2)%nat.
Proof.
  remember (length s) as n eqn:Hn. revert s Hn.
  induction n as [n IH] using lt_wf_ind. intros s ->.
  destruct s as [|c0 [|c1 r1]]; simpl; try lia.
  destruct (c0 <=? 32).
  - specialize (IH (length (c1 :: r1)) ltac:(simpl; lia) _ eq_refl). simpl in IH. lia.
  - destruct r1 as [|c2 r2]; simpl; [lia|].
    destruct (b64_stop c2); simpl; [lia|].
    destruct r2 as [|c3 r3]; simpl; [lia|].
    destruct (b64_stop c3); simpl; [lia|].
    specialize (IH (length r3) ltac:(simpl; lia) _ eq_refl). lia.
Qed.

(** The loop stores the bytes of the groups. *)
Lemma loop_groups n : ∀ rest pre out idx fuel,
  (length rest <= n)%nat → Forall is_char (pre ++ rest) →
  (length rest < fuel)%nat →
  (idx + length (b64_groups rest) <= length out)%nat →
  ∃ s', B64.loop fuel (pre ++ rest) (B64.mk (Z.of_nat (length pre)) (Z.of_nat idx) out)
        = Some s'
        ∧ B64.idx s' = Z.of_nat (idx + length (b64_groups rest))
        ∧ B64.output s' = overwrite out idx (b64_groups rest).
Proof.
  induction n as [n IH] using lt_wf_ind.
  intros rest pre out idx fuel Hn Hchars Hfuel Hroom.
  destruct fuel as [|fuel]; [lia|].
  assert (Hrest : Forall is_char rest) by (by apply Forall_app in Hchars as [_ ?]).
  pose proof (char_at_end pre rest) as Hend.
  assert (Hat : ∀ k c, rest !! k = Some c →
    B64.char_at (pre ++ rest) (Z.of_nat (length pre) + Z.of_nat k) = Some c ∧ is_char c).
  { intros k c Hk. split; [by apply char_at_in|].
    eapply Forall_lookup_1; [exact Hrest|exact Hk]. }
  cbn [B64.loop B64.pos B64.idx B64.output].
  destruct rest as [|c0 rest].
  { (* the end of the string *)
    rewrite Z.add_0_r in Hend. rewrite Hend. cbn. eexists. split; [done|].
    split; [cbn; f_equal; lia|]. cbn. by rewrite overwrite_nil. }
  destruct (Hat 0%nat c0 eq_refl) as [H0 Hc0]. rewrite Z.add_0_r in H0.
  rewrite H0. cbn [mbind option_bind].
  unfold is_char in Hc0. destruct (Z.eqb_spec c0 0); [lia|].
  destruct rest as [|c1 r1].
  { (* one character is left *)
    simpl length in Hend. change (Z.of_nat 1) with 1 in Hend. rewrite Hend. cbn. eexists. split; [done|].
    split; [cbn; f_equal; lia|]. cbn. by rewrite overwrite_nil. }
  destruct (Hat 1%nat c1 eq_refl) as [H1 Hc1]. change (Z.of_nat 1) with 1 in H1.
  rewrite H1. cbn [mbind option_bind].
  pose proof Hc1 as Hc1'. unfold is_char in Hc1'. destruct (Z.eqb_spec c1 0); [lia|].
  cbn [b64_groups] in Hroom |- *.
  destruct (c0 <=? 32) eqn:Hskip.
  { (* a character up to 0x20 where a group starts *)
    destruct (IH (length (c1 :: r1)) ltac:(simpl in *; lia) (c1 :: r1) (pre ++ [c0])
                out idx fuel ltac:(done) ltac:(by rewrite <- app_assoc)
                ltac:(simpl in *; lia) Hroom) as (s' & Hl & Hi & Ho).
    rewrite <- app_assoc, length_app in Hl. simpl in Hl.
    replace (Z.of_nat (length pre) + 1) with (Z.of_nat (length pre + 1)) by lia.
    rewrite Hl. by exists s'. }
  rewrite (index_char c0) by done. rewrite (index_char c1) by done.
  cbn [mbind option_bind].
  simpl length in Hroom.
  rewrite store_overwrite by lia. cbn [mbind option_bind].
  fold (b64_byte1 c0 c1).
  destruct r1 as [|c2 r2].
  { (* two characters are left *)
    simpl length in Hend. change (Z.of_nat 2) with 2 in Hend.
    rewrite Hend. cbn. eexists. split; [done|]. cbn. split; [f_equal; lia|done]. }
  destruct (Hat 2%nat c2 eq_refl) as [H2 Hc2]. change (Z.of_nat 2) with 2 in H2.
  rewrite H2. cbn [mbind option_bind].
  pose proof Hc2 as Hc2'. unfold is_char in Hc2'. destruct (Z.eqb_spec c2 0); [lia|].
  assert (H3 : ∃ c3, B64.char_at (pre ++ c0 :: c1 :: c2 :: r2)
                       (Z.of_nat (length pre) + 3) = Some c3
                     ∧ 0 <= c3 ∧ (c3 = 0 ↔ r2 = [])
                     ∧ (∀ c r, r2 = c :: r → c3 = c ∧ is_char c)).
  { destruct r2 as [|c3 r3].
    - exists 0. simpl length in Hend. change (Z.of_nat 3) with 3 in Hend.
      split; [exact Hend|]. split; [lia|]. split; [done|]. intros; done.
    - destruct (Hat 3%nat c3 eq_refl) as [H3 Hc3]. change (Z.of_nat 3) with 3 in H3.
      exists c3. split; [exact H3|].
      unfold is_char in Hc3. split; [lia|]. split; [split; [lia|done]|].
      intros c r E. injection E as <- <-. done. }
  destruct H3 as (c3 & H3 & Hc3 & Hnil & Hcons). rewrite H3. cbn [mbind option_bind].
  destruct (Z.ltb_spec c3 0); [lia|]. cbn [orb].
  change ((c2 =? 61) || (c2 =? 46)) with (b64_stop c2).
  destruct (b64_stop c2) eqn:Hs2.
  { (* a terminator in the third place *)
    cbn. eexists. split; [done|]. cbn. split; [f_equal; lia|done]. }
  rewrite (index_char c2) by done. cbn [mbind option_bind].
  simpl length in Hroom.
  replace (Z.of_nat idx + 1) with (Z.of_nat (S idx)) by lia.
  rewrite store_overwrite by (rewrite length_overwrite; simpl; lia).
  cbn [mbind option_bind]. fold (b64_byte2 c1 c2).
  rewrite overwrite_cons by (simpl; lia).
  destruct r2 as [|c3' r3].
  { assert (c3 = 0) as -> by (by apply Hnil). cbn. eexists. split; [done|]. cbn.
    split; [f_equal; lia|done]. }
  destruct (Hcons c3' r3 eq_refl) as [E3 Hc3']. subst c3'.
  unfold is_char in Hc3'. destruct (Z.eqb_spec c3 0); [lia|]. cbn [orb].
  change ((c3 =? 61) || (c3 =? 46)) with (b64_stop c3).
  destruct (b64_stop c3) eqn:Hs3.
  { (* a terminator in the fourth place *)
    cbn. eexists. split; [done|]. cbn. split; [f_equal; lia|done]. }
  rewrite (index_char c3) by done. cbn [mbind option_bind].
  simpl length in Hroom.
  replace (Z.of_nat idx + 2) with (Z.of_nat (S (S idx))) by lia.
  rewrite store_overwrite by (rewrite length_overwrite; simpl; lia).
  cbn [mbind option_bind]. fold (b64_byte3 c2 c3).
  assert (Hroom3 : (idx + 3 + length (b64_groups r3) <= length out)%nat).
  { lia. }
  assert (Hlen2 : length (overwrite out idx [b64_byte1 c0 c1; b64_byte2 c1 c2])
                  = length out) by (apply length_overwrite; simpl; lia).
  assert (Hlen3 : length (overwrite (overwrite out idx [b64_byte1 c0 c1; b64_byte2 c1 c2])
                            (S (S idx)) [b64_byte3 c2 c3]) = length out).
  { rewrite length_overwrite by (rewrite Hlen2; simpl; lia). exact Hlen2. }
  destruct (IH (length r3) ltac:(simpl in *; lia) r3 (pre ++ [c0; c1; c2; c3])
              (overwrite (overwrite out idx [b64_byte1 c0 c1; b64_byte2 c1 c2])
                 (S (S idx)) [b64_byte3 c2 c3])
              (S (S (S idx))) fuel ltac:(done) ltac:(by rewrite <- app_assoc)
              ltac:(simpl in *; lia) ltac:(lia))
    as (s' & Hl & Hi & Ho).
  rewrite <- app_assoc, length_app in Hl. simpl in Hl.
  replace (Z.of_nat (length pre) + 4) with (Z.of_nat (length pre + 4)) by lia.
  replace (Z.of_nat idx + 3) with (Z.of_nat (S (S (S idx)))) by lia.
  rewrite Hl. exists s'. split; [done|]. split; [rewrite Hi; f_equal; simpl; lia|].
  rewrite Ho.
  rewrite overwrite_cons by (rewrite Hlen2; simpl; lia).
  rewrite <- (overwrite_cons out idx (b64_byte1 c0 c1) [b64_byte2 c1 c2]) by (simpl; lia).
  rewrite overwrite_cons by (rewrite length_overwrite; simpl; lia).
  rewrite overwrite_cons by (simpl; lia). done.
Qed.

(** * The encoder is defined, and how much it writes *)

Lemma appendBitsU64_loop_granularity n : ∀ b num w w',
  BitStreamWriter.appendBitsU64_loop n b num w = Some w' →
  BitStreamWriter.granularity w' = BitStreamWriter.granularity w.
Proof.
  induction n as [|n IH]; intros b num w w' H; simpl in H.
  - by injection H as <-.
  - bind_case H. bind_case H. apply IH in H. rewrite H.
    by eapply appendBit_granularity.
Qed.

Lemma trace_bits_snoc_length tr c sz w :
  0 <= w →
  Z.of_nat (length (trace_bits (tr ++ [(c, sz, w)])))
  = Z.of_nat (length (trace_bits tr)) + w.
Proof.
  intros. rewrite trace_bits_app, length_app. unfold trace_bits at 2. simpl.
  rewrite app_nil_r, length_code_bits. lia.
Qed.

Lemma encode_write_defined s :
  encode_inv s → LzwEncode.code s ≠ Nil →
  (BitStreamWriter.numBitsWritten (LzwEncode.bitStream s) + 12) * 2 < 2 ^ 31 →
  ∃ bs, BitStreamWriter.appendBitsU64 (LzwEncode.bitStream s) (LzwEncode.code s)
          (LzwEncode.codeBitsWidth s) = Some bs
        ∧ Wrep bs (trace_bits (LzwEncode.trace s
                     ++ [(LzwEncode.code s, Dictionary.size (LzwEncode.dictionary s),
                          LzwEncode.codeBitsWidth s)]))
        ∧ BitStreamWriter.granularity bs = 2
        ∧ BitStreamWriter.numBitsWritten bs
          = BitStreamWriter.numBitsWritten (LzwEncode.bitStream s)
            + LzwEncode.codeBitsWidth s.
Proof.
  intros [Hwf Hw Hsz Hc Hb Hg Hws] Hcn Hsmall.
  destruct (appendBitsU64_defined _ _ (LzwEncode.code s) (LzwEncode.codeBitsWidth s) Hb)
    as [bs Hbs]; [lia|rewrite Hg; lia|].
  exists bs. split; [done|].
  pose proof (appendBitsU64_Wrep _ _ _ _ _ Hb Hbs) as Hb'.
  assert (Hb'' : Wrep bs (trace_bits (LzwEncode.trace s
                     ++ [(LzwEncode.code s, Dictionary.size (LzwEncode.dictionary s),
                          LzwEncode.codeBitsWidth s)]))).
  { rewrite trace_bits_app. unfold trace_bits at 2. simpl. by rewrite app_nil_r. }
  split; [done|]. split.
  - apply appendBitsU64_loop_granularity in Hbs. by rewrite Hbs.
  - rewrite <- (wr_cnt _ _ Hb''), <- (wr_cnt _ _ Hb).
    apply trace_bits_snoc_length. lia.
Qed.

(** One trip of the encoder is defined as long as the writer has room in
    its [int] counters, and writes at most 12 bits. *)
Lemma encode_body_defined s v :
  encode_inv s → is_byte v → (bits_due s + 12) * 2 < 2 ^ 31 →
  ∃ s', LzwEncode.body s v = Some s' ∧ encode_inv s' ∧ bits_due s' <= bits_due s + 12
        ∧ LzwEncode.code s' ≠ Nil ∧ codes_due s' <= codes_due s + 1.
Proof.
  intros Hinv Hv Hsmall. pose proof Hinv as [Hwf Hw Hsz Hc Hb Hg Hws].
  pose proof (dw_size _ Hwf) as Hs. change FirstCode with 256 in *.
  unfold is_byte in Hv.
  destruct (findIndex_spec _ (LzwEncode.code s) v Hwf Hv ltac:(lia)) as (r & Hr & Hcase).
  unfold LzwEncode.body. rewrite Hr. cbn [mbind option_bind].
  unfold bits_due, codes_due in *. change FirstCode with 256 in *.
  pose proof (wr_cnt _ _ Hb) as Hcnt.
  destruct (Z.eqb_spec (LzwEncode.code s) Nil) as [Hnil|Hnn].
  - (* the first byte *)
    subst r. destruct (Z.eqb_spec v Nil) as [E|_]; [change Nil with (-1) in E; lia|].
    cbn [negb]. eexists. split; [done|]. cbn.
    destruct (Z.eqb_spec v Nil) as [E|_]; [change Nil with (-1) in E; lia|].
    split; [|split; [lia|split; [change Nil with (-1); lia|lia]]].
    constructor; cbn; try done. change Nil with (-1). lia.
  - destruct Hcase as [->|[Hrange Hent]].
    + (* a code is written *)
      change (Nil =? Nil) with true. cbn [negb].
      destruct (encode_write_defined s Hinv Hnn ltac:(lia)) as (bs & Hbs & Hb' & Hg' & Hn').
      rewrite Hbs. cbn [mbind option_bind].
      pose proof (flush_facts _ _ Hwf Hw Hsz) as (Hwf1 & Hw1 & Hfl).
      pose proof (flush_entries (LzwEncode.dictionary s) (LzwEncode.codeBitsWidth s)) as HeF.
      destruct (Dictionary.flush _ _) as [[reset d1] w1]. cbn [fst snd] in *.
      eexists. split; [done|]. cbn.
      destruct (Z.eqb_spec v Nil) as [E|_]; [change Nil with (-1) in E; lia|].
      split; [|split; [lia|split; [change Nil with (-1); lia|rewrite length_app; simpl; lia]]].
      assert (Hws' : Forall (λ x, 9 <= x.2 <= 12 ∧ 0 <= x.1.1 < x.1.2
                                  ∧ FirstCode <= x.1.2 <= 2 ^ x.2)
                       (LzwEncode.trace s
                          ++ [(LzwEncode.code s, Dictionary.size (LzwEncode.dictionary s),
                               LzwEncode.codeBitsWidth s)])).
      { apply Forall_app. split; [done|]. apply Forall_singleton. cbn.
        change Nil with (-1) in *. change FirstCode with 256. lia. }
      destruct reset; cbn [negb].
      * destruct Hfl as (_ & Hs1 & ->). change FirstCode with 256 in Hs1.
        change StartBits with 9. constructor; cbn; try done; try lia.
        change Nil with (-1). lia.
      * destruct Hfl as (Hs1 & Hlt & Hmax).
        destruct (add_spec d1 (LzwEncode.code s) v Hwf1 ltac:(lia)
                    ltac:(change Nil with (-1) in *; lia) Hv) as (HwA & HsA & _).
        constructor; cbn; try done; try lia.
        change Nil with (-1). lia.
    + (* the match goes on *)
      destruct (Z.eqb_spec r Nil) as [E|_]; [change Nil with (-1) in E; lia|].
      cbn [negb]. eexists. split; [done|]. cbn.
      destruct (Z.eqb_spec r Nil) as [E|_]; [change Nil with (-1) in E; lia|].
      split; [|split; [lia|split; [change Nil with (-1); lia|lia]]].
      constructor; cbn; try done. change Nil with (-1). lia.
Qed.

Lemma encode_loop_defined rest : ∀ s,
  encode_inv s → Forall is_byte rest →
  (bits_due s + 12 * Z.of_nat (length rest)) * 2 < 2 ^ 31 →
  ∃ s1, LzwEncode.loop rest (length rest) s = Some s1 ∧ encode_inv s1
        ∧ bits_due s1 <= bits_due s + 12 * Z.of_nat (length rest)
        ∧ (rest ≠ [] → LzwEncode.code s1 ≠ Nil)
        ∧ codes_due s1 <= codes_due s + Z.of_nat (length rest).
Proof.
  induction rest as [|v rest IH]; intros s Hinv Hbytes Hsmall.
  - exists s. simpl. split_and!; try done; lia.
  - inversion Hbytes as [|? ? Hv Hbytes']; subst. simpl length in *.
    destruct (encode_body_defined s v Hinv Hv ltac:(lia))
      as (s' & Hb & Hinv' & Hdue & Hcn & Hcd).
    destruct (IH s' Hinv' Hbytes' ltac:(lia)) as (s1 & Hl & Hinv1 & Hdue1 & Hcn1 & Hcd1).
    exists s1. simpl. rewrite Hb. cbn [mbind option_bind].
    split_and!; try done; [lia| |lia].
    intros _. destruct rest as [|v' rest']; [|by apply Hcn1].
    simpl in Hl. by injection Hl as <-.
Qed.

Lemma encode_finish_defined s :
  encode_inv s → bits_due s * 2 < 2 ^ 31 →
  ∃ sf, LzwEncode.finish s = Some sf ∧ encode_inv sf
        ∧ BitStreamWriter.numBitsWritten (LzwEncode.bitStream sf) <= bits_due s
        ∧ (LzwEncode.code s ≠ Nil →
           9 <= BitStreamWriter.numBitsWritten (LzwEncode.bitStream sf))
        ∧ Z.of_nat (length (LzwEncode.trace sf)) = codes_due s.
Proof.
  intros Hinv Hsmall. unfold LzwEncode.finish, bits_due, codes_due in *.
  destruct (Z.eqb_spec (LzwEncode.code s) Nil) as [Hnil|Hnn]; cbn [negb].
  - exists s. split_and!; try done; lia.
  - destruct (encode_write_defined s Hinv Hnn ltac:(lia)) as (bs & Hbs & Hb' & Hg' & Hn').
    rewrite Hbs. cbn [mbind option_bind]. eexists. split; [done|]. cbn.
    pose proof Hinv as [Hwf Hw Hsz Hc Hb Hg Hws].
    pose proof (dw_size _ Hwf) as Hs. change FirstCode with 256 in *.
    pose proof (wr_cnt _ _ Hb) as Hcnt.
    split; [|split; [lia|split; [lia|rewrite length_app; simpl; lia]]].
    constructor; cbn; try done.
    apply Forall_app. split; [done|]. apply Forall_singleton. cbn.
    change Nil with (-1) in *. change FirstCode with 256. lia.
Qed.

Lemma encode_inv_init w :
  Wrep w [] → BitStreamWriter.granularity w = 2 →
  encode_inv (LzwEncode.mk Nil StartBits Dictionary.new w []).
Proof.
  intros Hw Hg. constructor; cbn; try done.
  - apply new_wf.
Qed.

(** [lzwEncode] is defined on every input of fewer than [2 ^ 30 / 12]
    bytes, and writes at most 12 bits for a byte. *)
Lemma encode_run_defined S :
  Forall is_byte S → 12 * Z.of_nat (length S) < 2 ^ 30 →
  ∃ sf, LzwEncode.run S (Z.of_nat (length S)) = Some sf ∧ encode_inv sf
        ∧ BitStreamWriter.numBitsWritten (LzwEncode.bitStream sf)
          <= 12 * Z.of_nat (length S)
        ∧ (S ≠ [] → 9 <= BitStreamWriter.numBitsWritten (LzwEncode.bitStream sf))
        ∧ (length (LzwEncode.trace sf) <= length S)%nat.
Proof.
  intros Hbytes Hsmall. destruct new_Wrep as (w & Hw & Hrep & Hg).
  unfold LzwEncode.run. rewrite Hw. cbn [mbind option_bind]. rewrite Nat2Z.id.
  pose proof (encode_inv_init w Hrep Hg) as Hinv.
  pose proof (wr_cnt _ _ Hrep) as Hcnt. simpl in Hcnt.
  destruct (encode_loop_defined S _ Hinv Hbytes) as (s1 & Hl & Hinv1 & Hdue & Hcn & Hcd).
  { unfold bits_due. cbn. lia. }
  rewrite Hl. cbn [mbind option_bind].
  unfold bits_due in Hdue at 2. cbn in Hdue.
  unfold codes_due in Hcd at 2. cbn in Hcd.
  destruct (encode_finish_defined s1 Hinv1 ltac:(lia)) as (sf & Hf & Hinvf & Hn & H9 & Hc).
  exists sf. split_and!; try done; [lia| |lia]. intros Hne. apply H9. by apply Hcn.
Qed.

(** * Sequences of calls on the bit streams *)

(** ** The writer *)

Lemma nextPowerOfTwo_Some n m : nextPowerOfTwo n = Some m → 0 < n → 0 < m.
Proof.
  unfold nextPowerOfTwo. intros H Hn.
  bind_case H. apply int_chk_Some in E as [-> _].
  set (x := Z.lor _ _) in H.
  apply int_chk_Some in H as [-> _].
  assert (0 <= x); [|lia]. subst x.
  assert (Hsh : ∀ a k, 0 <= a → 0 <= Z.lor a (Z.shiftr a k)).
  { intros a k Ha. apply Z.lor_nonneg. split; [done|]. by apply Z.shiftr_nonneg. }
  repeat apply Hsh. lia.
Qed.

Lemma construct_inv c w : construct c = Some w → writer_inv w [].
Proof.
  destruct c as [|bits gran]; simpl.
  - intros H. destruct new_Wrep as (w' & Hw' & Hrep & _).
    rewrite H in Hw'. injection Hw' as <-. by left.
  - unfold BitStreamWriter.new_sized, BitStreamWriter.allocate. intros H.
    cbn [BitStreamWriter.bytesAllocated BitStreamWriter.setGranularity
         BitStreamWriter.internalInit BitStreamWriter.stream BitStreamWriter.granularity
         BitStreamWriter.currBytePos BitStreamWriter.nextBitPos
         BitStreamWriter.numBitsWritten] in H.
    bind_case H. if_case H; injection H as <-.
    + right. done.
    + left. apply Z.leb_gt in E0.
      constructor; cbn; try lia.
      * unfold BitStreamWriter.allocBytes. simpl.
        rewrite length_replicate. lia.
      * destruct (Z.geb_spec gran 2); lia.
      * intros k Hk. unfold BitStreamWriter.allocBytes. simpl.
        rewrite bit_at_zeros by done. done.
Qed.

Lemma appendBit_null w bit :
  BitStreamWriter.stream w = [] → BitStreamWriter.appendBit w bit = None.
Proof.
  intros H. unfold BitStreamWriter.appendBit. rewrite H.
  assert (at_ (@nil Z) (BitStreamWriter.currBytePos w) = None) as ->; [|done].
  unfold at_. by case_match.
Qed.

Lemma write_inv w bs o w' :
  writer_inv w bs → write w o = Some w' → writer_inv w' (bs ++ written o).
Proof.
  intros [Hw|(Hnull & -> & Hz)] H; destruct o as [bit|num bitCount];
    cbn [write written] in *.
  - left. eapply appendBit_Wrep in H; [|done].
    rewrite testbit_neg_b2z in H by (destruct Hw; lia). done.
  - left. by eapply appendBitsU64_Wrep.
  - by rewrite appendBit_null in H.
  - unfold BitStreamWriter.appendBitsU64 in H.
    destruct (Z.to_nat bitCount) as [|n]; cbn [BitStreamWriter.appendBitsU64_loop] in H.
    + injection H as <-. by right.
    + bind_case H. by rewrite appendBit_null in H.
Qed.

Lemma writes_inv ops : ∀ w bs w',
  writer_inv w bs → writes ops w = Some w' → writer_inv w' (bs ++ written_bits ops).
Proof.
  induction ops as [|o ops IH]; intros w bs w' Hw H; simpl in *.
  - injection H as <-. by rewrite app_nil_r.
  - bind_case H. rewrite app_assoc. eapply IH; [|done]. by eapply write_inv.
Qed.

(** With room in the [int] counters, every call is defined. *)
Lemma write_defined w bs o :
  Wrep w bs → (match o with AppendBit _ => True | AppendBitsU64 _ n => n <= 64 end) →
  (Z.of_nat (length (bs ++ written o))) * BitStreamWriter.granularity w < 2 ^ 31 →
  ∃ w', write w o = Some w' ∧ Wrep w' (bs ++ written o)
        ∧ BitStreamWriter.granularity w' = BitStreamWriter.granularity w.
Proof.
  intros Hw Hok Hsmall. pose proof (wr_cnt _ _ Hw) as Hcnt.
  rewrite length_app in Hsmall.
  destruct o as [bit|num n]; simpl in *.
  - destruct (appendBit_defined w bs (Z.b2z bit) Hw) as [w' H'].
    { destruct bit; simpl; lia. }
    { replace (BitStreamWriter.numBitsWritten w + 1)
        with (Z.of_nat (length bs + 1)) by lia. done. }
    exists w'. split; [done|]. split.
    + destruct (write_inv w bs (AppendBit bit) w' (or_introl Hw) H') as [H|(_ & H & _)]; [done|].
      by destruct bs.
    + by eapply appendBit_granularity.
  - rewrite length_bits_from in Hsmall.
    destruct (appendBitsU64_defined w bs num n Hw Hok) as [w' H'].
    { replace (BitStreamWriter.numBitsWritten w + Z.max 0 n)
        with (Z.of_nat (length bs + Z.to_nat n)) by lia. done. }
    exists w'. split; [done|]. split.
    + by eapply appendBitsU64_Wrep.
    + by eapply appendBitsU64_loop_granularity.
Qed.

Lemma writes_defined ops : ∀ w bs,
  Wrep w bs →
  Forall (λ o, match o with AppendBit _ => True | AppendBitsU64 _ n => n <= 64 end) ops →
  (Z.of_nat (length (bs ++ written_bits ops))) * BitStreamWriter.granularity w < 2 ^ 31 →
  ∃ w', writes ops w = Some w' ∧ Wrep w' (bs ++ written_bits ops)
        ∧ BitStreamWriter.granularity w' = BitStreamWriter.granularity w.
Proof.
  induction ops as [|o ops IH]; intros w bs Hw Hok Hsmall; simpl in *.
  - exists w. by rewrite app_nil_r.
  - inversion Hok as [|? ? Ho Hok']; subst.
    pose proof (wr_gran _ _ Hw) as Hg.
    rewrite app_assoc in Hsmall.
    destruct (write_defined w bs o Hw Ho) as (w1 & H1 & Hw1 & Hg1).
    { rewrite length_app in Hsmall. nia. }
    rewrite H1. cbn [mbind option_bind].
    destruct (IH w1 (bs ++ written o) Hw1 Hok') as (w' & H' & Hw' & Hg').
    { by rewrite Hg1. }
    exists w'. rewrite app_assoc. split_and!; try done. congruence.
Qed.

(** ** The reader *)

Lemma length_bits_of buf lo hi : length (bits_of buf lo hi) = Z.to_nat (hi - lo).
Proof. unfold bits_of. by rewrite length_fmap, length_seq. Qed.

Lemma lookup_bits_of buf lo hi k :
  (k < Z.to_nat (hi - lo))%nat →
  bits_of buf lo hi !! k = Some (bit_at buf (lo + Z.of_nat k)).
Proof.
  intros Hk. unfold bits_of. rewrite list_lookup_fmap, lookup_seq_lt by done. done.
Qed.

(** The bits that a reader has left are those of its buffer from its
    cursor to the declared bit count. *)
Lemma Rrep_bits_of r bs :
  Rrep r bs →
  bs = bits_of (BitStreamReader.stream r) (BitStreamReader.numBitsRead r)
               (BitStreamReader.sizeInBits r).
Proof.
  intros H. pose proof (rr_cnt _ _ H) as Hc.
  apply list_eq_same_length with (length bs); [rewrite length_bits_of; lia|done|].
  intros k x y Hk Hx Hy.
  rewrite lookup_bits_of in Hy by lia. injection Hy as <-.
  symmetry. by apply (rr_bits _ _ H).
Qed.

Lemma Rrep_new_any buf nbytes nbits :
  nbits <= 8 * Z.of_nat (length buf) →
  Rrep (BitStreamReader.new buf nbytes nbits) (bits_of buf 0 nbits).
Proof.
  intros Hn. constructor; cbn; try lia.
  - rewrite length_bits_of. lia.
  - intros k b Hk. pose proof (lookup_lt_Some _ _ _ Hk) as Hlt.
    rewrite length_bits_of in Hlt. rewrite lookup_bits_of in Hk by done.
    by injection Hk as <-.
Qed.

Lemma bit_at_take m buf k :
  0 <= k → k / 8 < Z.of_nat m → bit_at (take m buf) k = bit_at buf k.
Proof.
  intros Hk Hm. unfold bit_at.
  assert (0 <= k / 8) by (apply Z.div_pos; lia).
  rewrite !at_lookup by done. rewrite lookup_take_lt by lia. done.
Qed.

Lemma bits_of_take buf nbits lo :
  0 <= lo →
  bits_of (take (Z.to_nat ((nbits + 7) / 8)) buf) lo nbits = bits_of buf lo nbits.
Proof.
  intros Hlo. unfold bits_of. apply list_fmap_ext. intros i k Hk.
  apply lookup_seq in Hk as [-> Hlt]. simpl.
  apply bit_at_take; [lia|].
  assert (lo + Z.of_nat i <= nbits - 1) by lia.
  assert ((lo + Z.of_nat i) / 8 < (nbits + 7) / 8).
  { pose proof (Z.div_mod (lo + Z.of_nat i) 8 ltac:(lia)).
    pose proof (Z.mod_pos_bound (lo + Z.of_nat i) 8 ltac:(lia)).
    pose proof (Z.div_mod (nbits + 7) 8 ltac:(lia)).
    pose proof (Z.mod_pos_bound (nbits + 7) 8 ltac:(lia)). lia. }
  assert (0 <= (nbits + 7) / 8) by (apply Z.div_pos; lia). lia.
Qed.

Lemma skip_spec n : ∀ r bs,
  Rrep r bs → (n <= length bs)%nat →
  ∃ r', skip n r = Some r' ∧ Rrep r' (drop n bs)
        ∧ BitStreamReader.numBitsRead r' = BitStreamReader.numBitsRead r + Z.of_nat n.
Proof.
  induction n as [|n IH]; intros r bs Hr Hn; simpl.
  - exists r. rewrite drop_0. split_and!; try done. lia.
  - destruct bs as [|b bs]; simpl in Hn; [lia|].
    destruct (readNextBit_cons r b bs Hr) as (r1 & H1 & Hr1 & _ & _ & _ & Hn1).
    rewrite H1. cbn [mbind option_bind snd].
    destruct (IH r1 bs Hr1 ltac:(lia)) as (r' & H' & Hr' & Hn').
    exists r'. split_and!; try done. lia.
Qed.

Lemma read_spec r bs o :
  Rrep r bs → read_op_ok o →
  ∃ r', read r o = Some ((read_value o bs).1, r') ∧ Rrep r' (read_value o bs).2
        ∧ BitStreamReader.stream r' = BitStreamReader.stream r
        ∧ BitStreamReader.sizeInBits r' = BitStreamReader.sizeInBits r
        ∧ BitStreamReader.numBitsRead r' + Z.of_nat (length (read_value o bs).2)
          = BitStreamReader.numBitsRead r + Z.of_nat (length bs).
Proof.
  intros Hr Hok. destruct o as [|n]; simpl in *.
  - destruct bs as [|b bs].
    + exists r. rewrite (readNextBit_nil r Hr). done.
    + destruct (readNextBit_cons r b bs Hr) as (r1 & H1 & Hr1 & Hs & Hsz & _ & Hn1).
      exists r1. split_and!; try done; simpl; lia.
  - destruct (readBitsU64_spec r bs n Hr ltac:(lia)) as (r1 & H1 & Hr1 & Hs & Hsz & _ & Hn1).
    exists r1. rewrite H1. split_and!; try done; rewrite ?length_drop; lia.
Qed.

Lemma reads_spec ops : ∀ r bs,
  Rrep r bs → Forall read_op_ok ops →
  ∃ r', reads ops r = Some ((read_values ops bs).1, r') ∧ Rrep r' (read_values ops bs).2
        ∧ BitStreamReader.stream r' = BitStreamReader.stream r
        ∧ BitStreamReader.sizeInBits r' = BitStreamReader.sizeInBits r
        ∧ BitStreamReader.numBitsRead r' + Z.of_nat (length (read_values ops bs).2)
          = BitStreamReader.numBitsRead r + Z.of_nat (length bs).
Proof.
  induction ops as [|o ops IH]; intros r bs Hr Hok; simpl.
  - exists r. done.
  - inversion Hok as [|? ? Ho Hok']; subst.
    destruct (read_spec r bs o Hr Ho) as (r1 & H1 & Hr1 & Hs1 & Hsz1 & Hn1).
    rewrite H1. cbn [mbind option_bind fst snd].
    destruct (IH r1 _ Hr1 Hok') as (r' & H' & Hr' & Hs' & Hsz' & Hn').
    rewrite H'. cbn [mbind option_bind fst snd].
    exists r'. split_and!; try done; try congruence; lia.
Qed.

(** * The decoder on any stream *)

Lemma decode_inv_init compressed nbytes nbits :
  decode_inv (LzwDecode.init compressed nbytes nbits).
Proof. unfold decode_inv. cbn. change FirstCode with 256. change StartBits with 9. lia. Qed.

(** The decoder never stores more bytes than the capacity it is given. *)
Lemma decode_length compressed nbytes nbits N out :
  lzwDecode compressed nbytes nbits N = Some out →
  Z.of_nat (length out) <= Z.max 0 (i32 N).
Proof.
  unfold lzwDecode, LzwDecode.run. intros H.
  destruct (LzwDecode.loop _ _ _) as [d|] eqn:Hl; [|done].
  injection H as <-.
  eapply loop_out in Hl as (_ & _ & Hle); [done|done|]. cbn. lia.
Qed.





(** * The encoder and its result *)

Lemma lzwEncode_Some S n c :
  lzwEncode S n = Some c ↔
  ∃ sf, LzwEncode.run S n = Some sf
        ∧ c = mkCompressed (BitStreamWriter.stream (LzwEncode.bitStream sf))
                (u32 (BitStreamWriter.getByteCount (LzwEncode.bitStream sf)))
                (u32 (BitStreamWriter.numBitsWritten (LzwEncode.bitStream sf))).
Proof.
  unfold lzwEncode. split.
  - intros H. bind_case H. injection H as <-. eexists. done.
  - intros (sf & -> & ->). done.
Qed.

Lemma encode_bits S n sf :
  LzwEncode.run S n = Some sf →
  u32 (BitStreamWriter.numBitsWritten (LzwEncode.bitStream sf))
  = Z.of_nat (length (trace_bits (LzwEncode.trace sf))).
Proof.
  intros H. apply encode_run_Wrep in H.
  pose proof (wr_cnt _ _ H). pose proof (wr_int _ _ H).
  rewrite u32_small by lia. lia.
Qed.

Lemma visits_trip N d :
  BitStreamReader.isEndOfStream (LzwDecode.bitStream d) = false →
  visits N d (trip N d).
Proof.
  intros Hend. unfold trip.
  destruct (LzwDecode.body N d) as [[[] d']|] eqn:Hb; try apply visits_here.
  eapply visits_next; [done|done|apply visits_here].
Qed.

Lemma visits_trans N d1 d2 d3 : visits N d1 d2 → visits N d2 d3 → visits N d1 d3.
Proof.
  induction 1; [done|]. intros. eapply visits_next; eauto.
Qed.

(** * The claims *)

(** ** C1: round trip *)

(** C1, as the code has it.  For every sequence [S] of fewer than [2 ^ 31]
    bytes, decoding what [lzwEncode] gives on [S], with the byte count and
    the bit count it returns and a capacity of [length S], gives exactly
    [S]; and [lzwEncode] does give a result when [12 * length S < 2 ^ 30],
    so that the [int] counters of the writer cannot overflow. *)
Theorem lzw_round_trip (S : list Z) :
  Forall is_byte S → Z.of_nat (length S) < 2 ^ 31 →
  (12 * Z.of_nat (length S) < 2 ^ 30 → is_Some (lzwEncode S (Z.of_nat (length S))))
  ∧ ∀ c, lzwEncode S (Z.of_nat (length S)) = Some c →
         lzwDecode (buffer c) (compressedSizeBytes c) (compressedSizeBits c)
           (Z.of_nat (length S)) = Some S.
Proof.
  intros Hbytes Hlen. split.
  - intros Hsmall. destruct (encode_run_defined S Hbytes Hsmall) as (sf & Hrun & _).
    eexists. apply lzwEncode_Some. eauto.
  - intros c (sf & Hrun & ->)%lzwEncode_Some. cbn [buffer compressedSizeBytes compressedSizeBits].
    rewrite (encode_bits _ _ _ Hrun).
    destruct (decode_of_encode S (Z.of_nat (length S)) sf (length (LzwEncode.trace sf))
                (u32 (BitStreamWriter.getByteCount (LzwEncode.bitStream sf)))
                Hbytes ltac:(rewrite i32_small; lia) Hrun ltac:(lia))
      as (d & Hd & _ & _ & Heq & _).
    rewrite firstn_all in Hd. unfold lzwDecode. rewrite Hd. simpl.
    by rewrite Heq.
Qed.

Lemma lzw_round_trip_witness :
  (12 * Z.of_nat (length sample_text) < 2 ^ 30
   → is_Some (lzwEncode sample_text (Z.of_nat (length sample_text))))
  ∧ ∀ c, lzwEncode sample_text (Z.of_nat (length sample_text)) = Some c →
         lzwDecode (buffer c) (compressedSizeBytes c) (compressedSizeBits c)
           (Z.of_nat (length sample_text)) = Some sample_text.
Proof.
  apply (lzw_round_trip sample_text).
  - unfold sample_text. repeat constructor; unfold is_byte; lia.
  - vm_compute. reflexivity.
Defined.

(** C1 fails on an input of [2 ^ 31] bytes: the capacity is converted to
    [int] and is negative there, so that the decoder stores nothing. *)
Lemma lzw_round_trip_counterexample :
  let S := replicate (Z.to_nat (2 ^ 31)) 0 in
  Forall is_byte S
  ∧ ¬ ∃ c, lzwEncode S (Z.of_nat (length S)) = Some c
           ∧ lzwDecode (buffer c) (compressedSizeBytes c) (compressedSizeBits c)
               (Z.of_nat (length S)) = Some S.
Proof.
  intros S. split.
  - apply Forall_replicate. unfold is_byte. lia.
  - intros (c & _ & Hd). apply decode_length in Hd.
    assert (Hl : Z.of_nat (length S) = 2 ^ 31).
    { unfold S. rewrite length_replicate. lia. }
    rewrite Hl in Hd.
    assert (Hi : i32 (2 ^ 31) = - 2 ^ 31) by reflexivity.
    rewrite Hi in Hd. lia.
Qed.

(** ** C2: one trajectory *)

(** C2.  When [lzwDecode] reads the codes that [lzwEncode] wrote for an
    input that fits the capacity, it reads as many codes as were written,
    and for each of them the pair (dictionary size, code width) of the
    decoder is the pair that the encoder held when it wrote the code with
    [appendBitsU64]: the width is the one the decoder reads the code with,
    and the size is the one its dictionary has once the code is mirrored
    into it, where it calls [flush] (the encoder calls [flush] before [add],
    the decoder [add] before [flush]).  The input is any sequence of bytes,
    so this holds across the resets of the dictionary. *)
Theorem lzw_same_trajectory (S : list Z) (N : Z) (c : Compressed) :
  Forall is_byte S → Z.of_nat (length S) <= i32 N →
  lzwEncode S (Z.of_nat (length S)) = Some c →
  ∃ sf d,
    LzwEncode.run S (Z.of_nat (length S)) = Some sf
    ∧ LzwDecode.run (buffer c) (compressedSizeBytes c) (compressedSizeBits c) N = Some d
    ∧ LzwDecode.trace d = trajectory (LzwEncode.trace sf)
    ∧ length (LzwDecode.trace d) = length (LzwEncode.trace sf).
Proof.
  intros Hbytes HN (sf & Hrun & ->)%lzwEncode_Some.
  cbn [buffer compressedSizeBytes compressedSizeBits].
  rewrite (encode_bits _ _ _ Hrun).
  destruct (decode_of_encode S N sf (length (LzwEncode.trace sf))
              (u32 (BitStreamWriter.getByteCount (LzwEncode.bitStream sf)))
              Hbytes HN Hrun ltac:(lia))
    as (d & Hd & Ht & _).
  rewrite firstn_all in Hd, Ht.
  exists sf, d. split_and!; try done.
  rewrite Ht. unfold trajectory. by rewrite length_fmap.
Qed.

Lemma lzw_same_trajectory_witness :
  ∃ sf d,
    LzwEncode.run sample_text (Z.of_nat (length sample_text)) = Some sf
    ∧ LzwDecode.run (buffer sample_compressed) (compressedSizeBytes sample_compressed)
        (compressedSizeBits sample_compressed) 24 = Some d
    ∧ LzwDecode.trace d = trajectory (LzwEncode.trace sf)
    ∧ length (LzwDecode.trace d) = length (LzwEncode.trace sf).
Proof.
  apply (lzw_same_trajectory sample_text 24 sample_compressed).
  - unfold sample_text. repeat constructor; unfold is_byte; lia.
  - vm_compute. discriminate.
  - vm_compute. reflexivity.
Defined.

(** ** C3: the capacity cuts the output *)

(** C3 fails from a capacity of [2 ^ 31] on: the capacity is converted to
    [int] and is negative there, so that on every stream the decoder stores
    nothing; for an input of [2 ^ 31 + 1] bytes and the capacity [2 ^ 31],
    which is below its length, no decoding stores [2 ^ 31] bytes. *)
Lemma lzw_capacity_truncation_counterexample :
  let S := replicate (Z.to_nat (2 ^ 31 + 1)) 0 in
  let N := 2 ^ 31 in
  Forall is_byte S ∧ N < Z.of_nat (length S)
  ∧ (∀ compressed nbytes nbits out,
       lzwDecode compressed nbytes nbits N = Some out → out = [])
  ∧ ¬ ∃ c out, lzwEncode S (Z.of_nat (length S)) = Some c
               ∧ lzwDecode (buffer c) (compressedSizeBytes c) (compressedSizeBits c) N
                 = Some out
               ∧ Z.of_nat (length out) = N.
Proof.
  intros S N.
  assert (Hi : i32 N = - 2 ^ 31) by reflexivity.
  assert (Hnone : ∀ compressed nbytes nbits out,
            lzwDecode compressed nbytes nbits N = Some out → out = []).
  { intros compressed nbytes nbits out Hd. apply decode_length in Hd.
    rewrite Hi in Hd. destruct out; [done|simpl in Hd; lia]. }
  split; [apply Forall_replicate; unfold is_byte; lia|].
  split; [unfold S, N; rewrite length_replicate; lia|].
  split; [exact Hnone|].
  intros (c & out & _ & Hd & Hlen). apply Hnone in Hd. subst out.
  simpl in Hlen. unfold N in Hlen. lia.
Qed.

(** C3, as the code has it.  On every stream: if a decoding stores the
    bytes [out], then the decoding of the same stream with a capacity [N]
    below the length of [out] is defined and stores exactly the first [N]
    bytes of [out], no byte more.  On the stream that [lzwEncode] gives for
    an input [S] of fewer than [2 ^ 31] bytes: the decoding with a capacity
    [N] below the length of [S] is defined and stores exactly the first [N]
    bytes of [S]. *)
Theorem lzw_capacity_truncation :
  (∀ (compressed : list Z) (nbytes nbits cap N : Z) (out : list Z),
     lzwDecode compressed nbytes nbits cap = Some out →
     0 <= N < Z.of_nat (length out) →
     lzwDecode compressed nbytes nbits N = Some (take (Z.to_nat N) out)
     ∧ Z.of_nat (length (take (Z.to_nat N) out)) = N)
  ∧ (∀ (S : list Z) (c : Compressed) (N : Z),
       Forall is_byte S → Z.of_nat (length S) < 2 ^ 31 →
       lzwEncode S (Z.of_nat (length S)) = Some c →
       0 <= N < Z.of_nat (length S) →
       lzwDecode (buffer c) (compressedSizeBytes c) (compressedSizeBits c) N
       = Some (take (Z.to_nat N) S)
       ∧ Z.of_nat (length (take (Z.to_nat N) S)) = N).
Proof.
  assert (Hcut : ∀ compressed nbytes nbits cap N out,
            lzwDecode compressed nbytes nbits cap = Some out →
            0 <= N < Z.of_nat (length out) →
            lzwDecode compressed nbytes nbits N = Some (take (Z.to_nat N) out)
            ∧ Z.of_nat (length (take (Z.to_nat N) out)) = N).
  { intros compressed nbytes nbits cap N out H HN.
    pose proof (decode_length _ _ _ _ _ H) as Hle.
    assert (Hcap : i32 cap < 2 ^ 31).
    { unfold i32. pose proof (Z.mod_pos_bound (cap + 2 ^ 31) (2 ^ 32) ltac:(lia)). lia. }
    assert (Hi : i32 N = N) by (apply i32_small; lia).
    unfold lzwDecode, LzwDecode.run in *.
    destruct (LzwDecode.loop _ cap _) as [d2|] eqn:Hl; [|done].
    injection H as <-.
    destruct (loop_caps N cap _ (LzwDecode.init compressed nbytes nbits) d2
                ltac:(lia) ltac:(done) ltac:(cbn; lia) Hl)
      as (d1 & Hl1 & Hout).
    rewrite Hl1. simpl. rewrite Hout, Hi. split; [done|].
    rewrite length_take. lia. }
  split; [exact Hcut|].
  intros S c N Hbytes Hlen Henc HN.
  apply (Hcut _ _ _ (Z.of_nat (length S))); [|done].
  apply lzwEncode_Some in Henc as (sf & Hrun & ->).
  cbn [buffer compressedSizeBytes compressedSizeBits].
  rewrite (encode_bits _ _ _ Hrun).
  destruct (decode_of_encode S (Z.of_nat (length S)) sf (length (LzwEncode.trace sf))
              (u32 (BitStreamWriter.getByteCount (LzwEncode.bitStream sf)))
              Hbytes ltac:(rewrite i32_small; lia) Hrun ltac:(lia))
    as (d & Hd & _ & _ & Heq & _).
  rewrite firstn_all in Hd. unfold lzwDecode. rewrite Hd. simpl.
  by rewrite Heq.
Qed.

Lemma lzw_capacity_truncation_witness :
  lzwDecode (buffer sample_compressed) (compressedSizeBytes sample_compressed)
    (compressedSizeBits sample_compressed) 10
  = Some (take (Z.to_nat 10) sample_text)
  ∧ Z.of_nat (length (take (Z.to_nat 10) sample_text)) = 10.
Proof.
  apply (proj2 lzw_capacity_truncation sample_text sample_compressed 10).
  - unfold sample_text. repeat constructor; unfold is_byte; lia.
  - vm_compute. reflexivity.
  - vm_compute. reflexivity.
  - vm_compute. split; [discriminate|reflexivity].
Defined.

(** ** C6: the steps of the code width *)

(** C6.  For a code width [w] from 9 to 12, [flush] leaves the entries as
    they are; when the size is [2 ^ w] it adds one to the width, unless the
    width is 12, where it sets the size to 256 and the width to 9 and
    returns [true]; otherwise it changes nothing; it returns [false] in all
    cases but the reset.  The size is [2 ^ w] at 512, 1024, 2048 and 4096. *)
Theorem flush_width_steps (d : Dictionary.t) (w : Z) :
  9 <= w <= 12 →
  Dictionary.flush d w
  = (if Dictionary.size d =? 2 ^ w then
       if w =? 12 then (true, Dictionary.mk 256 (Dictionary.entries d), 9)
       else (false, d, w + 1)
     else (false, d, w))
  ∧ (2 ^ 9 = 512 ∧ 2 ^ 10 = 1024 ∧ 2 ^ 11 = 2048 ∧ 2 ^ 12 = 4096).
Proof.
  intros Hw. split; [|done].
  unfold Dictionary.flush. rewrite (proj1 (pow2_width w Hw)).
  destruct (Dictionary.size d =? 2 ^ w); [|done].
  change MaxDictBits with 12.
  destruct (Z.eqb_spec w 12) as [->|Hne]; [reflexivity|].
  destruct (Z.gtb_spec (w + 1) 12); [lia|done].
Qed.

Lemma flush_width_steps_witness :
  Dictionary.flush (Dictionary.mk 512 (Dictionary.entries Dictionary.new)) 9
  = (if 512 =? 2 ^ 9 then
       if 9 =? 12 then (true, Dictionary.mk 256 (Dictionary.entries Dictionary.new), 9)
       else (false, Dictionary.mk 512 (Dictionary.entries Dictionary.new), 9 + 1)
     else (false, Dictionary.mk 512 (Dictionary.entries Dictionary.new), 9))
  ∧ (2 ^ 9 = 512 ∧ 2 ^ 10 = 1024 ∧ 2 ^ 11 = 2048 ∧ 2 ^ 12 = 4096).
Proof.
  apply (flush_width_steps (Dictionary.mk 512 (Dictionary.entries Dictionary.new)) 9).
  lia.
Defined.

(** ** C7: a stream that ends early *)




(** ** C8: the walk along the parents *)

(** C8.  In every state that the decoder goes through on a stream of
    [lzwEncode], and for every code below the size of the dictionary: the
    entry of the code is a root, or its parent is a smaller code; the walk
    of [outputSequence] ends within the 4096 cells of its scratch array; the
    bytes it collects are, reversed, the bytes of the entry, first byte
    first; and [outputSequence] writes these bytes in this order, as far as
    the capacity allows, and gives the first of them as [firstByte]. *)
Theorem outputSequence_walk_bounded (S : list Z) (N : Z) (c : Compressed)
    (d : LzwDecode.locals) (code : Z) :
  Forall is_byte S → Z.of_nat (length S) <= i32 N →
  lzwEncode S (Z.of_nat (length S)) = Some c →
  visits N (LzwDecode.init (buffer c) (compressedSizeBytes c) (compressedSizeBits c)) d →
  0 <= code < Dictionary.size (LzwDecode.dictionary d) →
  let dict := LzwDecode.dictionary d in
  (∃ e, Dictionary.entry dict code = Some e
        ∧ (if code <? FirstCode then Dictionary.code e = Nil
           else 0 <= Dictionary.code e < code))
  ∧ ∃ sequence,
      outputSequence_walk dict (Z.to_nat MaxDictEntries) code [] = Some sequence
      ∧ 1 <= Z.of_nat (length sequence) <= MaxDictEntries
      ∧ rev sequence = str dict code
      ∧ ∀ out cap n,
          ∃ fb, head (str dict code) = Some fb
                ∧ outputSequence dict code out cap n
                  = Some (let '(b, o, m) := emit_list (str dict code) out cap n in
                          (b, o, m, fb)).
Proof.
  intros Hbytes HN (sf & Hrun & ->)%lzwEncode_Some Hv Hcode dict.
  cbn [buffer compressedSizeBytes compressedSizeBits] in Hv.
  rewrite (encode_bits _ _ _ Hrun) in Hv.
  destruct (decode_of_encode S N sf (length (LzwEncode.trace sf))
              (u32 (BitStreamWriter.getByteCount (LzwEncode.bitStream sf)))
              Hbytes HN Hrun ltac:(lia))
    as (_ & _ & _ & _ & _ & _ & Hwf).
  rewrite firstn_all in Hwf. specialize (Hwf d Hv).
  change (dict_wf dict) in Hwf. change (0 <= code < Dictionary.size dict) in Hcode.
  clearbody dict.
  pose proof (dw_size _ Hwf) as Hsz.
  split.
  - destruct (wf_entry_cases dict code Hwf Hcode) as [[Hlt He]|[Hge (p & v & He & Hp & _)]].
    + eexists. split; [done|]. destruct (Z.ltb_spec code FirstCode); [done|lia].
    + eexists. split; [done|]. destruct (Z.ltb_spec code FirstCode); [lia|done].
  - destruct (walk_defined dict Hwf (Z.to_nat code) code (Z.to_nat MaxDictEntries) [])
      as [sequence Hw]; [done|lia| |].
    { pose proof (depth_bound_max code ltac:(change MaxDictEntries with 4096 in *; lia)).
      lia. }
    exists sequence. split; [done|].
    pose proof (walk_entry_bytes _ _ _ _ _ Hw) as Hs. rewrite app_nil_l in Hs.
    fold (str dict code) in Hs.
    assert (Hrev : rev sequence = str dict code) by (rewrite Hs; apply rev_involutive).
    split_and!.
    + pose proof (str_nonempty dict code Hwf Hcode) as Hne.
      rewrite <- Hrev in Hne. rewrite <- (length_rev sequence).
      destruct (rev sequence); [done|simpl; lia].
    + rewrite <- (length_rev sequence), Hrev. unfold str.
      pose proof (entry_bytes_length dict (Z.to_nat MaxDictEntries) code). lia.
    + done.
    + intros out cap n. by apply outputSequence_wf.
Qed.

Lemma outputSequence_walk_bounded_witness :
  let d := trip 24 (trip 24 (LzwDecode.init (buffer sample_compressed) 18 144)) in
  let dict := LzwDecode.dictionary d in
  (∃ e, Dictionary.entry dict 256 = Some e
        ∧ (if 256 <? FirstCode then Dictionary.code e = Nil
           else 0 <= Dictionary.code e < 256))
  ∧ ∃ sequence,
      outputSequence_walk dict (Z.to_nat MaxDictEntries) 256 [] = Some sequence
      ∧ 1 <= Z.of_nat (length sequence) <= MaxDictEntries
      ∧ rev sequence = str dict 256
      ∧ ∀ out cap n,
          ∃ fb, head (str dict 256) = Some fb
                ∧ outputSequence dict 256 out cap n
                  = Some (let '(b, o, m) := emit_list (str dict 256) out cap n in
                          (b, o, m, fb)).
Proof.
  intros d.
  apply (outputSequence_walk_bounded sample_text 24 sample_compressed d 256).
  - unfold sample_text. repeat constructor; unfold is_byte; lia.
  - vm_compute. discriminate.
  - vm_compute. reflexivity.
  - eapply visits_next; [vm_compute; reflexivity|vm_compute; reflexivity|].
    eapply visits_next; [vm_compute; reflexivity|vm_compute; reflexivity|].
    apply visits_here.
  - vm_compute. split; [discriminate|reflexivity].
Defined.

(** ** C4: what is written is read *)

(** C4.  Take a writer from either constructor and any calls of
    [appendBit] and [appendBitsU64] on it, then a call [appendBitsU64 v n]
    with [n] from 1 to 64.  Bit [k] of the buffer is then the [k]-th bit
    written, in the order of writing, the least significant bit of a byte
    first, and every bit of the buffer after the last bit written is zero.
    A reader over this buffer that has read as many bits as were written
    before the last call gives [v mod 2 ^ n] on [readBitsU64 n]. *)
Theorem bits_write_then_read (ctor : writer_ctor) (ops : list write_op) (v n : Z)
    (w w' : BitStreamWriter.t) (nbytes : Z) :
  1 <= n <= 64 →
  construct ctor ≫= writes ops = Some w →
  BitStreamWriter.appendBitsU64 w v n = Some w' →
  let bits := written_bits ops ++ bits_from (Z.to_nat n) 0 (u64 v) in
  BitStreamWriter.numBitsWritten w = Z.of_nat (length (written_bits ops))
  ∧ BitStreamWriter.numBitsWritten w' = BitStreamWriter.numBitsWritten w + n
  ∧ (∀ k, 0 <= k →
       bit_at (BitStreamWriter.stream w') k = default false (bits !! Z.to_nat k))
  ∧ ∃ r r',
      skip (Z.to_nat (BitStreamWriter.numBitsWritten w))
           (BitStreamReader.new (BitStreamWriter.stream w') nbytes
              (BitStreamWriter.numBitsWritten w')) = Some r
      ∧ BitStreamReader.numBitsRead r = BitStreamWriter.numBitsWritten w
      ∧ BitStreamReader.readBitsU64 r n = Some (v mod 2 ^ n, r').
Proof.
  intros Hn Hw Hw' bits.
  destruct (construct ctor) as [w0|] eqn:Hc; [|done]. cbn [mbind option_bind] in Hw.
  pose proof (writes_inv ops w0 [] w (construct_inv _ _ Hc) Hw) as Hinv.
  rewrite app_nil_l in Hinv.
  destruct Hinv as [Hrep|(Hnull & _)].
  2:{ unfold BitStreamWriter.appendBitsU64 in Hw'.
      destruct (Z.to_nat n) as [|m] eqn:Hm; [lia|].
      cbn [BitStreamWriter.appendBitsU64_loop] in Hw'.
      bind_case Hw'. by rewrite appendBit_null in Hw'. }
  pose proof (appendBitsU64_Wrep _ _ _ _ _ Hrep Hw') as Hrep'. fold bits in Hrep'.
  pose proof (wr_cnt _ _ Hrep) as Hcnt. pose proof (wr_cnt _ _ Hrep') as Hcnt'.
  assert (Hlen : Z.of_nat (length bits) = Z.of_nat (length (written_bits ops)) + n).
  { unfold bits. rewrite length_app, length_bits_from. lia. }
  split; [lia|]. split; [lia|]. split; [apply (wr_bits _ _ Hrep')|].
  pose proof (Rrep_new (BitStreamWriter.stream w') bits nbytes
                (BitStreamWriter.numBitsWritten w') (wr_bits _ _ Hrep') ltac:(lia)
                ltac:(pose proof (Wrep_covers _ _ Hrep'); lia)) as Hr0.
  rewrite <- Hcnt', Nat2Z.id, firstn_all in Hr0.
  destruct (skip_spec (Z.to_nat (BitStreamWriter.numBitsWritten w)) _ _ Hr0)
    as (r & Hskip & Hr & Hnr).
  { unfold bits. rewrite length_app. lia. }
  rewrite <- Hcnt, Nat2Z.id in Hr. unfold bits in Hr. rewrite drop_app_length in Hr.
  destruct (readBitsU64_spec r _ n Hr) as (r' & Hread & _).
  { rewrite length_bits_from. lia. }
  exists r, r'. rewrite <- Hcnt'. split; [done|].
  split; [cbn in Hnr; lia|].
  rewrite Hread. do 2 f_equal.
  rewrite <- (length_bits_from (Z.to_nat n) 0 (u64 v)) at 1. rewrite firstn_all.
  rewrite Z_of_bits_from_0. rewrite Z2Nat.id by lia. unfold u64.
  apply Z.mod_mod_divide. exists (2 ^ (64 - n)).
  rewrite <- Z.pow_add_r by lia. f_equal. lia.
Qed.

Lemma bits_write_then_read_witness :
  let w := BitStreamWriter.mk [11; 0; 0; 0; 0; 0; 0; 0] 8 2 0 4 4 in
  let w' := BitStreamWriter.mk [203; 18; 0; 0; 0; 0; 0; 0] 8 2 1 5 13 in
  let bits := written_bits [AppendBit true; AppendBitsU64 5 3]
              ++ bits_from (Z.to_nat 9) 0 (u64 300) in
  BitStreamWriter.numBitsWritten w
  = Z.of_nat (length (written_bits [AppendBit true; AppendBitsU64 5 3]))
  ∧ BitStreamWriter.numBitsWritten w' = BitStreamWriter.numBitsWritten w + 9
  ∧ (∀ k, 0 <= k →
       bit_at (BitStreamWriter.stream w') k = default false (bits !! Z.to_nat k))
  ∧ ∃ r r',
      skip (Z.to_nat (BitStreamWriter.numBitsWritten w))
           (BitStreamReader.new (BitStreamWriter.stream w') 2
              (BitStreamWriter.numBitsWritten w')) = Some r
      ∧ BitStreamReader.numBitsRead r = BitStreamWriter.numBitsWritten w
      ∧ BitStreamReader.readBitsU64 r 9 = Some (300 mod 2 ^ 9, r').
Proof.
  intros w w'.
  apply (bits_write_then_read (Sized 64 2) [AppendBit true; AppendBitsU64 5 3] 300 9 w w' 2).
  - lia.
  - vm_compute. reflexivity.
  - vm_compute. reflexivity.
Defined.

(** ** C5: the reader stays within the declared bits *)

(** C5.  Take a reader over a buffer that holds the declared [nbits] bits,
    whatever [nbytes] says and however long the buffer is, and any calls of
    [readNextBit] and of [readBitsU64] with at most 64 bits.  Every call is
    defined and gives what the bits below [nbits] determine; the number of
    bits read never exceeds [nbits]; the calls give the same on the buffer
    cut after the last byte that [nbits] covers, so that no byte beyond it
    is read; and a [readBitsU64] that asks for more bits than are left
    gives the value of the bits that are left and ends the stream. *)
Theorem reader_stays_within_bits (buf : list Z) (nbytes nbits : Z) (ops : list read_op) :
  nbits <= 8 * Z.of_nat (length buf) → Forall read_op_ok ops →
  let bits := bits_of buf 0 nbits in
  ∃ r,
    reads ops (BitStreamReader.new buf nbytes nbits) = Some ((read_values ops bits).1, r)
    ∧ 0 <= BitStreamReader.numBitsRead r <= Z.max 0 nbits
    ∧ (∃ r1, reads ops (BitStreamReader.new (take (Z.to_nat ((nbits + 7) / 8)) buf)
                          nbytes nbits)
             = Some ((read_values ops bits).1, r1)
             ∧ BitStreamReader.numBitsRead r1 = BitStreamReader.numBitsRead r)
    ∧ ∀ n, nbits - BitStreamReader.numBitsRead r < n →
           nbits - BitStreamReader.numBitsRead r <= 64 →
           ∃ r2, BitStreamReader.readBitsU64 r n
                 = Some (Z_of_bits (bits_of buf (BitStreamReader.numBitsRead r) nbits), r2)
                 ∧ BitStreamReader.numBitsRead r2
                   = Z.max (BitStreamReader.numBitsRead r) nbits
                 ∧ BitStreamReader.isEndOfStream r2 = true.
Proof.
  intros Hn Hok bits.
  pose proof (Rrep_new_any buf nbytes nbits Hn) as Hr0. fold bits in Hr0.
  destruct (reads_spec ops _ _ Hr0 Hok) as (r & Hreads & Hr & Hs & Hsz & Hcons).
  cbn [BitStreamReader.new BitStreamReader.stream BitStreamReader.sizeInBits
       BitStreamReader.numBitsRead] in Hs, Hsz, Hcons.
  assert (Hlen : Z.of_nat (length bits) = Z.max 0 nbits).
  { unfold bits. rewrite length_bits_of. lia. }
  pose proof (rr_cnt _ _ Hr) as Hleft. rewrite Hsz in Hleft.
  pose proof (rr_num _ _ Hr) as Hnum. pose proof (rr_bit _ _ Hr). pose proof (rr_pos _ _ Hr).
  exists r. split; [done|]. split; [lia|]. split.
  - assert (Hn' : nbits <= 8 * Z.of_nat (length (take (Z.to_nat ((nbits + 7) / 8)) buf))).
    { rewrite length_take.
      pose proof (Z.div_mod (nbits + 7) 8 ltac:(lia)).
      pose proof (Z.mod_pos_bound (nbits + 7) 8 ltac:(lia)). lia. }
    pose proof (Rrep_new_any _ nbytes nbits Hn') as Hr0'.
    rewrite bits_of_take in Hr0' by lia. fold bits in Hr0'.
    destruct (reads_spec ops _ _ Hr0' Hok) as (r1 & Hreads1 & _ & _ & _ & Hcons1).
    exists r1. split; [done|]. cbn in Hcons1. lia.
  - intros n Hlt H64.
    destruct (readBitsU64_spec r _ n Hr ltac:(lia)) as (r2 & Hread & Hr2 & _ & Hsz2 & _ & Hn2).
    exists r2. rewrite Hread.
    rewrite firstn_all2 by lia. rewrite drop_ge in Hr2 by lia.
    rewrite (Rrep_bits_of _ _ Hr) at 1. rewrite Hs, Hsz.
    split; [done|]. split; [lia|]. by apply Rrep_nil_end.
Qed.

Lemma reader_stays_within_bits_witness :
  let buf := [165; 60; 255] in
  let ops := [ReadNextBit; ReadBitsU64 5; ReadBitsU64 64; ReadNextBit] in
  let bits := bits_of buf 0 13 in
  ∃ r,
    reads ops (BitStreamReader.new buf 3 13) = Some ((read_values ops bits).1, r)
    ∧ 0 <= BitStreamReader.numBitsRead r <= Z.max 0 13
    ∧ (∃ r1, reads ops (BitStreamReader.new (take (Z.to_nat ((13 + 7) / 8)) buf) 3 13)
             = Some ((read_values ops bits).1, r1)
             ∧ BitStreamReader.numBitsRead r1 = BitStreamReader.numBitsRead r)
    ∧ ∀ n, 13 - BitStreamReader.numBitsRead r < n →
           13 - BitStreamReader.numBitsRead r <= 64 →
           ∃ r2, BitStreamReader.readBitsU64 r n
                 = Some (Z_of_bits (bits_of buf (BitStreamReader.numBitsRead r) 13), r2)
                 ∧ BitStreamReader.numBitsRead r2
                   = Z.max (BitStreamReader.numBitsRead r) 13
                 ∧ BitStreamReader.isEndOfStream r2 = true.
Proof.
  intros buf ops.
  apply (reader_stays_within_bits buf 3 13 ops).
  - vm_compute. discriminate.
  - unfold ops. repeat constructor; simpl; lia.
Defined.

(** ** C9 and C10: Base64 *)

Lemma reserved_small len :
  0 <= len < 2 ^ 64 →
  B64.reserved len = 3 * (1 + Z.shiftr len 2) + 1
  ∧ 3 * len + 7 <= 4 * B64.reserved len.
Proof.
  intros Hlen. unfold B64.reserved, size_t.
  rewrite Z.shiftr_div_pow2 by lia. change (2 ^ 2) with 4.
  pose proof (Z.div_mod len 4 ltac:(lia)). pose proof (Z.mod_pos_bound len 4 ltac:(lia)).
  rewrite Z.mod_small by lia. lia.
Qed.

Lemma buffer_tail (R g : nat) :
  (g < R)%nat →
  drop g (upd (replicate R (@None Z)) (Z.of_nat R - 1) (Some 0))
  = replicate (R - g - 1) None ++ [Some 0].
Proof.
  intros Hg. unfold upd.
  replace (Z.to_nat (Z.of_nat R - 1)) with (R - 1)%nat by lia.
  rewrite insert_replicate_lt by lia.
  rewrite drop_app_le by (rewrite length_replicate; lia).
  rewrite drop_replicate.
  replace (R - Datatypes.S (R - 1))%nat with 0%nat by lia. simpl.
  do 2 f_equal. lia.
Qed.

(** What [b64Decode] does on a string of [len] characters or fewer. *)
Lemma b64_run (s : list Z) (len : Z) :
  Forall is_char s → 0 <= len < 2 ^ 64 → Z.of_nat (length s) <= len →
  ∃ st, B64.run s len = Some st
        ∧ B64.idx st = Z.of_nat (length (b64_groups s))
        ∧ Z.of_nat (length (b64_groups s)) < B64.reserved len
        ∧ B64.output st
          = (Some <$> b64_groups s)
              ++ replicate (Z.to_nat (B64.reserved len) - length (b64_groups s) - 1) None
              ++ [Some 0].
Proof.
  intros Hs Hlen Hle. destruct (reserved_small len Hlen) as [Hres Hbig].
  pose proof (b64_groups_bound s) as Hb.
  assert (Hlt : Z.of_nat (length (b64_groups s)) < B64.reserved len) by lia.
  unfold B64.run.
  replace (B64.reserved len - 1) with (Z.of_nat (Z.to_nat (B64.reserved len)) - 1) by lia.
  set (R := Z.to_nat (B64.reserved len)).
  destruct (loop_groups (length s) s [] (upd (replicate R None) (Z.of_nat R - 1) (Some 0))
              0 (Datatypes.S (length s)))
    as (st & Hloop & Hidx & Ho); [done|done|lia| |].
  { unfold upd. rewrite length_insert, length_replicate. lia. }
  exists st. split; [exact Hloop|]. split; [by rewrite Hidx|]. split; [done|].
  rewrite Ho. unfold overwrite. rewrite take_0, app_nil_l. f_equal.
  rewrite Nat.add_0_l. apply buffer_tail. lia.
Qed.

Lemma b64Decode_stores (s : list Z) (len : Z) :
  Forall is_char s → 0 < len < 2 ^ 64 → Z.of_nat (length s) <= len →
  b64Decode (Some s) len true true
  = Some (B64.reserved len,
          Some ((Some <$> b64_groups s)
                  ++ replicate (Z.to_nat (B64.reserved len) - length (b64_groups s) - 1) None
                  ++ [Some 0])).
Proof.
  intros Hs Hlen Hle. unfold b64Decode.
  destruct (Z.eqb_spec len 0) as [->|_]; [lia|]. cbn [negb orb].
  destruct (b64_run s len Hs ltac:(lia) Hle) as (st & Hrun & _ & _ & Hout).
  rewrite Hrun. cbn [mbind option_bind]. by rewrite Hout.
Qed.

(** C9 fails where a group of four characters has begun: the space in
    the second place of "Q QQ" is decoded as six zero bits, where "QQQ"
    gives other bytes; and the two dots at the head of "..AA" are decoded
    as 62 and do not end the decoding. *)
Lemma b64_decodes_groups_counterexample :
  (∃ out, b64Decode (Some [81; 32; 81; 81]) 4 true true = Some (7, Some out)
          ∧ take 3 out = [Some 64; Some 4; Some 16])
  ∧ (∃ out, b64Decode (Some [81; 81; 81]) 4 true true = Some (7, Some out)
            ∧ take 3 out = [Some 65; Some 4; None])
  ∧ (∃ out, b64Decode (Some [46; 46; 65; 65]) 4 true true = Some (7, Some out)
            ∧ take 3 out = [Some 251; Some 224; Some 0]).
Proof.
  split_and!; (eexists; split; [vm_compute; reflexivity|reflexivity]).
Qed.

(** C9, as the code has it.  On a string of characters of at most [len]
    characters, [b64Decode] stores the bytes of [b64_groups]: a character
    up to 0x20 is skipped where a group of four would begin, and only
    there; a ['='] or a ['.'] ends the decoding in the third or the fourth
    place of a group, and only there; every other character goes through
    the table of six-bit values, whatever it is.  The cells after these
    bytes are left as allocated, but for the last one, which holds zero. *)
Theorem b64_decodes_groups (s : list Z) (len : Z) :
  Forall is_char s → 0 < len < 2 ^ 64 → Z.of_nat (length s) <= len →
  b64Decode (Some s) len true true
  = Some (B64.reserved len,
          Some ((Some <$> b64_groups s)
                  ++ replicate (Z.to_nat (B64.reserved len) - length (b64_groups s) - 1) None
                  ++ [Some 0])).
Proof.
  intros Hs Hlen Hle. unfold b64Decode.
  destruct (Z.eqb_spec len 0) as [->|_]; [lia|]. cbn [negb orb].
  destruct (b64_run s len Hs ltac:(lia) Hle) as (st & Hrun & _ & _ & Hout).
  rewrite Hrun. cbn [mbind option_bind]. by rewrite Hout.
Qed.

Lemma b64_decodes_groups_witness :
  b64Decode (Some [32; 81; 85; 74; 68; 81; 81; 61; 61]) 9 true true
  = Some (B64.reserved 9,
          Some ((Some <$> b64_groups [32; 81; 85; 74; 68; 81; 81; 61; 61])
                  ++ replicate (Z.to_nat (B64.reserved 9)
                                - length (b64_groups [32; 81; 85; 74; 68; 81; 81; 61; 61]) - 1)
                       None
                  ++ [Some 0])).
Proof.
  apply (b64_decodes_groups [32; 81; 85; 74; 68; 81; 81; 61; 61] 9).
  - repeat constructor; unfold is_char; lia.
  - lia.
  - vm_compute. discriminate.
Defined.

(** C10 fails when the allocation fails: with both pointers set and
    [len] at 4, the call returns 0, not 7. *)
Lemma b64_returns_reserved_counterexample :
  b64Decode (Some [81; 85; 74; 68]) 4 true false = Some (0, None)
  ∧ 3 * (1 + Z.shiftr 4 2) + 1 = 7.
Proof. split; reflexivity. Qed.

(** C10, as the code has it.  [b64Decode] returns 0 and hands out no
    buffer when [encoded] or [decoded] is null, when [len] is 0, and when
    the allocation fails.  Otherwise, on a string of characters of at most
    [len] characters, it returns [3 * (1 + (len >> 2)) + 1], the size of the
    buffer that it hands out, and this is more than the number of the bytes
    that it has decoded. *)
Theorem b64_returns_reserved :
  (∀ encoded len decoded malloc_ok,
     encoded = None ∨ decoded = false ∨ len = 0 ∨ malloc_ok = false →
     b64Decode encoded len decoded malloc_ok = Some (0, None))
  ∧ (∀ s len,
       Forall is_char s → 0 < len < 2 ^ 64 → Z.of_nat (length s) <= len →
       ∃ out,
         b64Decode (Some s) len true true = Some (3 * (1 + Z.shiftr len 2) + 1, Some out)
         ∧ Z.of_nat (length out) = 3 * (1 + Z.shiftr len 2) + 1
         ∧ take (length (b64_groups s)) out = Some <$> b64_groups s
         ∧ Z.of_nat (length (b64_groups s)) < 3 * (1 + Z.shiftr len 2) + 1).
Proof.
  split.
  - intros encoded len decoded malloc_ok H. unfold b64Decode.
    destruct encoded as [s|]; [|done].
    destruct decoded; cbn [negb orb]; [|done].
    destruct (Z.eqb_spec len 0); [done|].
    destruct malloc_ok; cbn [negb]; [|done].
    destruct H as [?|[?|[?|?]]]; done.
  - intros s len Hs Hlen Hle.
    destruct (reserved_small len ltac:(lia)) as [Hres _].
    destruct (b64_run s len Hs ltac:(lia) Hle) as (st & _ & _ & Hlt & _).
    eexists. rewrite <- Hres. split; [by apply b64Decode_stores|].
    split_and!.
    + rewrite !length_app, length_fmap, length_replicate. simpl. lia.
    + rewrite take_app_length'; [done|by rewrite length_fmap].
    + done.
Qed.

Lemma b64_returns_reserved_witness :
  ∃ out,
    b64Decode (Some [81; 85; 74; 68]) 4 true true = Some (3 * (1 + Z.shiftr 4 2) + 1, Some out)
    ∧ Z.of_nat (length out) = 3 * (1 + Z.shiftr 4 2) + 1
    ∧ take (length (b64_groups [81; 85; 74; 68])) out = Some <$> b64_groups [81; 85; 74; 68]
    ∧ Z.of_nat (length (b64_groups [81; 85; 74; 68])) < 3 * (1 + Z.shiftr 4 2) + 1.
Proof.
  apply (proj2 b64_returns_reserved [81; 85; 74; 68] 4).
  - repeat constructor; unfold is_char; lia.
  - lia.
  - vm_compute. discriminate.
Defined.

(** * More of the code *)

(** ** [nextPowerOfTwo] *)

Lemma lor_shiftr_bit x k i :
  0 <= i → 0 <= k →
  Z.testbit (Z.lor x (Z.shiftr x k)) i = Z.testbit x i || Z.testbit x (i + k).
Proof. intros. by rewrite Z.lor_spec, Z.shiftr_spec. Qed.

Lemma window_step m x k :
  0 < k → window m x k → window m (Z.lor x (Z.shiftr x k)) (2 * k).
Proof.
  intros Hk Hx i Hi. rewrite lor_shiftr_bit by lia. rewrite orb_true_iff.
  rewrite (Hx i Hi), (Hx (i + k) ltac:(lia)). split.
  - intros [(j & Hj & Hb)|(j & Hj & Hb)].
    + exists j. split; [lia|done].
    + exists (k + j). split; [lia|]. by rewrite Z.add_assoc.
  - intros (j & Hj & Hb). destruct (Z.lt_ge_cases j k).
    + left. exists j. split; [lia|done].
    + right. exists (j - k). split; [lia|].
      replace (i + k + (j - k)) with (i + j) by lia. done.
Qed.

Lemma window_smear m :
  window m (fold_left (λ n i, Z.lor n (Z.shiftr n i)) [1; 2; 4; 8; 16] m) 32.
Proof.
  cbn [fold_left].
  apply (window_step m _ 16); [lia|]. apply (window_step m _ 8); [lia|].
  apply (window_step m _ 4); [lia|]. apply (window_step m _ 2); [lia|].
  apply (window_step m _ 1); [lia|].
  intros i Hi. split.
  - intros Hb. exists 0. split; [lia|]. by rewrite Z.add_0_r.
  - intros (j & Hj & Hb). by replace (i + j) with i in Hb by lia.
Qed.

Lemma smear_ones m :
  0 < m < 2 ^ 31 →
  fold_left (λ n i, Z.lor n (Z.shiftr n i)) [1; 2; 4; 8; 16] m = Z.ones (Z.log2 m + 1).
Proof.
  intros Hm. pose proof (window_smear m) as Hw.
  pose proof (Z.log2_nonneg m) as H0.
  assert (Hl : Z.log2 m < 31) by (apply Z.log2_lt_pow2; lia).
  apply Z.bits_inj'. intros i Hi.
  destruct (Z.lt_ge_cases i (Z.log2 m + 1)) as [Hlt|Hge].
  - rewrite Z.ones_spec_low by lia. apply (Hw i Hi).
    exists (Z.log2 m - i). split; [lia|].
    replace (i + (Z.log2 m - i)) with (Z.log2 m) by lia. apply Z.bit_log2. lia.
  - rewrite Z.ones_spec_high by lia.
    destruct (Z.testbit _ i) eqn:Hb; [|done].
    apply (Hw i Hi) in Hb as (j & Hj & Hb).
    rewrite Z.bits_above_log2 in Hb by lia. done.
Qed.

(** What [nextPowerOfTwo] gives, from 1 to [INT_MAX]. *)
Lemma nextPowerOfTwo_spec n :
  1 <= n < 2 ^ 31 →
  if n <=? 2 ^ 30 then
    ∃ k, 0 <= k <= 30 ∧ nextPowerOfTwo n = Some (2 ^ k) ∧ n <= 2 ^ k < 2 * n
  else nextPowerOfTwo n = None.
Proof.
  intros Hn. unfold nextPowerOfTwo.
  rewrite int_chk_ok by lia. cbn [mbind option_bind].
  destruct (Z.eq_dec n 1) as [->|Hne].
  { exists 0. split; [lia|]. split; [reflexivity|lia]. }
  rewrite smear_ones by lia.
  pose proof (Z.log2_nonneg (n - 1)) as H0.
  pose proof (Z.log2_spec (n - 1) ltac:(lia)) as [Hlo Hhi].
  rewrite Z.ones_equiv. replace (Z.pred (2 ^ (Z.log2 (n - 1) + 1)) + 1)
    with (2 ^ (Z.log2 (n - 1) + 1)) by lia.
  replace (Z.succ (Z.log2 (n - 1))) with (Z.log2 (n - 1) + 1) in Hhi by lia.
  assert (Hp : 2 ^ (Z.log2 (n - 1) + 1) = 2 * 2 ^ Z.log2 (n - 1)).
  { rewrite Z.pow_add_r by lia. lia. }
  destruct (Z.leb_spec n (2 ^ 30)) as [Hle|Hgt].
  - assert (Hl : Z.log2 (n - 1) < 30) by (apply Z.log2_lt_pow2; lia).
    exists (Z.log2 (n - 1) + 1). split; [lia|].
    assert (2 ^ (Z.log2 (n - 1) + 1) <= 2 ^ 30) by (apply Z.pow_le_mono_r; lia).
    rewrite int_chk_ok by lia. split; [done|lia].
  - assert (Hl : 30 <= Z.log2 (n - 1)) by (apply Z.log2_le_pow2; lia).
    assert (2 ^ 31 <= 2 ^ (Z.log2 (n - 1) + 1)) by (apply Z.pow_le_mono_r; lia).
    unfold int_chk. case_match; [|done].
    apply andb_true_iff in H1 as [_ H1]. change INT_MAX with (2 ^ 31 - 1) in H1. lia.
Qed.

Lemma smear_negative m :
  - 2 ^ 31 <= m < 0 →
  fold_left (λ n i, Z.lor n (Z.shiftr n i)) [1; 2; 4; 8; 16] m = -1.
Proof.
  intros Hm. pose proof (window_smear m) as Hw.
  apply Z.bits_inj'. intros i Hi. rewrite Z.bits_m1 by done.
  apply (Hw i Hi). exists 31. split; [lia|].
  replace m with (Z.lnot (- m - 1)) by (unfold Z.lnot; lia).
  rewrite Z.lnot_spec by lia.
  destruct (Z.eq_dec (- m - 1) 0) as [->|Hne]; [by rewrite Z.bits_0|].
  rewrite Z.bits_above_log2; [done|lia|].
  apply Z.log2_lt_pow2; [lia|].
  assert (2 ^ 31 <= 2 ^ (i + 31)) by (apply Z.pow_le_mono_r; lia). lia.
Qed.

(** X1.  [nextPowerOfTwo] on every [int]: from 1 to [2 ^ 30] it gives the
    least power of two that is not below its argument; above [2 ^ 30] the
    increment at its end overflows; from [INT_MIN + 1] to 0 it gives 0; at
    [INT_MIN] the decrement at its head overflows. *)
Theorem nextPowerOfTwo_least (n : Z) :
  - 2 ^ 31 <= n < 2 ^ 31 →
  if n =? - 2 ^ 31 then nextPowerOfTwo n = None
  else if n <=? 0 then nextPowerOfTwo n = Some 0
  else if n <=? 2 ^ 30 then
    ∃ k, 0 <= k <= 30 ∧ nextPowerOfTwo n = Some (2 ^ k) ∧ n <= 2 ^ k < 2 * n
  else nextPowerOfTwo n = None.
Proof.
  intros Hn.
  destruct (Z.eqb_spec n (- 2 ^ 31)) as [->|Hmin]; [reflexivity|].
  destruct (Z.leb_spec n 0) as [Hneg|Hpos].
  - unfold nextPowerOfTwo. rewrite int_chk_ok by lia. cbn [mbind option_bind].
    rewrite smear_negative by lia. reflexivity.
  - apply nextPowerOfTwo_spec. lia.
Qed.

Lemma nextPowerOfTwo_least_witness :
  if 1000 =? - 2 ^ 31 then nextPowerOfTwo 1000 = None
  else if 1000 <=? 0 then nextPowerOfTwo 1000 = Some 0
  else if 1000 <=? 2 ^ 30 then
    ∃ k, 0 <= k <= 30 ∧ nextPowerOfTwo 1000 = Some (2 ^ k) ∧ 1000 <= 2 ^ k < 2 * 1000
  else nextPowerOfTwo 1000 = None.
Proof. apply (nextPowerOfTwo_least 1000). lia. Defined.

(** ** The constructors of the writer, [allocate] and [release] *)

Lemma sized_ready sz gran :
  1 <= sz →
  Wrep (BitStreamWriter.mk (BitStreamWriter.allocBytes sz [] 0) sz
          (if gran >=? 2 then gran else 2) 0 0 0) [].
Proof.
  intros Hsz. constructor; cbn; try lia.
  - unfold BitStreamWriter.allocBytes. simpl. rewrite length_replicate. lia.
  - destruct (Z.geb_spec gran 2); lia.
  - intros k Hk. unfold BitStreamWriter.allocBytes. simpl.
    by rewrite bit_at_zeros.
Qed.

(** X2.  The constructor with a size allocates no buffer when it is asked
    for 1 to 4 bits, since these round to less than a byte: the first
    [appendBit] on such a writer is a store through a null pointer.  Asked
    for no bits, or for 5 bits or more, it gives a writer that is ready,
    with room for the bits asked for. *)
Theorem writer_sized_edge (bits gran : Z) :
  bits <= 2 ^ 30 →
  ∃ w, BitStreamWriter.new_sized bits gran = Some w
       ∧ BitStreamWriter.granularity w = Z.max 2 gran
       ∧ if (1 <=? bits) && (bits <=? 4) then
           BitStreamWriter.stream w = [] ∧ ∀ bit, BitStreamWriter.appendBit w bit = None
         else
           Wrep w [] ∧ 1 <= BitStreamWriter.bytesAllocated w
           ∧ bits <= 8 * BitStreamWriter.bytesAllocated w.
Proof.
  intros Hbits.
  assert (Hg : (if gran >=? 2 then gran else 2) = Z.max 2 gran)
    by (destruct (Z.geb_spec gran 2); lia).
  unfold BitStreamWriter.new_sized, BitStreamWriter.allocate.
  cbn [BitStreamWriter.bytesAllocated BitStreamWriter.setGranularity
       BitStreamWriter.internalInit BitStreamWriter.stream BitStreamWriter.granularity
       BitStreamWriter.currBytePos BitStreamWriter.nextBitPos
       BitStreamWriter.numBitsWritten].
  destruct (Z.leb_spec bits 0) as [Hneg|Hpos].
  { change (negb (Z.rem 8 8 =? 0)) with false. cbn [mbind option_bind].
    change (Z.quot 8 8 <=? 0) with false. cbv iota.
    eexists. split; [done|]. split; [exact Hg|].
    destruct (Z.leb_spec 1 bits); [lia|]. cbn [andb].
    split; [by apply sized_ready|]. cbn [BitStreamWriter.bytesAllocated].
    change (Z.quot 8 8) with 1. lia. }
  destruct (Z.eqb_spec (Z.rem bits 8) 0) as [Hrem|Hrem]; cbn [negb mbind option_bind].
  { rewrite Z.rem_mod_nonneg in Hrem by lia. rewrite Z.quot_div_nonneg by lia.
    pose proof (Z.div_mod bits 8 ltac:(lia)) as Hdm.
    destruct (Z.leb_spec (bits / 8) 0) as [Hz|Hnz]; [lia|].
    eexists. split; [done|]. split; [exact Hg|].
    destruct (Z.leb_spec 1 bits); [|lia]. destruct (Z.leb_spec bits 4); [lia|]. cbn [andb].
    split; [apply sized_ready; lia|]. cbn [BitStreamWriter.bytesAllocated]. lia. }
  pose proof (nextPowerOfTwo_spec bits ltac:(lia)) as Hp.
  destruct (Z.leb_spec bits (2 ^ 30)); [|lia].
  destruct Hp as (k & Hk & -> & Hlo & Hhi). cbn [mbind option_bind].
  rewrite Z.quot_div_nonneg by lia.
  destruct (Z.leb_spec bits 4) as [Hsmall|Hbig].
  - destruct (Z.leb_spec 1 bits); [|lia]. cbn [andb].
    assert (2 ^ k < 8) by lia.
    rewrite Z.div_small by lia. change (0 <=? 0) with true. cbv iota.
    eexists. split; [done|]. split; [exact Hg|]. split; [done|].
    intros bit. by apply appendBit_null.
  - rewrite andb_false_r.
    assert (Hk3 : 3 <= k).
    { destruct (Z.lt_ge_cases k 3) as [Hlt|]; [|done].
      assert (2 ^ k <= 2 ^ 2) by (apply Z.pow_le_mono_r; lia). lia. }
    assert (Hdiv : 2 ^ k = 8 * 2 ^ (k - 3)).
    { change 8 with (2 ^ 3). rewrite <- Z.pow_add_r by lia. f_equal. lia. }
    assert (0 < 2 ^ (k - 3)) by (apply Z.pow_pos_nonneg; lia).
    rewrite Hdiv, Z.mul_comm, Z.div_mul by lia.
    destruct (Z.leb_spec (2 ^ (k - 3)) 0); [lia|].
    eexists. split; [done|]. split; [exact Hg|].
    split; [apply sized_ready; lia|]. cbn [BitStreamWriter.bytesAllocated]. lia.
Qed.

Lemma writer_sized_edge_witness :
  ∃ w, BitStreamWriter.new_sized 3 2 = Some w
       ∧ BitStreamWriter.granularity w = Z.max 2 2
       ∧ if (1 <=? 3) && (3 <=? 4) then
           BitStreamWriter.stream w = [] ∧ ∀ bit, BitStreamWriter.appendBit w bit = None
         else
           Wrep w [] ∧ 1 <= BitStreamWriter.bytesAllocated w
           ∧ 3 <= 8 * BitStreamWriter.bytesAllocated w.
Proof. apply (writer_sized_edge 3 2). vm_compute. discriminate. Defined.

(** X3.  [allocate] never shrinks the buffer and never moves the cursor:
    the old bytes stay where they are, and the bytes it adds are zero. *)
Theorem allocate_keeps (w w' : BitStreamWriter.t) (bitsWanted : Z) :
  Z.of_nat (length (BitStreamWriter.stream w)) = BitStreamWriter.bytesAllocated w →
  BitStreamWriter.allocate w bitsWanted = Some w' →
  BitStreamWriter.bytesAllocated w <= BitStreamWriter.bytesAllocated w'
  ∧ BitStreamWriter.stream w'
    = BitStreamWriter.stream w
        ++ replicate (Z.to_nat (BitStreamWriter.bytesAllocated w'
                                - BitStreamWriter.bytesAllocated w)) 0
  ∧ Z.of_nat (length (BitStreamWriter.stream w')) = BitStreamWriter.bytesAllocated w'
  ∧ BitStreamWriter.currBytePos w' = BitStreamWriter.currBytePos w
  ∧ BitStreamWriter.nextBitPos w' = BitStreamWriter.nextBitPos w
  ∧ BitStreamWriter.numBitsWritten w' = BitStreamWriter.numBitsWritten w.
Proof.
  intros Hlen H. unfold BitStreamWriter.allocate in H.
  bind_case H. if_case H; injection H as <-.
  - rewrite Z.sub_diag. simpl. rewrite app_nil_r. split_and!; try done; lia.
  - apply Z.leb_gt in E0. cbn. unfold BitStreamWriter.allocBytes.
    rewrite firstn_all2 by lia.
    split_and!; try done; rewrite ?length_app, ?length_replicate; lia.
Qed.

Lemma allocate_keeps_witness :
  let w := BitStreamWriter.mk [7; 1] 2 2 1 3 11 in
  let w' := BitStreamWriter.mk [7; 1; 0; 0] 4 2 1 3 11 in
  BitStreamWriter.bytesAllocated w <= BitStreamWriter.bytesAllocated w'
  ∧ BitStreamWriter.stream w'
    = BitStreamWriter.stream w
        ++ replicate (Z.to_nat (BitStreamWriter.bytesAllocated w'
                                - BitStreamWriter.bytesAllocated w)) 0
  ∧ Z.of_nat (length (BitStreamWriter.stream w')) = BitStreamWriter.bytesAllocated w'
  ∧ BitStreamWriter.currBytePos w' = BitStreamWriter.currBytePos w
  ∧ BitStreamWriter.nextBitPos w' = BitStreamWriter.nextBitPos w
  ∧ BitStreamWriter.numBitsWritten w' = BitStreamWriter.numBitsWritten w.
Proof.
  intros w w'. apply (allocate_keeps w w' 20).
  - reflexivity.
  - vm_compute. reflexivity.
Defined.

Lemma getByteCount_ceil w :
  0 <= BitStreamWriter.numBitsWritten w →
  BitStreamWriter.getByteCount w = (BitStreamWriter.numBitsWritten w + 7) / 8.
Proof.
  intros H. unfold BitStreamWriter.getByteCount.
  rewrite Z.rem_mod_nonneg, Z.quot_div_nonneg by lia.
  pose proof (Z.div_mod (BitStreamWriter.numBitsWritten w) 8 ltac:(lia)).
  pose proof (Z.mod_pos_bound (BitStreamWriter.numBitsWritten w) 8 ltac:(lia)).
  pose proof (Z.div_mod (BitStreamWriter.numBitsWritten w + 7) 8 ltac:(lia)).
  pose proof (Z.mod_pos_bound (BitStreamWriter.numBitsWritten w + 7) 8 ltac:(lia)).
  destruct (Z.eqb_spec (BitStreamWriter.numBitsWritten w `mod` 8) 0); cbn [negb]; lia.
Qed.

(** X4.  After any calls on a writer from either constructor, the bit
    count is the number of the bits written, [getByteCount] is that number
    divided by 8 and rounded up, and the buffer holds at least that many
    bytes, with the cursor on one of them. *)
Theorem writer_counts (ctor : writer_ctor) (ops : list write_op) (w : BitStreamWriter.t) :
  construct ctor ≫= writes ops = Some w →
  BitStreamWriter.numBitsWritten w = Z.of_nat (length (written_bits ops))
  ∧ BitStreamWriter.getByteCount w = (Z.of_nat (length (written_bits ops)) + 7) / 8
  ∧ BitStreamWriter.getByteCount w <= Z.of_nat (length (BitStreamWriter.stream w))
  ∧ (BitStreamWriter.stream w = []
     ∨ 0 <= BitStreamWriter.currBytePos w < Z.of_nat (length (BitStreamWriter.stream w))).
Proof.
  intros Hw.
  destruct (construct ctor) as [w0|] eqn:Hc; [|done]. cbn [mbind option_bind] in Hw.
  pose proof (writes_inv ops w0 [] w (construct_inv _ _ Hc) Hw) as Hinv.
  rewrite app_nil_l in Hinv.
  destruct Hinv as [Hrep|(Hnull & Hbs & Hz)].
  - pose proof (wr_cnt _ _ Hrep) as Hcnt. pose proof (wr_len _ _ Hrep) as Hlen.
    pose proof (wr_pos _ _ Hrep) as Hpos. pose proof (wr_num _ _ Hrep) as Hnum.
    pose proof (wr_bit _ _ Hrep) as Hbit.
    rewrite getByteCount_ceil by lia.
    split; [done|]. split; [by rewrite Hcnt|]. split; [|right; lia].
    pose proof (Z.div_mod (BitStreamWriter.numBitsWritten w + 7) 8 ltac:(lia)).
    pose proof (Z.mod_pos_bound (BitStreamWriter.numBitsWritten w + 7) 8 ltac:(lia)).
    lia.
  - rewrite getByteCount_ceil by lia. rewrite Hbs, Hz, Hnull. simpl.
    split_and!; try done. by left.
Qed.

Lemma writer_counts_witness :
  let ops := [AppendBit true; AppendBitsU64 5 3; AppendBitsU64 300 9] in
  let w := BitStreamWriter.mk [203; 18; 0; 0; 0; 0; 0; 0] 8 2 1 5 13 in
  BitStreamWriter.numBitsWritten w = Z.of_nat (length (written_bits ops))
  ∧ BitStreamWriter.getByteCount w = (Z.of_nat (length (written_bits ops)) + 7) / 8
  ∧ BitStreamWriter.getByteCount w <= Z.of_nat (length (BitStreamWriter.stream w))
  ∧ (BitStreamWriter.stream w = []
     ∨ 0 <= BitStreamWriter.currBytePos w < Z.of_nat (length (BitStreamWriter.stream w))).
Proof.
  intros ops w. apply (writer_counts (Sized 64 2) ops w). vm_compute. reflexivity.
Defined.

(** X5.  On a writer from the default constructor, calls that write fewer
    than [2 ^ 30] bits in all, at most 64 at a time, are all defined: the
    buffer grows as needed, doubling, and no [int] overflows. *)
Theorem writer_defined (ops : list write_op) :
  Forall (λ o, match o with AppendBit _ => True | AppendBitsU64 _ n => n <= 64 end) ops →
  Z.of_nat (length (written_bits ops)) < 2 ^ 30 →
  ∃ w, construct Default ≫= writes ops = Some w
       ∧ BitStreamWriter.numBitsWritten w = Z.of_nat (length (written_bits ops))
       ∧ Z.of_nat (length (written_bits ops))
         < 8 * Z.of_nat (length (BitStreamWriter.stream w)).
Proof.
  intros Hok Hsmall. destruct new_Wrep as (w0 & Hw0 & Hrep & Hg).
  cbn [construct]. rewrite Hw0. cbn [mbind option_bind].
  destruct (writes_defined ops w0 [] Hrep Hok) as (w & Hw & Hrep' & _).
  { rewrite Hg, app_nil_l. lia. }
  rewrite app_nil_l in Hrep'. exists w. split; [done|].
  pose proof (wr_cnt _ _ Hrep'). pose proof (wr_len _ _ Hrep').
  pose proof (wr_pos _ _ Hrep'). pose proof (wr_num _ _ Hrep').
  pose proof (wr_bit _ _ Hrep'). lia.
Qed.

Lemma writer_defined_witness :
  ∃ w, construct Default ≫= writes [AppendBit true; AppendBitsU64 5 3; AppendBit false]
       = Some w
       ∧ BitStreamWriter.numBitsWritten w
         = Z.of_nat (length (written_bits [AppendBit true; AppendBitsU64 5 3; AppendBit false]))
       ∧ Z.of_nat (length (written_bits [AppendBit true; AppendBitsU64 5 3; AppendBit false]))
         < 8 * Z.of_nat (length (BitStreamWriter.stream w)).
Proof.
  apply (writer_defined [AppendBit true; AppendBitsU64 5 3; AppendBit false]).
  - repeat constructor; lia.
  - vm_compute. reflexivity.
Defined.


(** ** The encoder *)

(** X7.  On an input of fewer than [2 ^ 30 / 12] bytes [lzwEncode] is
    defined.  It writes no bit for the empty input and from 9 to 12 bits for
    a byte otherwise; the byte count it returns is the bit count divided by
    8 and rounded up, and the buffer it returns holds that many bytes. *)
Theorem lzwEncode_size (S : list Z) :
  Forall is_byte S → 12 * Z.of_nat (length S) < 2 ^ 30 →
  ∃ c, lzwEncode S (Z.of_nat (length S)) = Some c
       ∧ (S = [] → compressedSizeBits c = 0)
       ∧ (S ≠ [] → 9 <= compressedSizeBits c <= 12 * Z.of_nat (length S))
       ∧ compressedSizeBytes c = (compressedSizeBits c + 7) / 8
       ∧ compressedSizeBytes c <= Z.of_nat (length (buffer c)).
Proof.
  intros Hbytes Hsmall.
  destruct (encode_run_defined S Hbytes Hsmall) as (sf & Hrun & Hinv & Hle & H9 & _).
  eexists. split; [apply lzwEncode_Some; eauto|].
  cbn [buffer compressedSizeBytes compressedSizeBits].
  pose proof (ei_bits _ Hinv) as Hrep.
  pose proof (wr_cnt _ _ Hrep) as Hcnt. pose proof (wr_int _ _ Hrep) as Hint.
  pose proof (Wrep_covers _ _ Hrep) as Hcov.
  set (n := BitStreamWriter.numBitsWritten (LzwEncode.bitStream sf)) in *.
  assert (Hn : 0 <= n) by lia.
  pose proof (Z.div_mod (n + 7) 8 ltac:(lia)).
  pose proof (Z.mod_pos_bound (n + 7) 8 ltac:(lia)).
  rewrite getByteCount_ceil by done. fold n.
  rewrite !u32_small by lia.
  split_and!; try done; try lia.
  - intros ->. simpl in Hle. lia.
  - intros Hne. specialize (H9 Hne). lia.
Qed.

Lemma lzwEncode_size_witness :
  ∃ c, lzwEncode sample_text (Z.of_nat (length sample_text)) = Some c
       ∧ (sample_text = [] → compressedSizeBits c = 0)
       ∧ (sample_text ≠ [] → 9 <= compressedSizeBits c <= 12 * Z.of_nat (length sample_text))
       ∧ compressedSizeBytes c = (compressedSizeBits c + 7) / 8
       ∧ compressedSizeBytes c <= Z.of_nat (length (buffer c)).
Proof.
  apply (lzwEncode_size sample_text).
  - unfold sample_text. repeat constructor; unfold is_byte; lia.
  - vm_compute. reflexivity.
Defined.

(** X8.  Every code that [lzwEncode] writes is written with a width from
    9 to 12 bits, is below the size that the dictionary has then, and this
    size is at most two to the width: the code fits the bits it is given.
    The number of the bits written is the sum of these widths. *)
Theorem lzwEncode_codes_fit (S : list Z) (sf : LzwEncode.locals) :
  Forall is_byte S → 12 * Z.of_nat (length S) < 2 ^ 30 →
  LzwEncode.run S (Z.of_nat (length S)) = Some sf →
  Forall (λ x : Z * Z * Z,
            let '(code, size, width) := x in
            9 <= width <= 12 ∧ 0 <= code < size ∧ FirstCode <= size <= 2 ^ width)
         (LzwEncode.trace sf)
  ∧ BitStreamWriter.numBitsWritten (LzwEncode.bitStream sf)
    = Z.of_nat (length (trace_bits (LzwEncode.trace sf)))
  ∧ (length (LzwEncode.trace sf) <= length S)%nat.
Proof.
  intros Hbytes Hsmall Hrun.
  destruct (encode_run_defined S Hbytes Hsmall) as (sf' & Hrun' & Hinv & _ & _ & Hlen).
  rewrite Hrun in Hrun'. injection Hrun' as <-.
  pose proof (ei_bits _ Hinv) as Hrep. pose proof (wr_cnt _ _ Hrep) as Hcnt.
  pose proof (ei_widths _ Hinv) as Hws.
  split; [|split; [done|done]].
  eapply Forall_impl; [|exact Hws]. intros [[code size] width]. cbn. tauto.
Qed.

Lemma lzwEncode_codes_fit_witness :
  ∃ sf, LzwEncode.run sample_text (Z.of_nat (length sample_text)) = Some sf
    ∧ Forall (λ x : Z * Z * Z,
                let '(code, size, width) := x in
                9 <= width <= 12 ∧ 0 <= code < size ∧ FirstCode <= size <= 2 ^ width)
             (LzwEncode.trace sf)
    ∧ BitStreamWriter.numBitsWritten (LzwEncode.bitStream sf)
      = Z.of_nat (length (trace_bits (LzwEncode.trace sf)))
    ∧ (length (LzwEncode.trace sf) <= length sample_text)%nat.
Proof.
  destruct (LzwEncode.run sample_text (Z.of_nat (length sample_text))) as [sf|] eqn:Hrun.
  - exists sf. split; [reflexivity|].
    apply (lzwEncode_codes_fit sample_text sf).
    + unfold sample_text. repeat constructor; unfold is_byte; lia.
    + vm_compute. reflexivity.
    + exact Hrun.
  - vm_compute in Hrun. discriminate Hrun.
Defined.

(** ** The decoder *)

(** A trip that goes on adds one pair to the trace. *)
Lemma body_trace N d d' :
  LzwDecode.body N d = Some (true, d') →
  length (LzwDecode.trace d') = Datatypes.S (length (LzwDecode.trace d)).
Proof.
  unfold LzwDecode.body. intros H.
  bind_case H. destruct p as [num bs].
  destruct (LzwDecode.prevCode d =? Nil).
  - destruct (outputByte _ _ _ _) as [[ok out] n]. destruct ok; [|done].
    injection H as <-. cbn [LzwDecode.trace]. rewrite length_app. simpl. lia.
  - bind_case H. destruct p as [[[ok out] n] fb]. destruct ok; [|done].
    destruct (Dictionary.flush _ _) as [[reset dict] w].
    injection H as <-. cbn [LzwDecode.trace]. rewrite length_app. simpl. lia.
Qed.

(** A trip reads at least one bit, and none past the declared count. *)
Lemma body_reads_a_bit N d k d' :
  decode_inv d → BitStreamReader.isEndOfStream (LzwDecode.bitStream d) = false →
  LzwDecode.body N d = Some (k, d') →
  BitStreamReader.numBitsRead (LzwDecode.bitStream d)
  < BitStreamReader.numBitsRead (LzwDecode.bitStream d')
  <= BitStreamReader.sizeInBits (LzwDecode.bitStream d).
Proof.
  intros Hinv Hend Hb.
  destruct (body_progress N d k d' Hinv Hend Hb) as (_ & Hlt & Hsz & Hle).
  unfold bits_left in Hlt. rewrite Hsz in Hlt. lia.
Qed.

(** What holds in every state that the loop goes through from [d]. *)
Lemma visits_bits N d d2 :
  visits N d d2 → decode_inv d →
  decode_inv d2
  ∧ BitStreamReader.sizeInBits (LzwDecode.bitStream d2)
    = BitStreamReader.sizeInBits (LzwDecode.bitStream d)
  ∧ BitStreamReader.numBitsRead (LzwDecode.bitStream d)
    - Z.of_nat (length (LzwDecode.trace d))
    <= BitStreamReader.numBitsRead (LzwDecode.bitStream d2)
       - Z.of_nat (length (LzwDecode.trace d2))
  ∧ (BitStreamReader.numBitsRead (LzwDecode.bitStream d)
     <= Z.max 0 (BitStreamReader.sizeInBits (LzwDecode.bitStream d)) →
     BitStreamReader.numBitsRead (LzwDecode.bitStream d2)
     <= Z.max 0 (BitStreamReader.sizeInBits (LzwDecode.bitStream d))).
Proof.
  induction 1 as [d|d d1 d2 Hend Hb _ IH]; intros Hinv.
  - split_and!; try done; lia.
  - destruct (body_progress N d true d1 Hinv Hend Hb) as (Hinv1 & _ & Hsz & _).
    pose proof (body_reads_a_bit N d true d1 Hinv Hend Hb) as Hbit.
    pose proof (body_trace N d d1 Hb) as Htr.
    destruct (IH Hinv1) as (Hinv2 & Hsz2 & Hcount & Hle).
    rewrite Hsz in Hsz2, Hle.
    refine (conj Hinv2 (conj Hsz2 (conj _ _))); [lia|].
    intros _. apply Hle. lia.
Qed.

(** The loop runs out of trips only where a trip is undefined. *)
Lemma loop_None N fuel : ∀ d,
  decode_inv d → (bits_left d < fuel)%nat →
  LzwDecode.loop fuel N d = None →
  ∃ d', visits N d d'
        ∧ BitStreamReader.isEndOfStream (LzwDecode.bitStream d') = false
        ∧ LzwDecode.body N d' = None.
Proof.
  induction fuel as [|fuel IH]; intros d Hinv Hfuel H; [lia|].
  cbn [LzwDecode.loop] in H.
  destruct (BitStreamReader.isEndOfStream (LzwDecode.bitStream d)) eqn:Hend; [done|].
  destruct (LzwDecode.body N d) as [[k d1]|] eqn:Hb.
  - cbn [mbind option_bind fst snd] in H. destruct k; [|done].
    destruct (body_progress N d true d1 Hinv Hend Hb) as (Hinv1 & Hlt & _).
    destruct (IH d1 Hinv1 ltac:(lia) H) as (d' & Hv & Hend' & Hb').
    exists d'. split; [|done]. by eapply visits_next.
  - exists d. split; [apply visits_here|done].
Qed.

(** X9.  The loop of [lzwDecode] ends.  On every stream, every trip of
    the loop that is defined reads at least one bit and none past
    [compressedSizeBits]; in every state that the loop goes through, the
    number of the trips made is at most the number of the bits read, which
    is at most [compressedSizeBits]; so the call returns unless one of its
    trips is undefined, and a bound on the trips above [compressedSizeBits]
    changes nothing. *)
Theorem lzwDecode_trips (compressed : list Z) (nbytes nbits N : Z) :
  let start := LzwDecode.init compressed nbytes nbits in
  (∀ d k d',
     visits N start d →
     BitStreamReader.isEndOfStream (LzwDecode.bitStream d) = false →
     LzwDecode.body N d = Some (k, d') →
     BitStreamReader.numBitsRead (LzwDecode.bitStream d)
     < BitStreamReader.numBitsRead (LzwDecode.bitStream d') <= i32 nbits)
  ∧ (∀ d, visits N start d →
          Z.of_nat (length (LzwDecode.trace d))
          <= BitStreamReader.numBitsRead (LzwDecode.bitStream d) <= Z.max 0 (i32 nbits))
  ∧ (LzwDecode.run compressed nbytes nbits N = None →
     ∃ d, visits N start d
          ∧ BitStreamReader.isEndOfStream (LzwDecode.bitStream d) = false
          ∧ LzwDecode.body N d = None)
  ∧ (∀ fuel, (Z.to_nat (i32 nbits) < fuel)%nat →
             LzwDecode.loop fuel N start = LzwDecode.run compressed nbytes nbits N).
Proof.
  intros start.
  pose proof (decode_inv_init compressed nbytes nbits) as Hinv. fold start in Hinv.
  split_and!.
  - intros d k d' Hv Hend Hb.
    destruct (visits_bits N start d Hv Hinv) as (Hinv' & Hsz & _).
    pose proof (body_reads_a_bit N d k d' Hinv' Hend Hb) as Hbit.
    rewrite Hsz in Hbit. exact Hbit.
  - intros d Hv.
    destruct (visits_bits N start d Hv Hinv) as (_ & _ & Hcount & Hle).
    cbn in Hcount, Hle. lia.
  - intros H. unfold LzwDecode.run in H.
    apply (loop_None N (Datatypes.S (Z.to_nat (i32 nbits))) start Hinv); [|exact H].
    unfold bits_left. cbn. lia.
  - intros fuel Hfuel. unfold LzwDecode.run.
    apply loop_fuel; [exact Hinv| |]; unfold bits_left; cbn; lia.
Qed.

Lemma lzwDecode_trips_witness :
  let d := trip 24 (trip 24 (LzwDecode.init (buffer sample_compressed) 18 144)) in
  Z.of_nat (length (LzwDecode.trace d))
  <= BitStreamReader.numBitsRead (LzwDecode.bitStream d) <= Z.max 0 (i32 144).
Proof.
  intros d.
  apply (proj1 (proj2 (lzwDecode_trips (buffer sample_compressed) 18 144 24)) d).
  eapply visits_next; [vm_compute; reflexivity|vm_compute; reflexivity|].
  eapply visits_next; [vm_compute; reflexivity|vm_compute; reflexivity|].
  apply visits_here.
Defined.



Lemma visits_decode_inv N d d' : visits N d d' → decode_inv d → decode_inv d'.
Proof.
  induction 1 as [|d d1 d2 Hend Hb _ IH]; [done|].
  intros Hinv. apply IH. by destruct (body_reads N d true d1 Hinv Hb).
Qed.

(** X11.  On every stream, in every state that the decoder goes through,
    the code width is from 9 to 12 and the dictionary holds from 256
    entries to fewer than two to the width, so fewer than 4096: the [add]
    of the next trip has room, and its result, which [lzwDecode] drops, is
    [true]. *)
Theorem lzwDecode_add_has_room (compressed : list Z) (nbytes nbits N : Z)
    (d : LzwDecode.locals) :
  visits N (LzwDecode.init compressed nbytes nbits) d →
  9 <= LzwDecode.codeBitsWidth d <= 12
  ∧ FirstCode <= Dictionary.size (LzwDecode.dictionary d) < 2 ^ LzwDecode.codeBitsWidth d
  ∧ Dictionary.size (LzwDecode.dictionary d) < MaxDictEntries
  ∧ ∀ code value, (Dictionary.add (LzwDecode.dictionary d) code value).1 = true.
Proof.
  intros Hv. apply visits_decode_inv in Hv; [|apply decode_inv_init].
  destruct Hv as [Hw Hs].
  assert (2 ^ LzwDecode.codeBitsWidth d <= 2 ^ 12) by (apply Z.pow_le_mono_r; lia).
  change MaxDictEntries with 4096. change (2 ^ 12) with 4096 in *.
  split_and!; try lia.
  intros code value. unfold Dictionary.add.
  destruct (Z.eqb_spec (Dictionary.size (LzwDecode.dictionary d)) MaxDictEntries) as [E|_];
    [|done].
  change MaxDictEntries with 4096 in E. lia.
Qed.

Lemma lzwDecode_add_has_room_witness :
  let d := trip 24 (trip 24 (LzwDecode.init (buffer sample_compressed) 18 144)) in
  9 <= LzwDecode.codeBitsWidth d <= 12
  ∧ FirstCode <= Dictionary.size (LzwDecode.dictionary d) < 2 ^ LzwDecode.codeBitsWidth d
  ∧ Dictionary.size (LzwDecode.dictionary d) < MaxDictEntries
  ∧ ∀ code value, (Dictionary.add (LzwDecode.dictionary d) code value).1 = true.
Proof.
  intros d. apply (lzwDecode_add_has_room (buffer sample_compressed) 18 144 24 d).
  eapply visits_next; [vm_compute; reflexivity|vm_compute; reflexivity|].
  eapply visits_next; [vm_compute; reflexivity|vm_compute; reflexivity|].
  apply visits_here.
Defined.

(** X12.  Decoding what [lzwEncode] gives on [S] with a capacity [N] of
    at most the length of [S] gives the first [N] bytes of [S]. *)
Theorem lzw_partial_decode (S : list Z) (c : Compressed) (N : Z) :
  Forall is_byte S → Z.of_nat (length S) < 2 ^ 31 →
  lzwEncode S (Z.of_nat (length S)) = Some c →
  0 <= N <= Z.of_nat (length S) →
  lzwDecode (buffer c) (compressedSizeBytes c) (compressedSizeBits c) N
  = Some (take (Z.to_nat N) S).
Proof.
  intros Hbytes Hlen (sf & Hrun & ->)%lzwEncode_Some HN.
  cbn [buffer compressedSizeBytes compressedSizeBits].
  rewrite (encode_bits _ _ _ Hrun).
  destruct (decode_of_encode S (Z.of_nat (length S)) sf (length (LzwEncode.trace sf))
              (u32 (BitStreamWriter.getByteCount (LzwEncode.bitStream sf)))
              Hbytes ltac:(rewrite i32_small; lia) Hrun ltac:(lia))
    as (d & Hd & _ & _ & Heq & _).
  rewrite firstn_all in Hd. specialize (Heq eq_refl).
  unfold lzwDecode, LzwDecode.run in *.
  destruct (loop_caps N (Z.of_nat (length S)) _
              (LzwDecode.init (BitStreamWriter.stream (LzwEncode.bitStream sf))
                 (u32 (BitStreamWriter.getByteCount (LzwEncode.bitStream sf)))
                 (Z.of_nat (length (trace_bits (LzwEncode.trace sf))))) d
              ltac:(rewrite !i32_small; lia) ltac:(done) ltac:(cbn; lia) Hd)
    as (d1 & Hd1 & Hout).
  rewrite Hd1. simpl. rewrite Hout, Heq, i32_small by lia. done.
Qed.

Lemma lzw_partial_decode_witness :
  lzwDecode (buffer sample_compressed) (compressedSizeBytes sample_compressed)
    (compressedSizeBits sample_compressed) 7
  = Some (take (Z.to_nat 7) sample_text).
Proof.
  apply (lzw_partial_decode sample_text sample_compressed 7).
  - unfold sample_text. repeat constructor; unfold is_byte; lia.
  - vm_compute. reflexivity.
  - vm_compute. reflexivity.
  - vm_compute. split; discriminate.
Defined.

(** ** The dictionary *)

Lemma findIndex_loop_first d code value : dict_wf d → ∀ n i,
  0 <= i → i + Z.of_nat n <= Dictionary.size d →
  ∃ r, Dictionary.findIndex_loop d code value n i = Some r
       ∧ ((r = Nil
           ∧ ∀ j, i <= j < i + Z.of_nat n →
                  Dictionary.entry d j ≠ Some (Dictionary.mkEntry code value))
          ∨ (i <= r < i + Z.of_nat n
             ∧ Dictionary.entry d r = Some (Dictionary.mkEntry code value)
             ∧ ∀ j, i <= j < r →
                    Dictionary.entry d j ≠ Some (Dictionary.mkEntry code value))).
Proof.
  intros Hwf. induction n as [|n IH]; intros i Hi Hn.
  - exists Nil. split; [done|]. left. split; [done|]. intros j Hj. lia.
  - cbn [Dictionary.findIndex_loop].
    assert (He : ∃ e, Dictionary.entry d i = Some e).
    { destruct (wf_entry_cases d i Hwf ltac:(lia)) as [[_ He]|[_ (p & v & He & _)]]; eauto. }
    destruct He as [[c0 v0] He]. rewrite He. cbn [mbind option_bind Dictionary.code
                                                   Dictionary.value].
    destruct (Z.eqb_spec c0 code) as [->|Hc]; cbn [andb].
    + destruct (Z.eqb_spec v0 value) as [->|Hv].
      * exists i. split; [done|]. right. split; [lia|]. split; [done|]. intros j Hj. lia.
      * destruct (IH (i + 1) ltac:(lia) ltac:(lia)) as (r & Hr & Hcase).
        exists r. split; [done|].
        destruct Hcase as [[-> Hno]|(Hrange & Hent & Hno)].
        -- left. split; [done|]. intros j Hj.
           destruct (Z.eq_dec j i) as [->|]; [rewrite He; congruence|apply Hno; lia].
        -- right. split; [lia|]. split; [done|]. intros j Hj.
           destruct (Z.eq_dec j i) as [->|]; [rewrite He; congruence|apply Hno; lia].
    + destruct (IH (i + 1) ltac:(lia) ltac:(lia)) as (r & Hr & Hcase).
      exists r. split; [done|].
      destruct Hcase as [[-> Hno]|(Hrange & Hent & Hno)].
      * left. split; [done|]. intros j Hj.
        destruct (Z.eq_dec j i) as [->|]; [rewrite He; congruence|apply Hno; lia].
      * right. split; [lia|]. split; [done|]. intros j Hj.
        destruct (Z.eq_dec j i) as [->|]; [rewrite He; congruence|apply Hno; lia].
Qed.

Lemma findIndex_complete d code value :
  dict_wf d → code ≠ Nil →
  ∃ r, Dictionary.findIndex d code value = Some r
       ∧ ((r = Nil
           ∧ ∀ j, 0 <= j < Dictionary.size d →
                  Dictionary.entry d j ≠ Some (Dictionary.mkEntry code value))
          ∨ (FirstCode <= r < Dictionary.size d
             ∧ Dictionary.entry d r = Some (Dictionary.mkEntry code value)
             ∧ ∀ j, 0 <= j < r →
                    Dictionary.entry d j ≠ Some (Dictionary.mkEntry code value))).
Proof.
  intros Hwf Hc. unfold Dictionary.findIndex.
  destruct (Z.eqb_spec code Nil) as [|_]; [done|].
  pose proof (dw_size _ Hwf) as Hs. change FirstCode with 256 in *.
  destruct (findIndex_loop_first d code value Hwf (Z.to_nat (Dictionary.size d)) 0)
    as (r & Hr & Hcase); [lia|lia|].
  exists r. split; [done|].
  destruct Hcase as [[-> Hno]|(Hrange & Hent & Hno)].
  - left. split; [done|]. intros j Hj. apply Hno. lia.
  - right. split; [|done].
    destruct (Z.lt_ge_cases r 256) as [Hlt|]; [|lia].
    rewrite (dw_root _ Hwf r) in Hent by (change FirstCode with 256; lia).
    congruence.
Qed.

(** X13.  [findIndex] on a dictionary as the codec builds them: for the
    code [Nil] it gives the byte itself, which is the index of its root;
    for another code it gives the first entry that holds the pair, which is
    never a root, and it gives [Nil] only when no entry below the size holds
    the pair. *)
Theorem findIndex_first (d : Dictionary.t) (code value : Z) :
  dict_wf d →
  Dictionary.findIndex d Nil value = Some value
  ∧ (code ≠ Nil →
     ∃ r, Dictionary.findIndex d code value = Some r
          ∧ ((r = Nil
              ∧ ∀ j, 0 <= j < Dictionary.size d →
                     Dictionary.entry d j ≠ Some (Dictionary.mkEntry code value))
             ∨ (FirstCode <= r < Dictionary.size d
                ∧ Dictionary.entry d r = Some (Dictionary.mkEntry code value)
                ∧ ∀ j, 0 <= j < r →
                       Dictionary.entry d j ≠ Some (Dictionary.mkEntry code value)))).
Proof.
  intros Hwf. split; [done|]. intros Hc. by apply findIndex_complete.
Qed.

Lemma findIndex_first_witness :
  Dictionary.findIndex Dictionary.new Nil 65 = Some 65
  ∧ (66 ≠ Nil →
     ∃ r, Dictionary.findIndex Dictionary.new 66 65 = Some r
          ∧ ((r = Nil
              ∧ ∀ j, 0 <= j < Dictionary.size Dictionary.new →
                     Dictionary.entry Dictionary.new j ≠ Some (Dictionary.mkEntry 66 65))
             ∨ (FirstCode <= r < Dictionary.size Dictionary.new
                ∧ Dictionary.entry Dictionary.new r = Some (Dictionary.mkEntry 66 65)
                ∧ ∀ j, 0 <= j < r →
                       Dictionary.entry Dictionary.new j
                       ≠ Some (Dictionary.mkEntry 66 65)))).
Proof. apply (findIndex_first Dictionary.new 66 65). apply new_wf. Defined.

(** X14.  When [findIndex] has not found a pair and [add] has stored it,
    [findIndex] finds it at the index that was the size: the encoder's
    search and its [add] agree. *)
Theorem add_then_findIndex (d : Dictionary.t) (code value : Z) :
  dict_wf d → Dictionary.size d < MaxDictEntries →
  0 <= code < Dictionary.size d → 0 <= value < 256 →
  Dictionary.findIndex d code value = Some Nil →
  (Dictionary.add d code value).1 = true
  ∧ Dictionary.findIndex (Dictionary.add d code value).2 code value
    = Some (Dictionary.size d).
Proof.
  intros Hwf Hroom Hcode Hvalue Hfind.
  assert (Hc : code ≠ Nil) by (change Nil with (-1); lia).
  destruct (add_spec d code value Hwf Hroom Hcode Hvalue) as (Hwf' & Hsz' & Hnew & Hold).
  split.
  { unfold Dictionary.add. destruct (Z.eqb_spec (Dictionary.size d) MaxDictEntries); [lia|done]. }
  destruct (findIndex_complete d code value Hwf Hc) as (r & Hr & Hcase).
  rewrite Hfind in Hr. injection Hr as <-.
  destruct Hcase as [[_ Hno]|(Hrange & _)];
    [|pose proof (dw_size _ Hwf); change Nil with (-1) in Hrange;
      change FirstCode with 256 in *; lia].
  destruct (findIndex_complete _ code value Hwf' Hc) as (r' & Hr' & Hcase').
  rewrite Hr'. f_equal.
  destruct Hcase' as [[-> Hno']|(Hrange' & Hent' & Hno')].
  - exfalso. apply (Hno' (Dictionary.size d)); [|done].
    pose proof (dw_size _ Hwf). change FirstCode with 256 in *. lia.
  - destruct (Z.lt_trichotomy r' (Dictionary.size d)) as [Hlt|[->|Hgt]]; [|done|].
    + exfalso. apply (Hno r'); [change FirstCode with 256 in *; lia|].
      rewrite <- Hold by lia. done.
    + exfalso. apply (Hno' (Dictionary.size d)); [|done].
      pose proof (dw_size _ Hwf). change FirstCode with 256 in *. lia.
Qed.

Lemma add_then_findIndex_witness :
  (Dictionary.add Dictionary.new 84 79).1 = true
  ∧ Dictionary.findIndex (Dictionary.add Dictionary.new 84 79).2 84 79
    = Some (Dictionary.size Dictionary.new).
Proof.
  apply (add_then_findIndex Dictionary.new 84 79).
  - apply new_wf.
  - vm_compute. reflexivity.
  - vm_compute. split; [discriminate|reflexivity].
  - lia.
  - vm_compute. reflexivity.
Defined.

(** ** Base64 *)

Lemma table_check (P : Z → bool) (n : Z) :
  forallb P (seqZ 0 n) = true → ∀ c, 0 <= c < n → P c = true.
Proof.
  intros H c Hc. rewrite forallb_forall in H. apply H.
  apply list_elem_of_In, elem_of_seqZ. lia.
Qed.

(** X15.  The table of [b64Decode] maps the letters A to Z to 0..25, a to
    z to 26..51, the digits to 52..61, ['+'], ['-'] and ['.'] to 62, ['/'],
    ['_'] and [','] to 63 and every other character from 0 to 255 to 0: the
    standard and the URL-safe alphabet at once.  A negative [char] indexes
    outside the table. *)
Theorem b64_alphabet (c : Z) :
  (0 <= c < 256 →
   at_ B64.B64_INDEX (size_t c)
   = Some (if (65 <=? c) && (c <=? 90) then c - 65
           else if (97 <=? c) && (c <=? 122) then c - 71
           else if (48 <=? c) && (c <=? 57) then c + 4
           else if (c =? 43) || (c =? 45) || (c =? 46) then 62
           else if (c =? 47) || (c =? 95) || (c =? 44) then 63
           else 0))
  ∧ (- 128 <= c < 0 → at_ B64.B64_INDEX (size_t c) = None).
Proof.
  split.
  - intros Hc.
    pose proof (table_check
      (λ c, match at_ B64.B64_INDEX (size_t c) with
            | Some v =>
                v =? (if (65 <=? c) && (c <=? 90) then c - 65
                      else if (97 <=? c) && (c <=? 122) then c - 71
                      else if (48 <=? c) && (c <=? 57) then c + 4
                      else if (c =? 43) || (c =? 45) || (c =? 46) then 62
                      else if (c =? 47) || (c =? 95) || (c =? 44) then 63
                      else 0)
            | None => false
            end) 256 ltac:(vm_compute; reflexivity) c Hc) as H.
    cbv beta in H. destruct (at_ B64.B64_INDEX (size_t c)) as [v|]; [|done].
    apply Z.eqb_eq in H. by rewrite H.
  - intros Hc. unfold at_, size_t.
    assert (c mod 2 ^ 64 = c + 2 ^ 64) as ->.
    { symmetry. apply Z.mod_unique with (-1); lia. }
    destruct (Z.ltb_spec (c + 2 ^ 64) (Z.of_nat (length B64.B64_INDEX))) as [Hlt|_];
      [|by rewrite andb_false_r].
    change (Z.of_nat (length B64.B64_INDEX)) with 256 in Hlt. lia.
Qed.

Lemma b64_value_range c : 0 <= c < 256 → 0 <= b64_value c < 64.
Proof.
  intros Hc.
  pose proof (table_check (λ c, (0 <=? b64_value c) && (b64_value c <? 64)) 256
                ltac:(vm_compute; reflexivity) c Hc) as H.
  apply andb_true_iff in H as [H1 H2]. lia.
Qed.

Lemma six_bits v :
  0 <= v < 64 →
  Z.shiftr (Z.land v 48) 4 = v / 16 ∧ Z.land v 15 = v mod 16
  ∧ Z.shiftr (Z.land v 60) 2 = v / 4 ∧ Z.land v 3 = v mod 4.
Proof.
  intros Hv.
  pose proof (table_check
    (λ v, (Z.shiftr (Z.land v 48) 4 =? v / 16) && (Z.land v 15 =? v mod 16)
          && (Z.shiftr (Z.land v 60) 2 =? v / 4) && (Z.land v 3 =? v mod 4)) 64
    ltac:(vm_compute; reflexivity) v Hv) as H.
  repeat (apply andb_true_iff in H as [H ?]). lia.
Qed.

(** X16.  A group of four characters with no terminator in it decodes to
    the three bytes of the 24 bits that the six-bit values of the four
    characters make, the first character in the highest bits. *)
Theorem b64_group_bits (c0 c1 c2 c3 : Z) :
  32 < c0 < 256 → 0 < c1 < 256 → 0 < c2 < 256 → 0 < c3 < 256 →
  b64_stop c2 = false → b64_stop c3 = false →
  ∃ b1 b2 b3,
    b64Decode (Some [c0; c1; c2; c3]) 4 true true
    = Some (7, Some [Some b1; Some b2; Some b3; None; None; None; Some 0])
    ∧ 0 <= b1 < 256 ∧ 0 <= b2 < 256 ∧ 0 <= b3 < 256
    ∧ 2 ^ 16 * b1 + 2 ^ 8 * b2 + b3
      = 2 ^ 18 * b64_value c0 + 2 ^ 12 * b64_value c1 + 2 ^ 6 * b64_value c2 + b64_value c3.
Proof.
  intros H0 H1 H2 H3 Hs2 Hs3.
  exists (b64_byte1 c0 c1), (b64_byte2 c1 c2), (b64_byte3 c2 c3).
  split.
  - rewrite b64Decode_stores; [| |lia|simpl; lia].
    + cbn [b64_groups]. destruct (Z.leb_spec c0 32); [lia|]. rewrite Hs2, Hs3. reflexivity.
    + repeat constructor; unfold is_char; lia.
  - pose proof (b64_value_range c0 ltac:(lia)) as V0.
    pose proof (b64_value_range c1 ltac:(lia)) as V1.
    pose proof (b64_value_range c2 ltac:(lia)) as V2.
    pose proof (b64_value_range c3 ltac:(lia)) as V3.
    destruct (six_bits _ V1) as (E1 & E2 & _ & _).
    destruct (six_bits _ V2) as (_ & _ & E3 & E4).
    unfold b64_byte1, b64_byte2, b64_byte3.
    rewrite E1, E2, E3, E4, !Z.shiftl_mul_pow2 by lia.
    pose proof (Z.div_mod (b64_value c1) 16 ltac:(lia)).
    pose proof (Z.mod_pos_bound (b64_value c1) 16 ltac:(lia)).
    pose proof (Z.div_mod (b64_value c2) 4 ltac:(lia)).
    pose proof (Z.mod_pos_bound (b64_value c2) 4 ltac:(lia)).
    rewrite !u8_small by lia. lia.
Qed.

Lemma b64_group_bits_witness :
  ∃ b1 b2 b3,
    b64Decode (Some [84; 87; 70; 117]) 4 true true
    = Some (7, Some [Some b1; Some b2; Some b3; None; None; None; Some 0])
    ∧ 0 <= b1 < 256 ∧ 0 <= b2 < 256 ∧ 0 <= b3 < 256
    ∧ 2 ^ 16 * b1 + 2 ^ 8 * b2 + b3
      = 2 ^ 18 * b64_value 84 + 2 ^ 12 * b64_value 87 + 2 ^ 6 * b64_value 70
        + b64_value 117.
Proof.
  apply (b64_group_bits 84 87 70 117); try lia; reflexivity.
Defined.

Lemma store_full out idx x :
  (length out <= idx)%nat → B64.store out (Z.of_nat idx) x = None.
Proof.
  intros H. unfold B64.store.
  destruct (Z.ltb_spec (Z.of_nat idx) (Z.of_nat (length out))); [lia|].
  by rewrite andb_false_r.
Qed.

(** Without room for the bytes of the groups, the loop stores outside the
    buffer. *)
Lemma loop_overflow n : ∀ rest pre out idx fuel,
  (length rest <= n)%nat → Forall is_char (pre ++ rest) →
  (length rest < fuel)%nat → (idx <= length out)%nat →
  (length out < idx + length (b64_groups rest))%nat →
  B64.loop fuel (pre ++ rest) (B64.mk (Z.of_nat (length pre)) (Z.of_nat idx) out) = None.
Proof.
  induction n as [n IH] using lt_wf_ind.
  intros rest pre out idx fuel Hn Hchars Hfuel Hidx Hover.
  destruct fuel as [|fuel]; [lia|].
  assert (Hrest : Forall is_char rest) by (by apply Forall_app in Hchars as [_ ?]).
  pose proof (char_at_end pre rest) as Hend.
  assert (Hat : ∀ k c, rest !! k = Some c →
    B64.char_at (pre ++ rest) (Z.of_nat (length pre) + Z.of_nat k) = Some c ∧ is_char c).
  { intros k c Hk. split; [by apply char_at_in|].
    eapply Forall_lookup_1; [exact Hrest|exact Hk]. }
  cbn [B64.loop B64.pos B64.idx B64.output].
  destruct rest as [|c0 rest]; [simpl in Hover; lia|].
  destruct (Hat 0%nat c0 eq_refl) as [H0 Hc0]. rewrite Z.add_0_r in H0.
  rewrite H0. cbn [mbind option_bind].
  unfold is_char in Hc0. destruct (Z.eqb_spec c0 0); [lia|].
  destruct rest as [|c1 r1]; [simpl in Hover; lia|].
  destruct (Hat 1%nat c1 eq_refl) as [H1 Hc1]. change (Z.of_nat 1) with 1 in H1.
  rewrite H1. cbn [mbind option_bind].
  pose proof Hc1 as Hc1'. unfold is_char in Hc1'. destruct (Z.eqb_spec c1 0); [lia|].
  cbn [b64_groups] in Hover.
  destruct (c0 <=? 32) eqn:Hskip.
  { pose proof (IH (length (c1 :: r1)) ltac:(simpl in *; lia) (c1 :: r1) (pre ++ [c0])
                  out idx fuel ltac:(done) ltac:(by rewrite <- app_assoc)
                  ltac:(simpl in *; lia) Hidx Hover) as Hl.
    rewrite <- app_assoc, length_app in Hl. simpl in Hl.
    replace (Z.of_nat (length pre) + 1) with (Z.of_nat (length pre + 1)) by lia.
    exact Hl. }
  rewrite (index_char c0) by done. rewrite (index_char c1) by done.
  cbn [mbind option_bind].
  simpl length in Hover.
  destruct (decide (idx < length out)%nat) as [Hin1|Hout1];
    [|by rewrite store_full by lia].
  rewrite store_overwrite by lia. cbn [mbind option_bind].
  fold (b64_byte1 c0 c1).
  destruct r1 as [|c2 r2]; [simpl in Hover; lia|].
  destruct (Hat 2%nat c2 eq_refl) as [H2 Hc2]. change (Z.of_nat 2) with 2 in H2.
  rewrite H2. cbn [mbind option_bind].
  pose proof Hc2 as Hc2'. unfold is_char in Hc2'. destruct (Z.eqb_spec c2 0); [lia|].
  assert (H3 : ∃ c3, B64.char_at (pre ++ c0 :: c1 :: c2 :: r2)
                       (Z.of_nat (length pre) + 3) = Some c3
                     ∧ 0 <= c3 ∧ (c3 = 0 ↔ r2 = [])
                     ∧ (∀ c r, r2 = c :: r → c3 = c ∧ is_char c)).
  { destruct r2 as [|c3 r3].
    - exists 0. simpl length in Hend. change (Z.of_nat 3) with 3 in Hend.
      split; [exact Hend|]. split; [lia|]. split; [done|]. intros; done.
    - destruct (Hat 3%nat c3 eq_refl) as [H3 Hc3]. change (Z.of_nat 3) with 3 in H3.
      exists c3. split; [exact H3|].
      unfold is_char in Hc3. split; [lia|]. split; [split; [lia|done]|].
      intros c r E. injection E as <- <-. done. }
  destruct H3 as (c3 & H3 & Hc3 & Hnil & Hcons). rewrite H3. cbn [mbind option_bind].
  destruct (Z.ltb_spec c3 0); [lia|]. cbn [orb].
  change ((c2 =? 61) || (c2 =? 46)) with (b64_stop c2).
  destruct (b64_stop c2) eqn:Hs2; [simpl in Hover; lia|].
  rewrite (index_char c2) by done. cbn [mbind option_bind].
  simpl length in Hover.
  replace (Z.of_nat idx + 1) with (Z.of_nat (S idx)) by lia.
  destruct (decide (S idx < length out)%nat) as [Hin2|Hout2];
    [|by rewrite store_full by (rewrite length_overwrite; simpl; lia)].
  rewrite store_overwrite by (rewrite length_overwrite; simpl; lia).
  cbn [mbind option_bind]. fold (b64_byte2 c1 c2).
  destruct r2 as [|c3' r3]; [simpl in Hover; lia|].
  destruct (Hcons c3' r3 eq_refl) as [E3 Hc3']. subst c3'.
  unfold is_char in Hc3'. destruct (Z.eqb_spec c3 0); [lia|]. cbn [orb].
  change ((c3 =? 61) || (c3 =? 46)) with (b64_stop c3).
  destruct (b64_stop c3) eqn:Hs3; [simpl in Hover; lia|].
  rewrite (index_char c3) by done. cbn [mbind option_bind].
  simpl length in Hover.
  replace (Z.of_nat idx + 2) with (Z.of_nat (S (S idx))) by lia.
  assert (Hlen2 : length (overwrite (overwrite out idx [b64_byte1 c0 c1]) (S idx)
                            [b64_byte2 c1 c2]) = length out).
  { rewrite !length_overwrite; rewrite ?length_overwrite; simpl; lia. }
  destruct (decide (S (S idx) < length out)%nat) as [Hin3|Hout3];
    [|by rewrite store_full by lia].
  rewrite store_overwrite by lia.
  cbn [mbind option_bind]. fold (b64_byte3 c2 c3).
  pose proof (IH (length r3) ltac:(simpl in *; lia) r3 (pre ++ [c0; c1; c2; c3])
                (overwrite (overwrite (overwrite out idx [b64_byte1 c0 c1]) (S idx)
                              [b64_byte2 c1 c2]) (S (S idx)) [b64_byte3 c2 c3])
                (S (S (S idx))) fuel ltac:(done) ltac:(by rewrite <- app_assoc)
                ltac:(simpl in *; lia)) as Hl.
  rewrite length_overwrite in Hl by (rewrite Hlen2; simpl; lia).
  rewrite Hlen2 in Hl. specialize (Hl ltac:(lia) ltac:(lia)).
  rewrite <- app_assoc, length_app in Hl. simpl in Hl.
  replace (Z.of_nat (length pre) + 4) with (Z.of_nat (length pre + 4)) by lia.
  replace (Z.of_nat idx + 3) with (Z.of_nat (S (S (S idx)))) by lia.
  exact Hl.
Qed.

(** X17.  [b64Decode] sizes its buffer from [len] but decodes up to the
    end of the string: when the string holds more bytes than [len] makes
    room for, it stores past the end of the buffer. *)
Theorem b64Decode_overflow (s : list Z) (len : Z) :
  Forall is_char s → 0 < len < 2 ^ 64 →
  B64.reserved len < Z.of_nat (length (b64_groups s)) →
  b64Decode (Some s) len true true = None.
Proof.
  intros Hs Hlen Hover. unfold b64Decode.
  destruct (Z.eqb_spec len 0) as [->|_]; [lia|]. cbn [negb orb].
  destruct (reserved_small len ltac:(lia)) as [Hres _].
  assert (0 <= Z.shiftr len 2) by (apply Z.shiftr_nonneg; lia).
  unfold B64.run.
  rewrite (loop_overflow (length s) s [] _ 0 (Datatypes.S (length s))); [done|done|done|lia| |].
  - unfold upd. rewrite length_insert, length_replicate. lia.
  - unfold upd. rewrite length_insert, length_replicate. lia.
Qed.

Lemma b64Decode_overflow_witness :
  b64Decode (Some [65; 65; 65; 65; 65; 65; 65; 65]) 1 true true = None.
Proof.
  apply (b64Decode_overflow [65; 65; 65; 65; 65; 65; 65; 65] 1).
  - repeat constructor; unfold is_char; lia.
  - lia.
  - vm_compute. reflexivity.
Defined.

Lemma b64_groups_skip ws s :
  Forall (λ c, c <= 32) ws → b64_groups (ws ++ s) = b64_groups s.
Proof.
  induction 1 as [|c ws Hc _ IH]; [done|].
  change ((c :: ws) ++ s) with (c :: (ws ++ s)).
  destruct (ws ++ s) as [|c1 r] eqn:E.
  - destruct ws; [simpl in E; by subst|done].
  - cbn [b64_groups]. destruct (Z.leb_spec c 32); [|lia]. done.
Qed.

(** X18.  Where a group of four characters would begin, at the head of
    the string or after a group, [b64Decode] skips characters up to 0x20;
    and it ignores whatever follows a ['='] or a ['.'] in the third or the
    fourth place of a group. *)
Theorem b64_skips_and_stops (c0 c1 c2 c3 c : Z) (ws s : list Z) (len : Z) :
  Forall is_char (c0 :: c1 :: c2 :: c3 :: c :: ws ++ s) →
  Forall (λ c, c <= 32) ws → 32 < c0 → b64_stop c = true →
  let g := [c0; c1; c2; c3] in
  0 < len < 2 ^ 64 → Z.of_nat (length (g ++ ws ++ s)) < len →
  b64Decode (Some (ws ++ s)) len true true = b64Decode (Some s) len true true
  ∧ (b64_stop c2 = false → b64_stop c3 = false →
     b64Decode (Some (g ++ ws ++ s)) len true true
     = b64Decode (Some (g ++ s)) len true true)
  ∧ b64Decode (Some ([c0; c1; c] ++ s)) len true true
    = b64Decode (Some [c0; c1; c]) len true true
  ∧ (b64_stop c2 = false →
     b64Decode (Some ([c0; c1; c2; c] ++ s)) len true true
     = b64Decode (Some [c0; c1; c2; c]) len true true).
Proof.
  intros Hchars Hws H0 Hstop g Hlen Hle.
  assert (Hc : ∀ l, l ⊆ c0 :: c1 :: c2 :: c3 :: c :: ws ++ s → Forall is_char l).
  { intros l Hl. apply list.Forall_forall. intros x Hx.
    rewrite list.Forall_forall in Hchars. apply Hchars. by apply Hl. }
  rewrite length_app, length_app in Hle. simpl in Hle.
  assert (Hb : ∀ l, Z.of_nat (length l) <= len → l ⊆ c0 :: c1 :: c2 :: c3 :: c :: ws ++ s →
               b64Decode (Some l) len true true
               = Some (B64.reserved len,
                       Some ((Some <$> b64_groups l)
                               ++ replicate (Z.to_nat (B64.reserved len)
                                             - length (b64_groups l) - 1) None
                               ++ [Some 0]))).
  { intros l Hl Hsub. apply b64Decode_stores; [by apply Hc|done|done]. }
  split_and!.
  - rewrite !Hb; [by rewrite b64_groups_skip| | | |].
    + lia.
    + sub_list.
    + rewrite length_app. lia.
    + sub_list.
  - intros Hs2 Hs3. rewrite !Hb.
    + unfold g. cbn [app b64_groups]. destruct (Z.leb_spec c0 32); [lia|].
      rewrite Hs2, Hs3. by rewrite b64_groups_skip.
    + unfold g. rewrite length_app. simpl. lia.
    + unfold g. sub_list.
    + unfold g. rewrite !length_app. simpl. lia.
    + unfold g. sub_list.
  - rewrite !Hb.
    + cbn [app b64_groups]. destruct (Z.leb_spec c0 32); [lia|]. by rewrite Hstop.
    + simpl. lia.
    + sub_list.
    + rewrite length_app. simpl. lia.
    + sub_list.
  - intros Hs2. rewrite !Hb.
    + cbn [app b64_groups]. destruct (Z.leb_spec c0 32); [lia|]. by rewrite Hs2, Hstop.
    + simpl. lia.
    + sub_list.
    + rewrite length_app. simpl. lia.
    + sub_list.
Qed.

Lemma b64_skips_and_stops_witness :
  let g := [81; 85; 74; 68] in
  b64Decode (Some ([10; 32] ++ [81; 81])) 16 true true
  = b64Decode (Some [81; 81]) 16 true true
  ∧ (b64_stop 74 = false → b64_stop 68 = false →
     b64Decode (Some (g ++ [10; 32] ++ [81; 81])) 16 true true
     = b64Decode (Some (g ++ [81; 81])) 16 true true)
  ∧ b64Decode (Some ([81; 85; 61] ++ [81; 81])) 16 true true
    = b64Decode (Some [81; 85; 61]) 16 true true
  ∧ (b64_stop 74 = false →
     b64Decode (Some ([81; 85; 74; 61] ++ [81; 81])) 16 true true
     = b64Decode (Some [81; 85; 74; 61]) 16 true true).
Proof.
  apply (b64_skips_and_stops 81 85 74 68 61 [10; 32] [81; 81] 16).
  - repeat constructor; unfold is_char; lia.
  - repeat constructor; lia.
  - lia.
  - reflexivity.
  - lia.
  - vm_compute. reflexivity.
Defined.
